(** * Solow-model notebooks: calibration, estimation and the analytic formulas

    A shallow embedding of the code cells of

    - [notebooks/6 Calibration and estimation.ipynb]
      ([match_moments], [_cobb_douglas_initial_guess], [_array_to_params],
      [_params_to_array], [_likelihood_function], [maximize_likelihood]),
    - [notebooks/1 Getting started.ipynb] (the symbolic production functions
      [cobb_douglas_output] and [ces_output], equation 1.3.6 for the drift),
    - the notebook on solving the model (equation 4.2.0, the closed-form
      Cobb-Douglas trajectory).

    Numbers.  The notebooks compute with IEEE doubles.  Here a finite double
    is idealised as a real number ([R]); rounding is not modelled.  The one
    non-finite value that the calibration code can produce from finite data,
    the [nan] that pandas returns for the mean of an empty series (and that
    marks a missing observation in the data set), is kept as a value of its
    own, [NaN].  Where a statement of the notebooks is about the digits of
    a result, the computation is repeated in binary64 (module
    [Binary64]). *)

From Stdlib Require Import Reals Lra Lia.
From stdpp Require Import base option list strings gmap.
From Stdlib Require Import Sorted.
From Stdlib Require PrimFloat.

(** ** Values, dictionaries, exceptions *)

Inductive fval : Type :=
  | NaN
  | Num (r : R).

Definition is_nan (v : fval) : bool :=
  match v with NaN => true | Num _ => false end.

(** Python exceptions that the modelled cells can raise. *)
Inductive exn : Type :=
  | AssertionError (msg : string)
  | KeyError (key : string)
  | IndexError
  | AttributeError
  | LinAlgError.

Inductive result (A : Type) : Type :=
  | Ok (a : A)
  | Raise (e : exn).
Arguments Ok {A} a.
Arguments Raise {A} e.

Definition rbind {A B} (r : result A) (k : A → result B) : result B :=
  match r with Ok a => k a | Raise e => Raise e end.

Module Conversions.
Section dict.
(** The conversions never inspect the values they move around. *)
Context {V : Type}.

(** [d[k]]: a missing key raises [KeyError]. *)
Definition getitem (d : gmap string V) (k : string) : result V :=
  match d !! k with Some v => Ok v | None => Raise (KeyError k) end.

(** [d1.update(d2)]: the entries of [d2] win. *)
Definition update (d1 d2 : gmap string V) : gmap string V := d2 ∪ d1.

(** [dict(pairs)]: later pairs overwrite earlier ones. *)
Definition dict_of (pairs : list (string * V)) : gmap string V :=
  foldl (λ d kv, <[kv.1 := kv.2]> d) ∅ pairs.

Definition keys : list string :=
  ["g"; "n"; "s"; "alpha"; "delta"; "sigma"; "sigma_eps"].

(** [_array_to_params]: [dict(zip(keys, array))]; [zip] stops at the
    shorter of its two arguments. *)
Definition _array_to_params (array : list V) : gmap string V :=
  dict_of (zip keys array).

(** [_params_to_array]: seven subscriptions, in this order, then
    [np.array] of the seven values. *)
Definition _params_to_array (params : gmap string V) : result (list V) :=
  rbind (getitem params "g") (λ g,
  rbind (getitem params "n") (λ n,
  rbind (getitem params "s") (λ s,
  rbind (getitem params "alpha") (λ alpha,
  rbind (getitem params "delta") (λ delta,
  rbind (getitem params "sigma") (λ sigma,
  rbind (getitem params "sigma_eps") (λ sigma_eps,
  Ok [g; n; s; alpha; delta; sigma; sigma_eps]))))))).
End dict.
End Conversions.

(** ** The calibration notebook *)

Module Calibration.
Import Conversions.
Local Open Scope R_scope.

(** *** The data set

    [data.major_xs(iso3_code)] is the table of one country: a row per year,
    in ascending order of the year, a column per Penn World Tables series.
    A missing observation is [NaN]. *)

Inductive var : Type := rgdpna | rkna | emp | labsh | csh_i | delta_k.

Record obs : Type := mk_obs { year : Z; value : var → fval }.

Abbreviation frame := (list obs).
Abbreviation panel := (gmap string (list obs)).
Abbreviation dict := (gmap string fval).

(** A pandas [Series]: the index label (a year) with each value. *)
Abbreviation series := (list (Z * R)).

Definition major_xs (data : panel) (iso3_code : string) : result frame :=
  match data !! iso3_code with
  | Some rows => Ok rows
  | None => Raise (KeyError iso3_code)
  end.

(** [tmp_data[required_vars].dropna()]: a row stays when none of the
    selected columns is missing. *)
Definition dropna (required_vars : list var) (rows : frame) : frame :=
  List.filter
    (λ o, forallb (λ v, negb (is_nan (value o v))) required_vars) rows.

(** [x.loc[start:end]] on an ascending index: label slicing, both ends
    included; [None] leaves that end open.  (On an index that is not
    ascending pandas slices by position instead; the statements about the
    contents of a slice assume ascending years.) *)
Definition in_slice (start stop : option Z) (t : Z) : bool :=
  from_option (λ a, (a <=? t)%Z) true start &&
  from_option (λ b, (t <=? b)%Z) true stop.

Definition loc_frame (start stop : option Z) (rows : frame) : frame :=
  List.filter (λ o, in_slice start stop (year o)) rows.

Definition loc (start stop : option Z) (x : series) : series :=
  List.filter (λ p, in_slice start stop p.1) x.

Definition index (rows : frame) : list Z := map year rows.

(** [tmp_data[v]], once [dropna] has removed the missing observations. *)
Definition column (v : var) (rows : frame) : series :=
  omap (λ o, match value o v with
             | Num r => Some (year o, r)
             | NaN => None
             end) rows.

Definition values (x : series) : list R := x.*2.

(** *** numpy and pandas on series *)

Definition sum (xs : list R) : R := foldr Rplus 0 xs.

(** [x.mean()] over the real numbers ([Binary64.mean] is the same in
    doubles); pandas gives [nan] for an empty series. *)
Definition mean (x : series) : fval :=
  match x with
  | [] => NaN
  | _ => Num (sum (values x) / INR (length x))
  end.

(** [1 - x] and [np.log(x)], element by element. *)
Definition one_minus (x : series) : series := map (λ p, (p.1, 1 - p.2)) x.
Definition log (x : series) : series := map (λ p, (p.1, ln p.2)) x.

(** [1 - v] for a value that may be [nan]. *)
Definition fone_minus (v : fval) : fval :=
  match v with Num m => Num (1 - m) | NaN => NaN end.

(** [np.linspace(a, b, N)]: [N] evenly spaced points from [a] to [b]. *)
Definition linspace (a b : R) (N : nat) : list R :=
  match N with
  | 1%nat => [a]
  | _ => map (λ i, a + INR i * ((b - a) / INR (N - 1))) (seq 0 N)
  end.

(** [pd.Series(xs, index=idx)]. *)
Definition Series (xs : list R) (idx : list Z) : series := zip idx xs.

(** *** [pd.ols(y=..., x=...)]

    An ordinary-least-squares fit of [y] on [x] and an intercept.  The two
    series of the notebook carry the same index, so the observations are
    paired by position.  [beta] lists the coefficient of [x] first and the
    intercept second.  The coefficients solve the normal equations; what
    pandas does when these are singular is left to [ols_singular]. *)

Definition observations (y x : series) : list (R * R) :=
  zip (values x) (values y).

Definition Sx (pts : list (R * R)) : R := sum (pts.*1).
Definition Sy (pts : list (R * R)) : R := sum (pts.*2).
Definition Sxx (pts : list (R * R)) : R := sum (map (λ p, p.1 * p.1) pts).
Definition Sxy (pts : list (R * R)) : R := sum (map (λ p, p.1 * p.2) pts).

Definition Syy (pts : list (R * R)) : R := sum (map (λ p, p.2 * p.2) pts).

Definition determinant (pts : list (R * R)) : R :=
  INR (length pts) * Sxx pts - Sx pts * Sx pts.

Definition slope (pts : list (R * R)) : R :=
  (INR (length pts) * Sxy pts - Sx pts * Sy pts) / determinant pts.

Definition intercept (pts : list (R * R)) : R :=
  (Sy pts - slope pts * Sx pts) / INR (length pts).

(** The sum of squared residuals of the line [b0 + b1 * x]: what an
    ordinary-least-squares fit minimises. *)
Definition ssr (pts : list (R * R)) (b0 b1 : R) : R :=
  sum (map (λ p, (p.2 - (b0 + b1 * p.1)) * (p.2 - (b0 + b1 * p.1))) pts).

Definition is_ols_fit (pts : list (R * R)) (b0 b1 : R) : Prop :=
  ∀ c0 c1, ssr pts b0 b1 <= ssr pts c0 c1.

(** The sum of the squared deviations of the [x] from a centre [m]. *)
Definition deviations (pts : list (R * R)) (m : R) : R :=
  sum (map (λ p, (p.1 - m) * (p.1 - m)) pts).

(** The observations paired with the linear trend [0, 1, 2, ...]. *)
Definition trend_points (ys : list R) : list (R * R) :=
  zip (map INR (seq 0 (length ys))) ys.

(** [res.beta[i]]. *)
Definition beta_at (beta : list R) (i : nat) : result R :=
  match beta !! i with Some b => Ok b | None => Raise IndexError end.

(** *** The model object

    [model.params] holds a reference to a dictionary.  The store keeps the
    dictionaries that exist, by address, and the address the model's
    attribute points to. *)

Record world : Type := mk_world {
  heap : list dict;
  model_params : nat
}.

(** A computation that reads and writes the store and may raise. *)
Definition M (A : Type) : Type := world → result A * world.

Definition ret {A} (a : A) : M A := λ w, (Ok a, w).
Definition raise {A} (e : exn) : M A := λ w, (Raise e, w).
Definition lift {A} (r : result A) : M A := λ w, (r, w).
Definition bind {A B} (c : M A) (k : A → M B) : M B :=
  λ w, match c w with
       | (Ok a, w') => k a w'
       | (Raise e, w') => (Raise e, w')
       end.

Notation "x <-- c ;; k" := (bind c (λ x, k))
  (at level 100, c at next level, right associativity).

(** The dictionary at an address ([{}] stands in for a dangling address,
    which the modelled code never produces). *)
Definition deref (w : world) (l : nat) : dict := default ∅ (heap w !! l).

(** Reading [model.params]. *)
Definition get_params : M dict := λ w, (Ok (deref w (model_params w)), w).

(** [d.copy()]: a new dictionary with the same entries. *)
Definition copy (l : nat) : M nat :=
  λ w, (Ok (length (heap w)),
        mk_world (heap w ++ [deref w l]) (model_params w)).

(** [d.update(new)], in place. *)
Definition dict_update (l : nat) (new : dict) : M unit :=
  λ w, (Ok (),
        mk_world (<[l := update (deref w l) new]> (heap w)) (model_params w)).

(** A computation that leaves the store as it finds it. *)
Definition preserves {A} (c : M A) : Prop := ∀ w, (c w).2 = w.

(** The dictionary that [_likelihood_function] installs as [model.params]:
    the old one, overwritten with the entries of the array. *)
Definition installed (w : world) (params_array : list fval) : dict :=
  update (deref w (model_params w)) (_array_to_params params_array).

Record OptimizeResult : Type := mk_result {
  success : bool;
  x : list fval;
  message : string
}.

(** What [maximize_likelihood] returns: [result, tmp_params] or [result]. *)
Inductive ml_return : Type :=
  | Estimates (res : OptimizeResult) (tmp_params : dict)
  | Diagnostic (res : OptimizeResult).

Section calibration.
(** The methods of the [solowpy] model class and the library routines that
    the notebook calls; their code is not part of the notebooks. *)

(** [model.evaluate_solow_residual(output, capital, labor)] at one
    observation, under the model's current parameters. *)
Variable solow_residual : dict → R → R → R → R.
(** [model.evaluate_output_elasticity(k)] at one value of [k]. *)
Variable output_elasticity : dict → R → R.
(** The validation that the setter of [model.params] runs. *)
Variable validate_params : dict → bool.
(** [pd.ols] on observations whose normal equations are singular. *)
Variable ols_singular : list (R * R) → result (list R).
(** [scipy.optimize.minimize(fun, x0, method=..., bounds=...)]; the
    objective it is handed works on the store. *)
Variable minimize :
  (list fval → M fval) → list fval → string → list (option R * option R) →
  M OptimizeResult.

(** [pd.ols(y=y, x=x).beta]. *)
Definition ols (y x : series) : result (list R) :=
  let pts := observations y x in
  if Req_dec_T (determinant pts) 0 then ols_singular pts
  else Ok [slope pts; intercept pts].

(** [model.params = value]: validated, then stored by reference. *)
Definition set_params (l : nat) : M unit :=
  λ w, if validate_params (deref w l)
       then (Ok (), mk_world (heap w) l)
       else (Raise AttributeError, w).

(** The two evaluation methods work element by element, on the model's
    current parameters; the result carries the index of its (last)
    argument. *)
Definition evaluate_solow_residual (output capital labor : series)
    : M series :=
  params <-- get_params;;
  ret (zip_with (λ yk l, (l.1, solow_residual params yk.1.2 yk.2.2 l.2))
         (zip output capital) labor).

Definition evaluate_output_elasticity (k : series) : M series :=
  params <-- get_params;;
  ret (map (λ p, (p.1, output_elasticity params p.2)) k).

(** The selection of the observation window, shared word for word (up to
    [required_vars]) by [match_moments] and [maximize_likelihood]: the
    country's rows, without those that miss a required series; the
    assertion; then the restriction to [bounds]. *)
Definition window (required_vars : list var) (data : panel)
    (iso3_code : string) (bounds : option (option Z * option Z))
    : result (option Z * option Z * frame) :=
  rbind (major_xs data iso3_code) (λ tmp_data,
  match dropna required_vars tmp_data with
  | [] =>
      Raise (AssertionError "Insufficient data to estimate model parameters")
  | tmp_data =>
      let '(start, stop) :=
        match bounds with
        | None => (head (index tmp_data), last (index tmp_data))
        | Some b => (b.1, b.2)
        end in
      Ok (start, stop, loc_frame start stop tmp_data)
  end).

(** [match_moments(model, data, iso3_code, bounds)]. *)
Definition match_moments (data : panel) (iso3_code : string)
    (bounds : option (option Z * option Z)) : M dict :=
  (* get the PWT data for the iso_code; set bounds *)
  sel <-- lift (window [rgdpna; rkna; emp; labsh; csh_i; delta_k]
                  data iso3_code bounds);;
  let '(start, stop, tmp_data) := sel in
  (* define the data used in the calibration *)
  let output := column rgdpna tmp_data in
  let capital := column rkna tmp_data in
  let labor := column emp tmp_data in
  let labor_share := column labsh tmp_data in
  let savings_rate := column csh_i tmp_data in
  let depreciation_rate := column delta_k tmp_data in
  (* define a time trend variable *)
  let N := length (index tmp_data) in
  let linear_trend := Series (linspace 0 (INR N - 1) N) (index tmp_data) in
  let time_trend := loc start stop linear_trend in
  (* estimate capital's share of income/output *)
  let capital_share := one_minus labor_share in
  let alpha := mean capital_share in
  (* compute solow residual *)
  solow_residual <-- evaluate_solow_residual output capital labor;;
  let technology := loc start stop solow_residual in
  (* estimate the fraction of output saved *)
  let s := mean savings_rate in
  (* regress log employed persons on linear time trend *)
  res <-- lift (ols (log labor) time_trend);;
  n <-- lift (beta_at res 0);;
  b1 <-- lift (beta_at res 1);;
  let L0 := exp b1 in
  (* regress log TFP on linear time trend *)
  res <-- lift (ols (log technology) time_trend);;
  g <-- lift (beta_at res 0);;
  b1 <-- lift (beta_at res 1);;
  let A0 := exp b1 in
  (* estimate the depreciation rate for total capital *)
  let delta := mean depreciation_rate in
  (* create a dictionary of model parameters *)
  let tmp_params : dict :=
    dict_of [("s", s); ("alpha", alpha); ("delta", delta); ("n", Num n);
             ("L0", Num L0); ("g", Num g); ("A0", Num A0)] in
  ret tmp_params.

(** [_cobb_douglas_initial_guess]. *)
Definition _cobb_douglas_initial_guess (data : panel) (iso3_code : string)
    (bounds : option (option Z * option Z)) (sigma0 sigma_eps0 : fval)
    : M (list fval) :=
  tmp_params <-- match_moments data iso3_code bounds;;
  (* initial guesses for sigma, and sigma_eps *)
  let tmp_params := <["sigma" := sigma0]> tmp_params in
  let tmp_params := <["sigma_eps" := sigma_eps0]> tmp_params in
  lift (_params_to_array tmp_params).

(** [stats.norm.pdf(x, loc, scale)] as a real number; [nan] unless [scale]
    is positive.  (The double that scipy returns is [0.0] once
    [|x - loc| / scale] exceeds about [38.6]; the statements about the
    value of the density keep within that range.) *)
Definition norm_pdf (x loc : R) (scale : fval) : fval :=
  match scale with
  | Num sc =>
      if Rlt_dec 0 sc
      then Num (exp (- (((x - loc) / sc) * ((x - loc) / sc)) / 2)
                / (sqrt (2 * PI) * sc))
      else NaN
  | NaN => NaN
  end.

Definition flog (v : fval) : fval :=
  match v with Num r => Num (ln r) | NaN => NaN end.
Definition fadd (u v : fval) : fval :=
  match u, v with Num a, Num b => Num (a + b) | _, _ => NaN end.
Definition fneg (v : fval) : fval :=
  match v with Num r => Num (- r) | NaN => NaN end.
Definition fsum (vs : list fval) : fval := foldr fadd (Num 0) vs.

(** [_likelihood_function(params_array, model, output, capital, labor,
    labor_share)]: the objective for maximum likelihood estimation. *)
Definition _likelihood_function (params_array : list fval)
    (output capital labor labor_share : series) : M fval :=
  (* create tmp parameter dictionary *)
  old <-- (λ w, (Ok (model_params w), w));;
  tmp_params <-- copy old;;
  let new_params := _array_to_params params_array in
  _ <-- dict_update tmp_params new_params;;
  _ <-- set_params tmp_params;;
  (* compute solow residual *)
  technology <-- evaluate_solow_residual output capital labor;;
  (* compute capital (per unit effective labor) *)
  let k := zip_with (λ c tl, (c.1, c.2 / (tl.1.2 * tl.2.2)))
             capital (zip technology labor) in
  (* model predicted labor's share of income/output *)
  elasticity <-- evaluate_output_elasticity k;;
  let predicted_labor_share := one_minus elasticity in
  (* residual difference between model predictions and data *)
  let residual := zip_with (λ a b, (a.1, a.2 - b.2))
                    labor_share predicted_labor_share in
  (* assumes residuals are gaussian *)
  params <-- get_params;;
  sigma_eps <-- lift (getitem params "sigma_eps");;
  let total_log_likelihood :=
    fsum (map (λ r, flog (norm_pdf r 0 sigma_eps)) (values residual)) in
  ret (fneg total_log_likelihood).

(** [x[0]], by position. *)
Definition first (x : series) : result R :=
  match x with p :: _ => Ok p.2 | [] => Raise IndexError end.

(** [maximize_likelihood(model, data, iso3_code, bounds, method, sigma0,
    sigma_eps0)]. *)
Definition maximize_likelihood (data : panel) (iso3_code : string)
    (bounds : option (option Z * option Z)) (method : string)
    (sigma0 sigma_eps0 : fval) : M ml_return :=
  (* get the PWT data for the iso_code; set bounds *)
  sel <-- lift (window [rgdpna; rkna; emp; labsh] data iso3_code bounds);;
  let '(start, stop, tmp_data) := sel in
  (* define the data used in the calibration *)
  let output := loc start stop (column rgdpna tmp_data) in
  let capital := loc start stop (column rkna tmp_data) in
  let labor := loc start stop (column emp tmp_data) in
  let labor_share := loc start stop (column labsh tmp_data) in
  technology <-- evaluate_solow_residual output capital labor;;
  initial_guess <-- _cobb_douglas_initial_guess data iso3_code bounds
                      sigma0 sigma_eps0;;
  let eps := 1e-6 in
  let bnds := [(None, None); (None, None); (Some eps, Some (1 - eps));
               (Some eps, Some (1 - eps)); (Some eps, None);
               (Some eps, None); (Some eps, None)] in
  result <-- minimize
               (λ params_array,
                  _likelihood_function params_array output capital labor
                    labor_share)
               initial_guess method bnds;;
  if success result then
    let tmp_params := _array_to_params (x result) in
    A0 <-- lift (first technology);;
    let tmp_params := <["A0" := Num A0]> tmp_params in
    L0 <-- lift (first labor);;
    let tmp_params := <["L0" := Num L0]> tmp_params in
    K0 <-- lift (first capital);;
    let tmp_params := <["K0" := Num K0]> tmp_params in
    ret (Estimates result tmp_params)
  else
    ret (Diagnostic result).

(** *** Names for the parts of the routines

    The statements about the routines refer to these; each repeats an
    expression of the code above. *)

(** The series required by [match_moments] and by [maximize_likelihood]. *)
Definition six : list var := [rgdpna; rkna; emp; labsh; csh_i; delta_k].
Definition four : list var := [rgdpna; rkna; emp; labsh].

(** [time_trend] and [technology] in [match_moments]. *)
Definition time_trend (start stop : option Z) (tmp_data : frame) : series :=
  let N := length (index tmp_data) in
  loc start stop (Series (linspace 0 (INR N - 1) N) (index tmp_data)).

Definition technology (params : dict) (start stop : option Z)
    (tmp_data : frame) : series :=
  loc start stop
    (zip_with (λ yk l, (l.1, solow_residual params yk.1.2 yk.2.2 l.2))
       (zip (column rgdpna tmp_data) (column rkna tmp_data))
       (column emp tmp_data)).

(** What [match_moments] estimates on a window with a regular regression,
    given the parameters the model holds when it is called. *)
Definition estimates (params : dict) (start stop : option Z)
    (tmp_data : frame) : dict :=
  let labor := trend_points (map ln (values (column emp tmp_data))) in
  let tfp := trend_points
               (map ln (values (technology params start stop tmp_data))) in
  dict_of [("s", mean (column csh_i tmp_data));
           ("alpha", mean (one_minus (column labsh tmp_data)));
           ("delta", mean (column delta_k tmp_data));
           ("n", Num (slope labor)); ("L0", Num (exp (intercept labor)));
           ("g", Num (slope tfp)); ("A0", Num (exp (intercept tfp)))].

(** The box constraints handed to the optimizer. *)
Definition bnds : list (option R * option R) :=
  let eps := 1e-6 in
  [(None, None); (None, None); (Some eps, Some (1 - eps));
   (Some eps, Some (1 - eps)); (Some eps, None); (Some eps, None);
   (Some eps, None)].

(** The objective that the optimizer is handed. *)
Definition objective (start stop : option Z) (tmp_data : frame)
    (params_array : list fval) : M fval :=
  _likelihood_function params_array
    (loc start stop (column rgdpna tmp_data))
    (loc start stop (column rkna tmp_data))
    (loc start stop (column emp tmp_data))
    (loc start stop (column labsh tmp_data)).

(** The technology series that [maximize_likelihood] computes before it
    estimates anything. *)
Definition initial_technology (params : dict) (start stop : option Z)
    (tmp_data : frame) : series :=
  zip_with (λ yk l, (l.1, solow_residual params yk.1.2 yk.2.2 l.2))
    (zip (loc start stop (column rgdpna tmp_data))
         (loc start stop (column rkna tmp_data)))
    (loc start stop (column emp tmp_data)).

(** The statements of [maximize_likelihood] that follow the call of the
    optimizer. *)
Definition finish (technology labor capital : series)
    (result : OptimizeResult) : M ml_return :=
  if success result then
    let tmp_params := _array_to_params (x result) in
    A0 <-- lift (first technology);;
    let tmp_params := <["A0" := Num A0]> tmp_params in
    L0 <-- lift (first labor);;
    let tmp_params := <["L0" := Num L0]> tmp_params in
    K0 <-- lift (first capital);;
    let tmp_params := <["K0" := Num K0]> tmp_params in
    ret (Estimates result tmp_params)
  else
    ret (Diagnostic result).
End calibration.
End Calibration.

(** ** The production functions and the drift (first notebook) *)

Module Production.
Local Open Scope R_scope.

(** [x ** y] for a base [x >= 0]: [exp (y * ln x)] when [x] is positive,
    and [0 ** y] is [0] for a positive exponent and [1] for the exponent
    [0].  (A negative base, or [0] to a negative power, has no finite real
    value; the formulas below are used on non-negative quantities.) *)
Definition power (x y : R) : R :=
  if Rlt_dec 0 x then Rpower x y
  else if Req_dec_T y 0 then 1 else 0.

(** [cobb_douglas_output = K**alpha * (A * L)**(1 - alpha)]. *)
Definition cobb_douglas_output (A K L alpha : R) : R :=
  power K alpha * power (A * L) (1 - alpha).

(** [rho = (sigma - 1) / sigma]. *)
Definition rho (sigma : R) : R := (sigma - 1) / sigma.

(** [ces_output = (alpha * K**rho + (1 - alpha) * (A * L)**rho)**(1 / rho)].
    The expression divides by [sigma] and by [rho]; where one of them is
    zero it has no value ([NaN]).  It has no other case distinction. *)
Definition ces_output (A K L alpha sigma : R) : fval :=
  if Req_dec_T sigma 0 then NaN
  else if Req_dec_T (rho sigma) 0 then NaN
  else Num (power (alpha * power K (rho sigma)
                   + (1 - alpha) * power (A * L) (rho sigma))
                  (1 / rho sigma)).

(** The parameters that the drift and the closed-form solution depend on
    ([A0], [L0] and [K0] play no part in them; a CES model adds [sigma]). *)
Record parameters : Type := mk_parameters {
  g : R;
  n : R;
  s : R;
  delta : R;
  alpha : R
}.

(** Modelled from the spec: the invariant of a parameter set,
    [0 < alpha < 1], [s, delta > 0], [g + n + delta > 0] (the validation
    itself is library code; the first notebook shows it refusing a parameter
    set with [g + n + delta < 0]). *)
Definition admissible (p : parameters) : Prop :=
  0 < alpha p < 1 ∧ 0 < s p ∧ 0 < delta p ∧ 0 < g p + n p + delta p.

(** Equation 1.3.1: the intensive form [f(k) = F(K/AL, 1)] of a production
    function [F(A, K, L)] with constant returns to scale. *)
Definition intensive_output (F : R → R → R → R) (k : R) : R := F 1 k 1.

(** Equation 1.3.6: [k_dot = s f(k) - (g + n + delta) k]. *)
Definition k_dot (f : R → R) (p : parameters) (k : R) : R :=
  s p * f k - (g p + n p + delta p) * k.

(** The Cobb-Douglas model: its intensive output and drift. *)
Definition cobb_douglas_intensive (p : parameters) : R → R :=
  intensive_output (λ A K L, cobb_douglas_output A K L (alpha p)).

Definition cobb_douglas_k_dot (p : parameters) : R → R :=
  k_dot (cobb_douglas_intensive p) p.

(** The CES model: its intensive output and drift, with a value where the
    CES expression has one. *)
Definition ces_intensive (p : parameters) (sigma k : R) : fval :=
  ces_output 1 k 1 (alpha p) sigma.

Definition ces_k_dot (p : parameters) (sigma k : R) : fval :=
  match ces_intensive p sigma k with
  | Num y => Num (s p * y - (g p + n p + delta p) * k)
  | NaN => NaN
  end.

(** Modelled from the spec: the steady state of the Cobb-Douglas model,
    [k* = (s / (n + g + delta))^(1 / (1 - alpha))]; the notebooks only call
    the library routine that computes it ([analytic_steady_state]). *)
Definition steady_state (p : parameters) : R :=
  power (s p / (n p + g p + delta p)) (1 / (1 - alpha p)).

End Production.

(** ** The closed-form solution (notebook on solving the model) *)

Module Solving.
Import Production.
Local Open Scope R_scope.

(** Equation 4.2.0, the analytic solution of the model with Cobb-Douglas
    production at time [t], from the initial condition [k0]. *)
Definition analytic_k (p : parameters) (t k0 : R) : R :=
  let lmbda := n p + g p + delta p in
  power (s p / lmbda * (1 - exp (- lmbda * (1 - alpha p) * t))
         + power k0 (1 - alpha p) * exp (- lmbda * (1 - alpha p) * t))
        (1 / (1 - alpha p)).

(** [analytic_solution(ti, k0)]: the trajectory, a row [(t, k(t))] for each
    point of the grid [ti]. *)
Definition analytic_solution (p : parameters) (ti : list R) (k0 : R)
    : list (R * R) :=
  map (λ t, (t, analytic_k p t k0)) ti.

End Solving.

(** ** The estimate of [alpha] in binary64

    [Calibration] computes with real numbers.  The two statements of
    [match_moments] that estimate [alpha],
    [capital_share = 1 - labor_share] and [alpha = capital_share.mean()],
    are repeated here in the arithmetic of the code, IEEE binary64 with
    rounding to nearest. *)

Module Binary64.
Import PrimFloat.
Local Open Scope float_scope.

(** The double of a count (exact below [2^53]). *)
Fixpoint of_nat (n : nat) : float :=
  match n with
  | O => 0
  | S n => of_nat n + 1
  end.

(** [1 - x], element by element. *)
Definition one_minus (x : list float) : list float := map (λ v, 1 - v) x.

(** The sum that [x.mean()] takes: numpy adds fewer than eight doubles one
    after the other, from zero.  (Longer arrays are added pairwise, in
    blocks; the order of those additions is not modelled.) *)
Definition sum (xs : list float) : float := foldl add 0 xs.

(** [x.mean()]: the sum divided by the count; [0 / 0] is [nan], as for
    pandas on an empty series. *)
Definition mean (x : list float) : float := sum x / of_nat (length x).

(** [alpha], as [match_moments] computes it. *)
Definition alpha (labor_share : list float) : float :=
  mean (one_minus labor_share).

(** [1 - mean(labor_share)], the other side of the comparison. *)
Definition one_minus_mean (labor_share : list float) : float :=
  1 - mean labor_share.

(** The series [0.6, 0.6, 0.6]; the doubles [0.4] and
    [0.4000000000000001]. *)
Definition labsh_literal : list float :=
  [0x1.3333333333333p-1; 0x1.3333333333333p-1; 0x1.3333333333333p-1].
Definition point_four : float := 0x1.999999999999ap-2.
Definition above_point_four : float := 0x1.999999999999bp-2.
End Binary64.

(** ** Concrete inputs *)

Module Examples.
Import Conversions Calibration Production.
Local Open Scope R_scope.

(** The parameters of the notebooks. *)
Definition ces_params : dict :=
  dict_of [("K0", Num 1); ("A0", Num 1); ("L0", Num 1); ("g", Num 0.02);
           ("n", Num 0.03); ("s", Num 0.15); ("delta", Num 0.05);
           ("alpha", Num 0.33); ("sigma", Num 0.95); ("sigma_eps", Num 0.01)].

Definition cobb_douglas_params : parameters :=
  mk_parameters 0.02 0.03 0.15 0.05 0.33.

(** Parameters for a CES model with [sigma = 1 / 2], whose steady state
    is [k = 9]. *)
Definition high_saving_params : parameters :=
  mk_parameters 0.02 0.03 0.5 0.05 0.5.

(** A store in which [model.params] is the dictionary above. *)
Definition w0 : world := mk_world [ces_params] 0.

(** Three complete observations with a labor share of [0.6]. *)
Definition row (y : Z) : obs :=
  mk_obs y (λ v, match v with labsh => Num 0.6 | _ => Num 1 end).
Definition rows_abc : frame := [row 2000; row 2001; row 2002].
Definition data_abc : panel := {["ABC" := rows_abc]}.

(** A country with one complete observation, for 1950, and bounds that
    leave it out. *)
Definition data_1950 : panel := {["ZZZ" := [mk_obs 1950 (λ _, Num 1)]]}.
Definition bounds_1960s : option (option Z * option Z) :=
  Some (Some 1960%Z, Some 1970%Z).

(** Stand-ins for the library routines. *)
Definition residual_one : dict → R → R → R → R := λ _ _ _ _, 1.
Definition elasticity_third : dict → R → R := λ _ _, 1 / 3.
Definition accept_all : dict → bool := λ _, true.
Definition ols_raises : list (R * R) → result (list R) :=
  λ _, Raise LinAlgError.

(** An optimizer that gives up at once, and one that reports success at
    its starting point. *)
Definition minimize_fails :
    (list fval → M fval) → list fval → string → list (option R * option R) →
    M OptimizeResult :=
  λ _ x0 _ _,
    ret (mk_result false x0 "Maximum number of iterations has been exceeded.").
Definition minimize_succeeds :
    (list fval → M fval) → list fval → string → list (option R * option R) →
    M OptimizeResult :=
  λ _ x0 _ _, ret (mk_result true x0 "Optimization terminated successfully.").

(** The seed of the optimizer on [data_abc]. *)
Definition seed_abc : list fval :=
  let p := estimates residual_one ces_params (Some 2000%Z) (Some 2002%Z)
             rows_abc in
  match _params_to_array
          (<["sigma_eps" := Num 0.01]> (<["sigma" := Num 1.01]> p)) with
  | Ok a => a
  | Raise _ => []
  end.

(** An array that differs from [ces_params] in [g]. *)
Definition array_g3 : list fval :=
  [Num 0.03; Num 0.03; Num 0.15; Num 0.33; Num 0.05; Num 0.95; Num 0.01].
End Examples.

(** ** The objective of the estimation, in parts

    Names for the expressions of [_likelihood_function] that follow the
    assignment to [model.params]; each repeats the code of
    [Calibration._likelihood_function], for given parameters. *)

Module Likelihood.
Import Conversions Calibration.
Local Open Scope R_scope.

Section likelihood.
Variable solow_residual : dict → R → R → R → R.
Variable output_elasticity : dict → R → R.

(** [residual]: the labor share of the data less the one the model
    predicts, under the parameters [params]. *)
Definition residual (params : dict) (output capital labor labor_share : series)
    : series :=
  let technology :=
    zip_with (λ yk l, (l.1, solow_residual params yk.1.2 yk.2.2 l.2))
      (zip output capital) labor in
  let k := zip_with (λ c tl, (c.1, c.2 / (tl.1.2 * tl.2.2)))
             capital (zip technology labor) in
  let elasticity := map (λ p, (p.1, output_elasticity params p.2)) k in
  let predicted_labor_share := one_minus elasticity in
  zip_with (λ a b, (a.1, a.2 - b.2)) labor_share predicted_labor_share.

(** [-total_log_likelihood] of a list of residuals. *)
Definition negative_log_likelihood (sigma_eps : fval) (rs : list R) : fval :=
  fneg (fsum (map (λ r, flog (norm_pdf r 0 sigma_eps)) rs)).

(** The value of the objective once [params] is installed. *)
Definition value_at (params : dict) (output capital labor labor_share : series)
    : result fval :=
  rbind (getitem params "sigma_eps") (λ sigma_eps,
  Ok (negative_log_likelihood sigma_eps
        (values (residual params output capital labor labor_share)))).
End likelihood.
End Likelihood.

(** ** Simulating the estimated model (last cells of the calibration
    notebook) *)

Module Simulation.
Import Conversions Calibration.
Local Open Scope R_scope.

(** Products and quotients of values that may be [nan].  A quotient with
    the divisor zero has no finite value (Python raises
    [ZeroDivisionError], numpy returns [inf] or [nan]); as for the CES
    expression, [NaN] stands for that. *)
Definition fmul (u v : fval) : fval :=
  match u, v with Num a, Num b => Num (a * b) | _, _ => NaN end.

Definition fdiv (u v : fval) : fval :=
  match u, v with
  | Num a, Num b => if Req_dec_T b 0 then NaN else Num (a / b)
  | _, _ => NaN
  end.

(** [_initial_condition(model)]:
    [model.params['K0'] / (model.params['A0'] * model.params['L0'])]. *)
Definition _initial_condition : M fval :=
  params <-- get_params;;
  K0 <-- lift (getitem params "K0");;
  params <-- get_params;;
  A0 <-- lift (getitem params "A0");;
  params <-- get_params;;
  L0 <-- lift (getitem params "L0");;
  ret (fdiv K0 (fmul A0 L0)).

(** [ces_model.params = params]: the dictionary returned by
    [maximize_likelihood] is stored by reference, after validation. *)
Definition assign_params (validate_params : dict → bool) (params : dict)
    : M unit :=
  λ w, if validate_params params
       then (Ok (), mk_world (heap w ++ [params]) (length (heap w)))
       else (Raise AttributeError, w).

(** The growth-rate plot.  [numeric_soln] has a row [(t, k(t))] for each
    point of the grid; [ces_model.evaluate_intensive_output] works element
    by element.

    [technology = A0 * np.exp(g * numeric_soln[:,0])]. *)
Definition technology (A0 g : R) (numeric_soln : list (R * R)) : list R :=
  map (λ t, A0 * exp (g * t)) (numeric_soln.*1).

(** [output_per_capita = intensive_output * technology]. *)
Definition output_per_capita (intensive_output technology : list R)
    : list R :=
  zip_with Rmult intensive_output technology.

(** [np.diff(x)]: [x[i+1] - x[i]]. *)
Definition diff (x : list R) : list R :=
  zip_with (λ a b, b - a) x (tail x).

(** [np.diff(np.log(output_per_capita))], the plotted growth rates, for
    the intensive production function [f] of the model. *)
Definition growth_rates (f : R → R) (A0 g : R) (numeric_soln : list (R * R))
    : list R :=
  let intensive_output := map f (numeric_soln.*2) in
  diff (map ln (output_per_capita intensive_output
                  (technology A0 g numeric_soln))).
End Simulation.

(** ** The linearized solution (notebook on solving the model, 4.2.2) *)

Module Linearization.
Import Production.
Local Open Scope R_scope.

(** Equation 4.2.5: the elasticity of output with respect to capital,
    [k f'(k) / f(k)], given the value [f'(k)] of the derivative. *)
Definition output_elasticity (f : R → R) (df : R) (k : R) : R :=
  k * df / f k.

(** Equation 4.2.4: the speed of convergence,
    [(1 - alpha_K) (g + n + delta)], with [alpha_K] the elasticity at the
    steady state. *)
Definition speed_of_convergence (p : parameters) (alpha_K : R) : R :=
  (1 - alpha_K) * (g p + n p + delta p).

(** Equation 4.2.3: [k(t) = k_star + e^(-lambda t) (k0 - k_star)]. *)
Definition linearized_k (k_star lmbda t k0 : R) : R :=
  k_star + exp (- lmbda * t) * (k0 - k_star).

(** [linearized_solution(ti, k0)]: a row [(t, k(t))] for each point of the
    grid [ti]. *)
Definition linearized_solution (k_star lmbda : R) (ti : list R) (k0 : R)
    : list (R * R) :=
  map (λ t, (t, linearized_k k_star lmbda t k0)) ti.
End Linearization.

(** ** Further concrete inputs *)

Module Scenarios.
Import Conversions Calibration Production Examples.
Local Open Scope R_scope.

(** Three complete observations in which employment grows at the rate
    [0.01] from the level [2], and the Solow residual (in the stand-in
    below) at the rate [0.02] from the level [3]. *)
Definition growing_row (i : nat) : obs :=
  mk_obs (2000 + Z.of_nat i)
    (λ v, match v with
          | emp => Num (2 * exp (0.01 * INR i))
          | rgdpna => Num (3 * exp (0.02 * INR i))
          | labsh => Num 0.6
          | csh_i => Num 0.2
          | delta_k => Num 0.04
          | rkna => Num 1
          end).
Definition rows_growing : frame := map growing_row (seq 0 3).
Definition data_growing : panel := {["GRW" := rows_growing]}.

(** A stand-in for the Solow residual that returns the output. *)
Definition residual_output : dict → R → R → R → R := λ _ Y _ _, Y.

(** A country whose observations all lack the investment share: complete
    for [maximize_likelihood], not for [match_moments]. *)
Definition row_no_savings (y : Z) : obs :=
  mk_obs y (λ v, match v with csh_i => NaN | labsh => Num 0.6 | _ => Num 1 end).
Definition data_no_savings : panel :=
  {["NSV" := [row_no_savings 2000; row_no_savings 2001]]}.

(** A country with a gap: the observation of 2001 lacks the labor share. *)
Definition row_gap : obs :=
  mk_obs 2001 (λ v, match v with labsh => NaN | _ => Num 1 end).
Definition data_gap : panel := {["GAP" := [row 2000; row_gap; row 2002]]}.

(** A model whose parameters lack [sigma_eps], and an array of six
    elements. *)
Definition params_no_sigma_eps : dict :=
  dict_of [("K0", Num 1); ("A0", Num 1); ("L0", Num 1); ("g", Num 0.02)].
Definition w_no_sigma_eps : world := mk_world [params_no_sigma_eps] 0.
Definition array_six : list fval :=
  [Num 0.03; Num 0.03; Num 0.15; Num 0.33; Num 0.05; Num 0.95].

(** A store whose model holds other estimates than [ces_params] but the
    same initial levels. *)
Definition other_params : dict :=
  dict_of [("K0", Num 1); ("A0", Num 1); ("L0", Num 1); ("g", Num 0.07);
           ("n", Num 0.01); ("s", Num 0.3); ("delta", Num 0.1);
           ("alpha", Num 0.5); ("sigma", Num 2); ("sigma_eps", Num 1)].
Definition w_other : world := mk_world [other_params] 0.
End Scenarios.

(** * Properties *)

(** ** The conversions between arrays and dictionaries *)

Module ConversionFacts.
Import Conversions.
Section dict.
Context {V : Type}.

Ltac in_keys := unfold keys; rewrite !elem_of_cons; tauto.

Lemma getitem_Some (d : gmap string V) k v :
  d !! k = Some v → getitem d k = Ok v.
Proof. unfold getitem. by intros ->. Qed.

Lemma array_to_params_seven (g n s alpha delta sigma sigma_eps : V) :
  _array_to_params [g; n; s; alpha; delta; sigma; sigma_eps] =
  <["sigma_eps" := sigma_eps]> (<["sigma" := sigma]> (<["delta" := delta]>
    (<["alpha" := alpha]> (<["s" := s]> (<["n" := n]> (<["g" := g]> ∅)))))).
Proof. reflexivity. Qed.

Lemma seven_elements (a : list V) :
  length a = 7%nat →
  ∃ g n s alpha delta sigma sigma_eps,
    a = [g; n; s; alpha; delta; sigma; sigma_eps].
Proof.
  intros Hlen.
  do 7 (destruct a as [|? a]; [discriminate Hlen|]).
  destruct a; [|discriminate Hlen]. by repeat eexists.
Qed.

Lemma params_to_array_Ok (p : gmap string V) g n s alpha delta sigma sigma_eps :
  p !! "g" = Some g → p !! "n" = Some n → p !! "s" = Some s →
  p !! "alpha" = Some alpha → p !! "delta" = Some delta →
  p !! "sigma" = Some sigma → p !! "sigma_eps" = Some sigma_eps →
  _params_to_array p = Ok [g; n; s; alpha; delta; sigma; sigma_eps].
Proof.
  intros Hg Hn Hs Ha Hd Hsi Hse. unfold _params_to_array.
  rewrite (getitem_Some _ _ _ Hg), (getitem_Some _ _ _ Hn),
    (getitem_Some _ _ _ Hs), (getitem_Some _ _ _ Ha),
    (getitem_Some _ _ _ Hd), (getitem_Some _ _ _ Hsi),
    (getitem_Some _ _ _ Hse).
  reflexivity.
Qed.

Lemma not_in_keys (k : string) :
  k ∉ @keys →
  k ≠ "g" ∧ k ≠ "n" ∧ k ≠ "s" ∧ k ≠ "alpha" ∧ k ≠ "delta" ∧ k ≠ "sigma" ∧
  k ≠ "sigma_eps".
Proof.
  unfold keys. rewrite !not_elem_of_cons. tauto.
Qed.

Lemma array_to_params_lookup (a : list V) :
  (∀ i k, keys !! i = Some k → _array_to_params a !! k = a !! i) ∧
  (∀ k, k ∉ keys → _array_to_params a !! k = None).
Proof.
  split.
  - intros i k Hk. unfold keys in Hk.
    destruct i as [|[|[|[|[|[|[|i]]]]]]]; simplify_eq/=;
      destruct a as [|v1 [|v2 [|v3 [|v4 [|v5 [|v6 [|v7 a]]]]]]];
      unfold _array_to_params, dict_of; simpl; by simplify_map_eq.
  - intros k Hk. apply not_in_keys in Hk.
    destruct Hk as (? & ? & ? & ? & ? & ? & ?).
    destruct a as [|v1 [|v2 [|v3 [|v4 [|v5 [|v6 [|v7 a]]]]]]];
      unfold _array_to_params, dict_of; simpl; by simplify_map_eq.
Qed.


(** C10. The two conversions are mutually inverse on the seven estimation
    parameters: an array of seven values survives the trip through the
    dictionary, and a dictionary that has the seven keys is recovered on
    those keys from its array. *)
Theorem params_array_roundtrip :
  (∀ a : list V, length a = 7%nat →
     _params_to_array (_array_to_params a) = Ok a) ∧
  (∀ p : gmap string V, (∀ k, k ∈ keys → is_Some (p !! k)) →
     ∃ a, _params_to_array p = Ok a ∧ length a = 7%nat ∧
          ∀ k, k ∈ keys → _array_to_params a !! k = p !! k).
Proof.
  split.
  - intros a Hlen.
    destruct (seven_elements a Hlen) as (g & n & s & al & de & si & se & ->).
    rewrite array_to_params_seven.
    apply params_to_array_Ok; by simplify_map_eq.
  - intros p Hkeys.
    assert (Hk : ∀ k, k ∈ keys → ∃ v, p !! k = Some v).
    { intros k Hin. destruct (Hkeys k Hin) as [v Hv]. eauto. }
    destruct (Hk "g") as [g Hg]; [in_keys|].
    destruct (Hk "n") as [n Hn]; [in_keys|].
    destruct (Hk "s") as [s Hs]; [in_keys|].
    destruct (Hk "alpha") as [al Hal]; [in_keys|].
    destruct (Hk "delta") as [de Hde]; [in_keys|].
    destruct (Hk "sigma") as [si Hsi]; [in_keys|].
    destruct (Hk "sigma_eps") as [se Hse]; [in_keys|].
    exists [g; n; s; al; de; si; se]. split; [|split].
    + by apply params_to_array_Ok.
    + reflexivity.
    + intros k Hin. rewrite array_to_params_seven.
      unfold keys in Hin.
      repeat (apply elem_of_cons in Hin as [->|Hin]; [by simplify_map_eq|]).
      by apply elem_of_nil in Hin.
Qed.
End dict.

(** The round trip on the array [1..7], and on a dictionary that carries an
    eighth key besides the seven. *)
Lemma params_array_roundtrip_witness :
  _params_to_array (_array_to_params [1; 2; 3; 4; 5; 6; 7]%nat)
    = Ok [1; 2; 3; 4; 5; 6; 7]%nat ∧
  ∃ a, _params_to_array
         (dict_of [("A0", 0); ("g", 1); ("n", 2); ("s", 3); ("alpha", 4);
                   ("delta", 5); ("sigma", 6); ("sigma_eps", 7)]%nat) = Ok a ∧
       length a = 7%nat ∧
       ∀ k, k ∈ keys →
         _array_to_params a !! k =
         dict_of [("A0", 0); ("g", 1); ("n", 2); ("s", 3); ("alpha", 4);
                  ("delta", 5); ("sigma", 6); ("sigma_eps", 7)]%nat !! k.
Proof.
  split.
  - apply (proj1 params_array_roundtrip). reflexivity.
  - apply (proj2 params_array_roundtrip).
    intros k Hin. unfold keys in Hin.
    repeat (apply elem_of_cons in Hin as [->|Hin]; [by eexists|]).
    by apply elem_of_nil in Hin.
Defined.
End ConversionFacts.

(** ** The calibration routines *)

Module CalibrationFacts.
Import Conversions Calibration Examples.
Local Open Scope R_scope.

(** *** Running a computation: what a successful run went through *)

Lemma bind_Ok {A B} (c : M A) (k : A → M B) w b w' :
  bind c k w = (Ok b, w') →
  ∃ a w1, c w = (Ok a, w1) ∧ k a w1 = (Ok b, w').
Proof.
  unfold bind. destruct (c w) as [[a|e] w1]; [eauto|discriminate].
Qed.

Lemma lift_Ok {A} (r : result A) w a w' :
  lift r w = (Ok a, w') → r = Ok a ∧ w' = w.
Proof. unfold lift. by intros [= -> ->]. Qed.

Lemma ret_Ok {A} (a : A) w b w' : ret a w = (Ok b, w') → b = a ∧ w' = w.
Proof. unfold ret. by intros [= -> ->]. Qed.

Lemma beta_at_Ok beta i b : beta_at beta i = Ok b → beta !! i = Some b.
Proof. unfold beta_at. destruct (beta !! i); by intros [= ->]. Qed.

(** *** Sums and means *)

Lemma sum_one_minus (x : series) :
  sum (values (one_minus x)) = INR (length x) - sum (values x).
Proof.
  induction x as [|[t v] x IH]; [simpl; lra|].
  change (length ((t, v) :: x)) with (S (length x)). rewrite S_INR.
  change (sum (values (one_minus ((t, v) :: x))))
    with ((1 - v) + sum (values (one_minus x))).
  change (sum (values ((t, v) :: x))) with (v + sum (values x)).
  rewrite IH. lra.
Qed.

Lemma mean_one_minus (x : series) : mean (one_minus x) = fone_minus (mean x).
Proof.
  destruct x as [|p x]; [reflexivity|].
  assert (Hlen : length (one_minus (p :: x)) = length (p :: x))
    by apply length_map.
  assert (Hn : INR (length (p :: x)) ≠ 0) by (apply not_0_INR; simpl; lia).
  pose proof (sum_one_minus (p :: x)) as Hsum.
  change (mean (one_minus (p :: x)))
    with (Num (sum (values (one_minus (p :: x)))
               / INR (length (one_minus (p :: x))))).
  change (mean (p :: x)) with (Num (sum (values (p :: x)) / INR (length (p :: x)))).
  rewrite Hlen, Hsum. cbv [fone_minus]. f_equal. by field.
Qed.

(** *** Least squares *)

Lemma sums_cons (p : R * R) pts :
  Sx (p :: pts) = p.1 + Sx pts ∧ Sy (p :: pts) = p.2 + Sy pts ∧
  Sxx (p :: pts) = p.1 * p.1 + Sxx pts ∧ Sxy (p :: pts) = p.1 * p.2 + Sxy pts ∧
  Syy (p :: pts) = p.2 * p.2 + Syy pts ∧
  INR (length (p :: pts)) = INR (length pts) + 1.
Proof.
  repeat split; try reflexivity.
  change (length (p :: pts)) with (S (length pts)). apply S_INR.
Qed.

(** The sum of squared residuals is a quadratic in the two coefficients. *)
Lemma ssr_quadratic pts b0 b1 :
  ssr pts b0 b1 =
  Syy pts - 2 * b0 * Sy pts - 2 * b1 * Sxy pts
  + INR (length pts) * b0 * b0 + 2 * b0 * b1 * Sx pts + b1 * b1 * Sxx pts.
Proof.
  induction pts as [|p pts IH].
  - cbv [ssr Syy Sy Sxy Sx Sxx sum map fmap list_fmap foldr length INR]. ring.
  - destruct (sums_cons p pts) as (-> & -> & -> & -> & -> & ->).
    change (ssr (p :: pts) b0 b1)
      with ((p.2 - (b0 + b1 * p.1)) * (p.2 - (b0 + b1 * p.1)) + ssr pts b0 b1).
    rewrite IH. ring.
Qed.

Lemma deviations_quadratic pts m :
  deviations pts m = Sxx pts - 2 * m * Sx pts + INR (length pts) * m * m.
Proof.
  induction pts as [|p pts IH].
  - cbv [deviations Sxx Sx sum map fmap list_fmap foldr length INR]. ring.
  - destruct (sums_cons p pts) as (-> & _ & -> & _ & _ & ->).
    change (deviations (p :: pts) m)
      with ((p.1 - m) * (p.1 - m) + deviations pts m).
    rewrite IH. ring.
Qed.

Lemma deviations_nonneg pts m : 0 <= deviations pts m.
Proof.
  induction pts as [|p pts IH]; [cbv [deviations sum map foldr]; simpl; lra|].
  change (deviations (p :: pts) m)
    with ((p.1 - m) * (p.1 - m) + deviations pts m).
  pose proof (Rle_0_sqr (p.1 - m)) as Hsq. unfold Rsqr in Hsq. lra.
Qed.

Lemma determinant_deviations pts :
  pts ≠ [] →
  determinant pts =
  INR (length pts) * deviations pts (Sx pts / INR (length pts)).
Proof.
  intros Hne. rewrite deviations_quadratic. unfold determinant.
  field. apply not_0_INR. destruct pts; [done|simpl; lia].
Qed.

Lemma determinant_nonneg pts : 0 <= determinant pts.
Proof.
  destruct pts as [|p pts].
  - cbv [determinant Sxx Sx sum map fmap list_fmap foldr length INR]. lra.
  - rewrite determinant_deviations by done.
    apply Rmult_le_pos; [apply pos_INR|apply deviations_nonneg].
Qed.

Lemma length_pos_of_determinant pts : determinant pts ≠ 0 → 0 < INR (length pts).
Proof.
  intros Hd. destruct pts as [|p pts].
  - exfalso. apply Hd.
    cbv [determinant Sxx Sx sum map fmap list_fmap foldr length INR]. lra.
  - apply lt_0_INR. simpl; lia.
Qed.

(** The normal equations. *)
Lemma normal_equations pts :
  determinant pts ≠ 0 →
  INR (length pts) * intercept pts + Sx pts * slope pts = Sy pts ∧
  Sx pts * intercept pts + Sxx pts * slope pts = Sxy pts.
Proof.
  intros Hd. pose proof (length_pos_of_determinant pts Hd) as HN.
  unfold intercept, slope. unfold determinant in *.
  split; field; split; lra.
Qed.

(** How far a line is from the fitted one, in squared residuals. *)
Lemma ssr_excess pts c0 c1 :
  determinant pts ≠ 0 →
  let u := c0 - intercept pts in
  let v := c1 - slope pts in
  INR (length pts) * (ssr pts c0 c1 - ssr pts (intercept pts) (slope pts)) =
  (INR (length pts) * u + Sx pts * v) * (INR (length pts) * u + Sx pts * v)
  + determinant pts * (v * v).
Proof.
  intros Hd u v. destruct (normal_equations pts Hd) as [H1 H2].
  rewrite !ssr_quadratic. subst u v. unfold determinant.
  set (N := INR (length pts)) in *. set (b0 := intercept pts) in *.
  set (b1 := slope pts) in *.
  rewrite <- H1, <- H2. ring.
Qed.

(** The solution of the normal equations is the least-squares fit, and the
    only one. *)
Lemma sqr_nonneg (a : R) : 0 <= a * a.
Proof. apply (Rle_0_sqr a). Qed.

Lemma sqr_zero (a : R) : a * a <= 0 → a = 0.
Proof.
  intros H. apply Rsqr_0_uniq. unfold Rsqr.
  pose proof (sqr_nonneg a). lra.
Qed.

Lemma normal_equations_fit pts :
  determinant pts ≠ 0 → is_ols_fit pts (intercept pts) (slope pts).
Proof.
  intros Hd c0 c1.
  pose proof (length_pos_of_determinant pts Hd) as HN.
  pose proof (determinant_nonneg pts) as Hpos.
  pose proof (ssr_excess pts c0 c1 Hd) as He. cbv zeta in He.
  assert (Hex : 0 <= INR (length pts)
               * (ssr pts c0 c1 - ssr pts (intercept pts) (slope pts))).
  { rewrite He. apply Rplus_le_le_0_compat; [apply sqr_nonneg|].
    apply Rmult_le_pos; [assumption|apply sqr_nonneg]. }
  apply Rnot_lt_le. intros Hlt.
  assert (INR (length pts)
          * (ssr pts c0 c1 - ssr pts (intercept pts) (slope pts)) < 0).
  { rewrite <- (Rmult_0_r (INR (length pts))).
    apply Rmult_lt_compat_l; lra. }
  lra.
Qed.

Lemma ols_fit_unique pts c0 c1 :
  determinant pts ≠ 0 → is_ols_fit pts c0 c1 →
  c0 = intercept pts ∧ c1 = slope pts.
Proof.
  intros Hd Hfit.
  pose proof (length_pos_of_determinant pts Hd) as HN.
  pose proof (determinant_nonneg pts) as Hpos.
  pose proof (ssr_excess pts c0 c1 Hd) as He. cbv zeta in He.
  specialize (Hfit (intercept pts) (slope pts)).
  assert (Hdpos : 0 < determinant pts) by lra.
  set (u := c0 - intercept pts) in *. set (v := c1 - slope pts) in *.
  set (N := INR (length pts)) in *.
  set (a := N * u + Sx pts * v) in *.
  assert (Hle : a * a + determinant pts * (v * v) <= 0).
  { rewrite <- He. rewrite <- (Rmult_0_r N).
    apply Rmult_le_compat_l; lra. }
  pose proof (sqr_nonneg a) as Ha. pose proof (sqr_nonneg v) as Hv.
  assert (Hdv : 0 <= determinant pts * (v * v)) by (apply Rmult_le_pos; lra).
  assert (Hv0 : v = 0).
  { apply sqr_zero. apply Rnot_lt_le. intros Hlt.
    assert (0 < determinant pts * (v * v)) by (apply Rmult_lt_0_compat; lra).
    lra. }
  assert (Ha0 : a = 0) by (apply sqr_zero; lra).
  assert (Hu0 : u = 0).
  { subst a. rewrite Hv0 in Ha0. rewrite Rmult_0_r, Rplus_0_r in Ha0.
    apply Rmult_integral in Ha0 as [Ha0|Ha0]; lra. }
  subst u v. split; lra.
Qed.

(** *** The linear time trend *)

Lemma linspace_trend (N : nat) :
  linspace 0 (INR N - 1) N = map INR (seq 0 N).
Proof.
  destruct N as [|[|N]]; [reflexivity|reflexivity|].
  unfold linspace. apply map_ext. intros i.
  replace (INR (S (S N)) - 1 - 0) with (INR (S (S N) - 1)).
  - field. apply not_0_INR. lia.
  - rewrite minus_INR by lia. simpl. lra.
Qed.

(** With at least two observations, paired with the trend [0, 1, 2, ...],
    the normal equations have a unique solution. *)
Lemma determinant_trend (ys : list R) :
  (2 ≤ length ys)%nat →
  determinant (zip (map INR (seq 0 (length ys))) ys) ≠ 0.
Proof.
  intros Hlen.
  destruct ys as [|y0 [|y1 ys]]; [simpl in Hlen; lia|simpl in Hlen; lia|].
  set (pts := zip (map INR (seq 0 (length (y0 :: y1 :: ys)))) (y0 :: y1 :: ys)).
  assert (Hpts : pts = (0, y0) :: (1, y1)
                         :: zip (map INR (seq 2 (length ys))) ys) by reflexivity.
  rewrite determinant_deviations by (rewrite Hpts; done).
  assert (HN : 0 < INR (length pts)).
  { rewrite Hpts. apply lt_0_INR. simpl. lia. }
  set (m := Sx pts / INR (length pts)).
  assert (Hdev : 0 < deviations pts m).
  { rewrite Hpts.
    change (deviations ((0, y0) :: (1, y1)
                          :: zip (map INR (seq 2 (length ys))) ys) m)
      with ((0 - m) * (0 - m) + ((1 - m) * (1 - m)
            + deviations (zip (map INR (seq 2 (length ys))) ys) m)).
    pose proof (deviations_nonneg (zip (map INR (seq 2 (length ys))) ys) m)
      as Hrest.
    pose proof (sqr_nonneg (0 - m)) as Hsq0.
    pose proof (sqr_nonneg (1 - m)) as Hsq1.
    destruct (Req_dec m 0) as [->|Hm].
    - lra.
    - assert (0 < (0 - m) * (0 - m)).
      { destruct (Rle_lt_or_eq_dec _ _ Hsq0) as [?|Heq]; [done|].
        exfalso. apply Hm. assert (0 - m = 0) by (apply sqr_zero; lra). lra. }
      lra. }
  apply Rgt_not_eq. apply Rmult_lt_0_compat; assumption.
Qed.

(** *** The observation window *)

Lemma filter_all {A} (f : A → bool) (l : list A) :
  (∀ a, a ∈ l → f a = true) → List.filter f l = l.
Proof.
  induction l as [|a l IH]; [done|]. intros Hall. simpl.
  rewrite (Hall a) by apply list_elem_of_here.
  f_equal. apply IH. intros b Hb. apply Hall. by apply list_elem_of_further.
Qed.

Lemma elem_of_List_filter {A} (f : A → bool) (l : list A) a :
  a ∈ List.filter f l ↔ a ∈ l ∧ f a = true.
Proof.
  rewrite !list_elem_of_In. apply filter_In.
Qed.

(** The rows that [window] selects lie within the bounds and miss none of
    the required series. *)
Lemma window_rows required_vars data iso3_code bounds start stop tmp_data :
  window required_vars data iso3_code bounds = Ok (start, stop, tmp_data) →
  ∀ o, o ∈ tmp_data →
    in_slice start stop (year o) = true ∧
    ∀ v, v ∈ required_vars → is_nan (value o v) = false.
Proof.
  unfold window, major_xs, rbind. intros H.
  destruct (data !! iso3_code) as [rows|]; [|discriminate].
  remember (dropna required_vars rows) as kept eqn:Hkept.
  destruct kept as [|o0 rest]; [discriminate|]. rewrite Hkept in H.
  assert (∃ a b, Ok (a, b, loc_frame a b (dropna required_vars rows))
                 = Ok (start, stop, tmp_data)) as (a & b & Heq).
  { destruct bounds as [[a b]|]; eauto. }
  injection Heq as -> -> <-.
  intros o Ho. unfold loc_frame in Ho.
  apply elem_of_List_filter in Ho as [Ho Hin]. split; [done|].
  unfold dropna in Ho. apply elem_of_List_filter in Ho as [_ Hall].
  intros v Hv. rewrite forallb_forall in Hall.
  apply list_elem_of_In in Hv. specialize (Hall v Hv).
  by apply negb_true_iff in Hall.
Qed.

(** A column without missing observations has a value for every row. *)
Lemma column_full (v : var) (rows : frame) :
  (∀ o, o ∈ rows → is_nan (value o v) = false) →
  (column v rows).*1 = index rows ∧ length (column v rows) = length rows.
Proof.
  induction rows as [|o rows IH]; [done|]. intros Hall.
  destruct IH as [IH1 IH2].
  { intros o' Ho'. apply Hall. by apply list_elem_of_further. }
  pose proof (Hall o (list_elem_of_here _ _)) as Ho.
  destruct (value o v) as [|r] eqn:Hv; [discriminate|].
  assert (Hcol : column v (o :: rows) = (year o, r) :: column v rows).
  { unfold column. simpl. by rewrite Hv. }
  rewrite Hcol. split.
  - change (((year o, r) :: column v rows).*1)
      with (year o :: (column v rows).*1). by rewrite IH1.
  - simpl. by rewrite IH2.
Qed.

Lemma loc_all (start stop : option Z) (x : series) :
  (∀ t, t ∈ x.*1 → in_slice start stop t = true) → loc start stop x = x.
Proof.
  intros Hall. apply filter_all. intros [t r] Hin. apply Hall.
  apply list_elem_of_fmap. by exists (t, r).
Qed.

(** An observation is complete when none of the required series is
    missing. *)
Lemma complete_spec (required_vars : list var) (o : obs) :
  forallb (λ v, negb (is_nan (value o v))) required_vars = true ↔
  ∀ v, v ∈ required_vars → value o v ≠ NaN.
Proof.
  rewrite forallb_forall. split.
  - intros H v Hv Hnan. apply list_elem_of_In in Hv. specialize (H v Hv).
    rewrite Hnan in H. discriminate.
  - intros H v Hv. apply list_elem_of_In in Hv. specialize (H v Hv).
    destruct (value o v); [congruence|reflexivity].
Qed.

Lemma incomplete_spec (required_vars : list var) (o : obs) :
  forallb (λ v, negb (is_nan (value o v))) required_vars = false →
  ∃ v, v ∈ required_vars ∧ value o v = NaN.
Proof.
  induction required_vars as [|v vs IH]; simpl; [discriminate|].
  destruct (value o v) eqn:Hval; simpl.
  - intros _. exists v. split; [left|exact Hval].
  - intros H. destruct (IH H) as (v' & Hv' & Hnan).
    exists v'. split; [right; exact Hv'|exact Hnan].
Qed.

Lemma dropna_nil (required_vars : list var) (rows : frame) :
  dropna required_vars rows = [] ↔
  ∀ o, o ∈ rows → ∃ v, v ∈ required_vars ∧ value o v = NaN.
Proof.
  unfold dropna. split.
  - intros Hnil o Ho.
    destruct (forallb (λ v, negb (is_nan (value o v))) required_vars) eqn:Hc.
    + assert (Hin : o ∈ List.filter
                (λ o, forallb (λ v, negb (is_nan (value o v))) required_vars)
                rows) by (apply elem_of_List_filter; split; assumption).
      rewrite Hnil in Hin. inversion Hin.
    + destruct (incomplete_spec required_vars o Hc) as (v & Hv & Hnan).
      exists v. split; assumption.
  - intros Hall.
    destruct (List.filter _ rows) as [|o tl] eqn:Hf; [reflexivity|exfalso].
    assert (Hin : o ∈ List.filter
              (λ o, forallb (λ v, negb (is_nan (value o v))) required_vars)
              rows) by (rewrite Hf; left).
    apply elem_of_List_filter in Hin. destruct Hin as [Ho Hc].
    destruct (Hall o Ho) as (v & Hv & Hnan).
    rewrite complete_spec in Hc. exact (Hc v Hv Hnan).
Qed.

Lemma window_unfold required_vars data iso3_code bounds rows :
  data !! iso3_code = Some rows →
  window required_vars data iso3_code bounds =
  match dropna required_vars rows with
  | [] =>
      Raise (AssertionError "Insufficient data to estimate model parameters")
  | tmp_data =>
      let '(start, stop) :=
        match bounds with
        | None => (head (index tmp_data), last (index tmp_data))
        | Some b => (b.1, b.2)
        end in
      Ok (start, stop, loc_frame start stop tmp_data)
  end.
Proof.
  intros H. unfold window, major_xs. rewrite H. reflexivity.
Qed.

(** An ascending list lies between its first and its last element. *)
Lemma sorted_head_last (l : list Z) :
  StronglySorted Z.le l →
  ∀ t, t ∈ l → in_slice (head l) (last l) t = true.
Proof.
  intros Hs t Ht. unfold in_slice.
  apply andb_true_intro. split.
  - destruct l as [|a l]; [inversion Ht|]. simpl.
    apply Z.leb_le. apply StronglySorted_inv in Hs. destruct Hs as [_ Hall].
    apply elem_of_cons in Ht. destruct Ht as [->|Ht]; [lia|].
    rewrite List.Forall_forall in Hall. apply Hall.
    apply list_elem_of_In. exact Ht.
  - induction l as [|a l IH]; [inversion Ht|].
    destruct l as [|b l].
    + apply list_elem_of_singleton in Ht. subst. simpl. apply Z.leb_le. lia.
    + change (last (a :: b :: l)) with (last (b :: l)).
      apply StronglySorted_inv in Hs. destruct Hs as [Hs Hall].
      apply elem_of_cons in Ht. destruct Ht as [->|Ht].
      * assert (Hlast : ∃ c, last (b :: l) = Some c ∧ c ∈ b :: l).
        { clear. revert b. induction l as [|c l IH]; intros b.
          - exists b. split; [reflexivity|left].
          - destruct (IH c) as (d & Hd & Hin). exists d.
            split; [exact Hd|right; exact Hin]. }
        destruct Hlast as (c & Hc & Hin). rewrite Hc. simpl.
        apply Z.leb_le. rewrite List.Forall_forall in Hall. apply Hall.
        apply list_elem_of_In. exact Hin.
      * apply IH; assumption.
Qed.

Lemma sorted_filter {A} (f : A → Z) (g : A → bool) (l : list A) :
  StronglySorted Z.le (map f l) → StronglySorted Z.le (map f (List.filter g l)).
Proof.
  induction l as [|a l IH]; simpl; intros Hs; [constructor|].
  apply StronglySorted_inv in Hs. destruct Hs as [Hs Hall].
  destruct (g a); simpl; [|apply IH; exact Hs].
  constructor; [apply IH; exact Hs|].
  rewrite List.Forall_forall in Hall |- *. intros t Ht. apply Hall.
  apply in_map_iff in Ht. destruct Ht as (x & <- & Hx).
  apply in_map_iff. exists x. split; [reflexivity|].
  apply filter_In in Hx. tauto.
Qed.

Lemma filter_filter {A} (f g : A → bool) (l : list A) :
  List.filter f (List.filter g l) = List.filter (λ a, g a && f a) l.
Proof.
  induction l as [|a l IH]; [reflexivity|]. simpl.
  destruct (g a); simpl; [|exact IH].
  destruct (f a); [f_equal|]; exact IH.
Qed.

(** The window, written out: on years in ascending order the selection
    keeps the observations that miss none of the required series and,
    with bounds, lie between them (both ends included, an end that is
    [None] left open); without bounds it keeps every such observation. *)
Lemma window_selection required_vars data iso3_code bounds rows :
  data !! iso3_code = Some rows →
  StronglySorted Z.le (index rows) →
  let selected :=
    List.filter
      (λ o, forallb (λ v, negb (is_nan (value o v))) required_vars
            && match bounds with
               | None => true
               | Some (lo, hi) =>
                   from_option (λ a, (a <=? year o)%Z) true lo
                   && from_option (λ b, (year o <=? b)%Z) true hi
               end) rows in
  (∀ start stop tmp_data,
     window required_vars data iso3_code bounds = Ok (start, stop, tmp_data) →
     tmp_data = selected) ∧
  (selected ≠ [] →
   ∃ start stop,
     window required_vars data iso3_code bounds = Ok (start, stop, selected)).
Proof.
  intros Hdata Hsorted selected.
  assert (Hsel : ∃ start stop,
            selected = loc_frame start stop (dropna required_vars rows) ∧
            (dropna required_vars rows ≠ [] →
             window required_vars data iso3_code bounds
             = Ok (start, stop,
                   loc_frame start stop (dropna required_vars rows)))).
  { rewrite (window_unfold _ _ _ _ _ Hdata).
    destruct bounds as [[lo hi]|].
    - exists lo, hi. split.
      + unfold selected, loc_frame, dropna. rewrite filter_filter.
        reflexivity.
      + intros Hne. destruct (dropna required_vars rows); [congruence|].
        reflexivity.
    - exists (head (index (dropna required_vars rows))),
        (last (index (dropna required_vars rows))). split.
      + unfold loc_frame. rewrite filter_all.
        * unfold selected, dropna. apply filter_ext. intros o.
          rewrite andb_true_r. reflexivity.
        * intros o Ho. apply sorted_head_last.
          -- unfold index, dropna. apply sorted_filter. exact Hsorted.
          -- unfold index. apply list_elem_of_fmap. exists o.
             split; [reflexivity|exact Ho].
      + intros Hne. destruct (dropna required_vars rows); [congruence|].
        reflexivity. }
  destruct Hsel as (start0 & stop0 & Hsel & Hwin). split.
  - intros start stop tmp_data H.
    destruct (dropna required_vars rows) as [|o tl] eqn:Hdrop.
    { rewrite (window_unfold _ _ _ _ _ Hdata), Hdrop in H. discriminate. }
    rewrite Hwin in H by discriminate. injection H as _ _ <-.
    symmetry. exact Hsel.
  - intros Hne.
    assert (Hdrop : dropna required_vars rows ≠ []).
    { intros Hnil. apply Hne. rewrite Hsel, Hnil. reflexivity. }
    exists start0, stop0. rewrite Hsel. apply Hwin. exact Hdrop.
Qed.

Section moments.
Variable solow_residual : dict → R → R → R → R.
Variable ols_singular : list (R * R) → result (list R).

Local Abbreviation ols := (Calibration.ols ols_singular).
Local Abbreviation evaluate_solow_residual :=
  (Calibration.evaluate_solow_residual solow_residual).
Local Abbreviation match_moments :=
  (Calibration.match_moments solow_residual ols_singular).
Local Abbreviation _cobb_douglas_initial_guess :=
  (Calibration._cobb_douglas_initial_guess solow_residual ols_singular).
Local Abbreviation technology := (Calibration.technology solow_residual).
Local Abbreviation estimates := (Calibration.estimates solow_residual).
Local Abbreviation initial_technology :=
  (Calibration.initial_technology solow_residual).

(** A successful run of [match_moments]: the window it selected, the two
    regressions it ran, the dictionary it built; the store is untouched. *)
Lemma match_moments_Ok data iso3_code bounds w p w' :
  match_moments data iso3_code bounds w = (Ok p, w') →
  ∃ start stop tmp_data beta_n beta_g n b0 g c0,
    window six data iso3_code bounds = Ok (start, stop, tmp_data) ∧
    ols (log (column emp tmp_data)) (time_trend start stop tmp_data)
      = Ok beta_n ∧
    beta_n !! 0%nat = Some n ∧ beta_n !! 1%nat = Some b0 ∧
    ols (log (technology (deref w (model_params w)) start stop tmp_data))
        (time_trend start stop tmp_data) = Ok beta_g ∧
    beta_g !! 0%nat = Some g ∧ beta_g !! 1%nat = Some c0 ∧
    p = dict_of [("s", mean (column csh_i tmp_data));
                 ("alpha", mean (one_minus (column labsh tmp_data)));
                 ("delta", mean (column delta_k tmp_data));
                 ("n", Num n); ("L0", Num (exp b0));
                 ("g", Num g); ("A0", Num (exp c0))] ∧
    w' = w.
Proof.
  unfold Calibration.match_moments. intros H.
  apply bind_Ok in H as ([[start stop] tmp_data] & w1 & Hwin & H).
  apply lift_Ok in Hwin as [Hwin ->].
  apply bind_Ok in H as (res & w1 & Hres & H).
  unfold Calibration.evaluate_solow_residual, get_params in Hres.
  apply bind_Ok in Hres as (params & w2 & [= <- <-] & Hres).
  apply ret_Ok in Hres as [-> ->].
  apply bind_Ok in H as (beta_n & w1 & Hn & H). apply lift_Ok in Hn as [Hn ->].
  apply bind_Ok in H as (n & w1 & Hn0 & H). apply lift_Ok in Hn0 as [Hn0 ->].
  apply bind_Ok in H as (b0 & w1 & Hn1 & H). apply lift_Ok in Hn1 as [Hn1 ->].
  apply bind_Ok in H as (beta_g & w1 & Hg & H). apply lift_Ok in Hg as [Hg ->].
  apply bind_Ok in H as (g & w1 & Hg0 & H). apply lift_Ok in Hg0 as [Hg0 ->].
  apply bind_Ok in H as (c0 & w1 & Hg1 & H). apply lift_Ok in Hg1 as [Hg1 ->].
  apply ret_Ok in H as [-> ->].
  apply beta_at_Ok in Hn0, Hn1, Hg0, Hg1.
  exists start, stop, tmp_data, beta_n, beta_g, n, b0, g, c0.
  repeat split; assumption || reflexivity.
Qed.

Section window.
Variables (data : panel) (iso3_code : string).
Variable bounds : option (option Z * option Z).
Variables (start stop : option Z) (tmp_data : frame).
(** Both routines require at least these four series. *)
Variable required_vars : list var.
Hypothesis Hfour : ∀ v, v ∈ four → v ∈ required_vars.
Hypothesis Hwin :
  window required_vars data iso3_code bounds = Ok (start, stop, tmp_data).

Lemma window_index_in_slice t :
  t ∈ index tmp_data → in_slice start stop t = true.
Proof.
  unfold index. intros (o & -> & Ho)%list_elem_of_fmap.
  by apply (window_rows _ _ _ _ _ _ _ Hwin o Ho).
Qed.

Lemma window_column (v : var) :
  v ∈ four →
  (column v tmp_data).*1 = index tmp_data ∧
  length (column v tmp_data) = length tmp_data.
Proof.
  intros Hv%Hfour. apply column_full. intros o Ho.
  by apply (window_rows _ _ _ _ _ _ _ Hwin o Ho).
Qed.


Lemma time_trend_window :
  time_trend start stop tmp_data =
  zip (index tmp_data) (map INR (seq 0 (length tmp_data))).
Proof.
  unfold time_trend, Series. rewrite linspace_trend.
  unfold index at 1 2. rewrite length_map.
  apply loc_all. intros t Ht. apply window_index_in_slice.
  rewrite fst_zip in Ht; [done|].
  rewrite !length_map, length_seq. unfold index. rewrite length_map. lia.
Qed.

Lemma values_time_trend :
  values (time_trend start stop tmp_data)
  = map INR (seq 0 (length tmp_data)).
Proof.
  rewrite time_trend_window. unfold values. apply snd_zip.
  unfold index. rewrite !length_map, length_seq. lia.
Qed.

Lemma values_log (x : series) : values (log x) = map ln (values x).
Proof.
  unfold values, log. induction x as [|p x IH]; [done|].
  simpl. f_equal. apply IH.
Qed.

Lemma length_values (x : series) : length (values x) = length x.
Proof. unfold values. apply length_map. Qed.

(** The regression for [n] and [L0] runs on log employment against the
    trend. *)
Lemma observations_labor :
  observations (log (column emp tmp_data)) (time_trend start stop tmp_data)
  = trend_points (map ln (values (column emp tmp_data))).
Proof.
  unfold observations, trend_points.
  rewrite values_time_trend, values_log, length_map, length_values.
  destruct (window_column emp) as [_ ->]; [|done].
  unfold four. rewrite !elem_of_cons. tauto.
Qed.

Lemma technology_window params :
  technology params start stop tmp_data =
  zip_with (λ yk l, (l.1, solow_residual params yk.1.2 yk.2.2 l.2))
    (zip (column rgdpna tmp_data) (column rkna tmp_data))
    (column emp tmp_data) ∧
  length (technology params start stop tmp_data) = length tmp_data.
Proof.
  destruct (window_column rgdpna) as [_ HY];
    [unfold four; rewrite !elem_of_cons; tauto|].
  destruct (window_column rkna) as [_ HK];
    [unfold four; rewrite !elem_of_cons; tauto|].
  destruct (window_column emp) as [HLi HL];
    [unfold four; rewrite !elem_of_cons; tauto|].
  assert (Hlen : length
    (zip_with (λ yk l, (l.1, solow_residual params yk.1.2 yk.2.2 l.2))
       (zip (column rgdpna tmp_data) (column rkna tmp_data))
       (column emp tmp_data)) = length tmp_data).
  { rewrite length_zip_with, length_zip. lia. }
  unfold Calibration.technology. rewrite loc_all; [done|].
  intros t Ht. apply window_index_in_slice. rewrite <- HLi.
  apply list_elem_of_fmap in Ht as ([t' r] & -> & Hin).
  apply list_elem_of_lookup in Hin as [i Hi].
  apply lookup_zip_with_Some in Hi as (yk & l & Heq & _ & Hl).
  injection Heq as -> _.
  apply list_elem_of_fmap. exists l. split; [done|].
  apply list_elem_of_lookup. eauto.
Qed.

Lemma observations_technology params :
  observations (log (technology params start stop tmp_data))
    (time_trend start stop tmp_data)
  = trend_points (map ln (values (technology params start stop tmp_data))).
Proof.
  unfold observations, trend_points.
  rewrite values_time_trend, values_log, length_map, length_values.
  by destruct (technology_window params) as [_ ->].
Qed.

Lemma ols_trend (y : series) :
  (2 ≤ length tmp_data)%nat → length y = length tmp_data →
  observations (log y) (time_trend start stop tmp_data)
    = trend_points (map ln (values y)) →
  ols (log y) (time_trend start stop tmp_data)
  = Ok [slope (trend_points (map ln (values y)));
        intercept (trend_points (map ln (values y)))].
Proof.
  intros HN Hlen Hobs. unfold Calibration.ols. rewrite Hobs.
  destruct (Req_dec_T _ 0) as [Hz|_]; [|done].
  exfalso. revert Hz. apply determinant_trend.
  rewrite length_map, length_values. lia.
Qed.
End window.

Lemma four_six v : v ∈ four → v ∈ six.
Proof. unfold four, six. rewrite !elem_of_cons. tauto. Qed.

(** With two observations or more in the window, [match_moments] returns,
    and returns these estimates. *)
Lemma match_moments_run data iso3_code bounds start stop tmp_data w :
  window six data iso3_code bounds = Ok (start, stop, tmp_data) →
  (2 ≤ length tmp_data)%nat →
  match_moments data iso3_code bounds w
  = (Ok (estimates (deref w (model_params w)) start stop tmp_data), w).
Proof.
  intros Hwin HN.
  destruct (window_column _ _ _ _ _ _ _ four_six Hwin emp) as [_ Hlen];
    [unfold four; rewrite !elem_of_cons; tauto|].
  destruct (technology_window _ _ _ _ _ _ _ four_six Hwin
              (deref w (model_params w))) as [_ Hlen'].
  pose proof (ols_trend start stop tmp_data (column emp tmp_data) HN Hlen
                (observations_labor _ _ _ _ _ _ _ four_six Hwin)) as Hn.
  pose proof (ols_trend start stop tmp_data _ HN Hlen'
                (observations_technology _ _ _ _ _ _ _ four_six Hwin _))
    as Hg.
  unfold Calibration.technology, time_trend in Hn, Hg.
  unfold Calibration.match_moments. unfold six in Hwin. rewrite Hwin.
  cbv [bind lift ret Calibration.evaluate_solow_residual get_params].
  rewrite Hn. cbv [beta_at lookup list_lookup].
  rewrite Hg. reflexivity.
Qed.

Lemma estimates_lookup params start stop tmp_data :
  let p := estimates params start stop tmp_data in
  let labor := trend_points (map ln (values (column emp tmp_data))) in
  let tfp := trend_points
               (map ln (values (technology params start stop tmp_data))) in
  p !! "s" = Some (mean (column csh_i tmp_data)) ∧
  p !! "alpha" = Some (mean (one_minus (column labsh tmp_data))) ∧
  p !! "delta" = Some (mean (column delta_k tmp_data)) ∧
  p !! "n" = Some (Num (slope labor)) ∧
  p !! "L0" = Some (Num (exp (intercept labor))) ∧
  p !! "g" = Some (Num (slope tfp)) ∧
  p !! "A0" = Some (Num (exp (intercept tfp))).
Proof. repeat split; reflexivity. Qed.

(** C1, as the code has it.  On years in ascending order [match_moments]
    takes the labor shares of the observations that miss none of the six
    series and lie within the bounds, and every run that returns has
    [alpha] equal to the mean of one minus these shares.  As real numbers
    this is one minus their mean, and with two such observations or more
    the run does return.  In binary64, the arithmetic of the code, the two
    agree up to rounding only: for the series [0.6, 0.6, 0.6] the mean of
    the complements is [0.4000000000000001], the double next above
    [0.4]. *)
Theorem match_moments_alpha data iso3_code bounds rows w :
  data !! iso3_code = Some rows →
  StronglySorted Z.le (index rows) →
  let labor_share :=
    column labsh
      (List.filter
         (λ o, forallb (λ v, negb (is_nan (value o v)))
                 [rgdpna; rkna; emp; labsh; csh_i; delta_k]
               && match bounds with
                  | None => true
                  | Some (lo, hi) =>
                      from_option (λ a, (a <=? year o)%Z) true lo
                      && from_option (λ b, (year o <=? b)%Z) true hi
                  end) rows) in
  (∀ p w', match_moments data iso3_code bounds w = (Ok p, w') →
     p !! "alpha" = Some (mean (one_minus labor_share))) ∧
  mean (one_minus labor_share) = fone_minus (mean labor_share) ∧
  ((2 ≤ length labor_share)%nat →
     ∃ p, match_moments data iso3_code bounds w = (Ok p, w) ∧
          p !! "alpha" = Some (fone_minus (mean labor_share))) ∧
  (Binary64.alpha Binary64.labsh_literal = Binary64.above_point_four ∧
   PrimFloat.next_up Binary64.point_four = Binary64.above_point_four).
Proof.
  intros Hdata Hsorted labor_share.
  pose proof (window_selection six data iso3_code bounds rows Hdata Hsorted)
    as Hsel.
  cbv zeta in Hsel. unfold six in Hsel.
  destruct Hsel as [Hsel Hok].
  split; [|split; [|split]].
  - intros p w' Hrun.
    apply match_moments_Ok in Hrun
      as (a & b & tmp & bn & bg & n & b0 & g & c0 & Hwin' & _ & _ & _ & _
          & _ & _ & -> & _).
    rewrite (Hsel _ _ _ Hwin'). reflexivity.
  - apply mean_one_minus.
  - intros HN.
    destruct Hok as (start & stop & Hwin).
    { intros Hnil. unfold labor_share in HN. rewrite Hnil in HN.
      simpl in HN. lia. }
    destruct (window_column _ _ _ _ _ _ _ four_six Hwin labsh) as [_ Hlen];
      [unfold four; rewrite !elem_of_cons; tauto|].
    fold labor_share in Hlen.
    eexists. split; [apply (match_moments_run _ _ _ _ _ _ _ Hwin); lia|].
    destruct (estimates_lookup (deref w (model_params w)) start stop
                (List.filter
                   (λ o, forallb (λ v, negb (is_nan (value o v)))
                           [rgdpna; rkna; emp; labsh; csh_i; delta_k]
                         && match bounds with
                            | None => true
                            | Some (lo, hi) =>
                                from_option (λ a, (a <=? year o)%Z) true lo
                                && from_option (λ b, (year o <=? b)%Z) true hi
                            end) rows))
      as (_ & -> & _).
    fold labor_share. rewrite mean_one_minus. reflexivity.
  - split; vm_compute; reflexivity.
Qed.

(** C7. [n] is the slope of the ordinary-least-squares regression of log
    employment on a constant and the linear trend [0, 1, 2, ...], and [L0]
    is the exponential of that regression's intercept; [g] and [A0] are the
    slope and the exponentiated intercept of the same regression for the
    log of the technology series (the Solow residual).  The regression
    needs two observations to have a unique solution. *)
Theorem match_moments_regressions data iso3_code bounds start stop tmp_data w :
  window six data iso3_code bounds = Ok (start, stop, tmp_data) →
  (2 ≤ length tmp_data)%nat →
  let labor := trend_points (map ln (values (column emp tmp_data))) in
  let tfp :=
    trend_points
      (map ln (values (technology (deref w (model_params w))
                         start stop tmp_data))) in
  ∃ p n b0 g c0,
    match_moments data iso3_code bounds w = (Ok p, w) ∧
    p !! "n" = Some (Num n) ∧ p !! "L0" = Some (Num (exp b0)) ∧
    is_ols_fit labor b0 n ∧
    (∀ b0' n', is_ols_fit labor b0' n' → b0' = b0 ∧ n' = n) ∧
    p !! "g" = Some (Num g) ∧ p !! "A0" = Some (Num (exp c0)) ∧
    is_ols_fit tfp c0 g ∧
    (∀ c0' g', is_ols_fit tfp c0' g' → c0' = c0 ∧ g' = g).
Proof.
  intros Hwin HN labor tfp.
  destruct (window_column _ _ _ _ _ _ _ four_six Hwin emp) as [_ Hlen];
    [unfold four; rewrite !elem_of_cons; tauto|].
  destruct (technology_window _ _ _ _ _ _ _ four_six Hwin
              (deref w (model_params w))) as [_ Hlen'].
  assert (Hdl : determinant labor ≠ 0).
  { apply determinant_trend. rewrite length_map, length_values. lia. }
  assert (Hdt : determinant tfp ≠ 0).
  { apply determinant_trend. rewrite length_map, length_values. lia. }
  exists (estimates (deref w (model_params w)) start stop tmp_data),
    (slope labor), (intercept labor), (slope tfp), (intercept tfp).
  destruct (estimates_lookup (deref w (model_params w)) start stop tmp_data)
    as (_ & _ & _ & Hn & HL0 & Hg & HA0).
  split; [by apply match_moments_run|].
  split; [exact Hn|]. split; [exact HL0|].
  split; [by apply normal_equations_fit|].
  split; [intros b0' n'; by apply ols_fit_unique|].
  split; [exact Hg|]. split; [exact HA0|].
  split; [by apply normal_equations_fit|].
  intros c0' g'; by apply ols_fit_unique.
Qed.

(** *** Computations that leave the store alone *)

Lemma preserves_lift {A} (r : result A) : preserves (lift r).
Proof. by intros w. Qed.

Lemma preserves_ret {A} (a : A) : preserves (ret a).
Proof. by intros w. Qed.

Lemma preserves_get_params : preserves get_params.
Proof. by intros w. Qed.

Lemma preserves_bind {A B} (c : M A) (k : A → M B) :
  preserves c → (∀ a, preserves (k a)) → preserves (bind c k).
Proof.
  intros Hc Hk w. unfold bind. specialize (Hc w).
  destruct (c w) as [[a|e] w1]; simpl in Hc; subst w1; [apply Hk|done].
Qed.

Lemma preserves_evaluate_solow_residual output capital labor :
  preserves (evaluate_solow_residual output capital labor).
Proof.
  apply preserves_bind; [apply preserves_get_params|].
  intros params. apply preserves_ret.
Qed.

Lemma preserves_match_moments data iso3_code bounds :
  preserves (match_moments data iso3_code bounds).
Proof.
  unfold Calibration.match_moments.
  apply preserves_bind; [apply preserves_lift|]. intros [[start stop] tmp_data].
  apply preserves_bind; [apply preserves_evaluate_solow_residual|]. intros res.
  do 6 (apply preserves_bind; [apply preserves_lift|]; intros ?).
  apply preserves_ret.
Qed.

Lemma preserves_initial_guess data iso3_code bounds sigma0 sigma_eps0 :
  preserves (_cobb_douglas_initial_guess data iso3_code bounds sigma0 sigma_eps0).
Proof.
  apply preserves_bind; [apply preserves_match_moments|]. intros p.
  apply preserves_lift.
Qed.

(** The seed that [_cobb_douglas_initial_guess] builds from the estimates. *)
Lemma initial_guess_run data iso3_code bounds sigma0 sigma_eps0
    start stop tmp_data w :
  window six data iso3_code bounds = Ok (start, stop, tmp_data) →
  (2 ≤ length tmp_data)%nat →
  let p := estimates (deref w (model_params w)) start stop tmp_data in
  ∃ g n s alpha delta,
    p !! "g" = Some g ∧ p !! "n" = Some n ∧ p !! "s" = Some s ∧
    p !! "alpha" = Some alpha ∧ p !! "delta" = Some delta ∧
    _cobb_douglas_initial_guess data iso3_code bounds sigma0 sigma_eps0 w
    = (Ok [g; n; s; alpha; delta; sigma0; sigma_eps0], w).
Proof.
  intros Hwin HN p.
  destruct (estimates_lookup (deref w (model_params w)) start stop tmp_data)
    as (Hs & Ha & Hd & Hn & _ & Hg & _).
  do 5 eexists. do 5 (split; [eassumption|]).
  unfold Calibration._cobb_douglas_initial_guess.
  unfold bind. rewrite (match_moments_run _ _ _ _ _ _ _ Hwin HN).
  reflexivity.
Qed.

Lemma ols_empty (x : series) : ols [] x = ols_singular [].
Proof.
  unfold Calibration.ols.
  assert (Hobs : observations [] x = []).
  { unfold observations. by destruct (values x). }
  rewrite Hobs. destruct (Req_dec_T _ 0) as [_|Hne]; [done|].
  exfalso. apply Hne.
  cbv [determinant Sxx Sx sum map fmap list_fmap foldr length INR]. lra.
Qed.

(** A window without observations: the means are [nan], the rest is
    whatever pandas makes of a regression without observations. *)
Lemma match_moments_empty_window w :
  match_moments data_1950 "ZZZ" bounds_1960s w
    = (rbind (ols_singular []) (λ res,
       rbind (beta_at res 0) (λ b1,
       rbind (beta_at res 1) (λ b0,
       Ok (dict_of [("s", NaN); ("alpha", NaN); ("delta", NaN);
                    ("n", Num b1); ("L0", Num (exp b0));
                    ("g", Num b1); ("A0", Num (exp b0))])))), w).
Proof.
  assert (Hwin6 : window six data_1950 "ZZZ" bounds_1960s
                  = Ok (Some 1960%Z, Some 1970%Z, [])) by reflexivity.
  unfold Calibration.match_moments. unfold six in Hwin6. rewrite Hwin6.
  cbv [bind lift ret Calibration.evaluate_solow_residual get_params].
  change (column emp []) with (@nil (Z * R)).
  change (log []) with (@nil (Z * R)).
  rewrite ols_empty.
  change (loc (Some 1960%Z) (Some 1970%Z) _) with (@nil (Z * R)) at 1.
  change (log []) with (@nil (Z * R)).
  rewrite ols_empty.
  destruct (ols_singular []) as [res|e]; [|reflexivity].
  cbv [rbind]. destruct (beta_at res 0) as [b1|e]; [|reflexivity].
  destruct (beta_at res 1) as [b0|e]; reflexivity.
Qed.

(** C2, on a country with a single complete observation, for 1950, and
    bounds that select 1960 to 1970.  For both routines the assertion has
    passed and the window is empty.  [match_moments] then takes [s],
    [alpha] and [delta] to be the means of empty series ([nan]) and the
    other estimates from whatever pandas makes of a regression without
    observations: it fails only if that regression fails. *)
Theorem empty_window_not_signalled w :
  window six data_1950 "ZZZ" bounds_1960s
    = Ok (Some 1960%Z, Some 1970%Z, []) ∧
  window four data_1950 "ZZZ" bounds_1960s
    = Ok (Some 1960%Z, Some 1970%Z, []) ∧
  match_moments data_1950 "ZZZ" bounds_1960s w
    = (rbind (ols_singular []) (λ res,
       rbind (beta_at res 0) (λ b1,
       rbind (beta_at res 1) (λ b0,
       Ok (dict_of [("s", NaN); ("alpha", NaN); ("delta", NaN);
                    ("n", Num b1); ("L0", Num (exp b0));
                    ("g", Num b1); ("A0", Num (exp b0))])))), w).
Proof.
  split; [reflexivity|]. split; [reflexivity|].
  apply match_moments_empty_window.
Qed.

(** *** The likelihood objective and the store *)

Section likelihood.
Variable output_elasticity : dict → R → R.
Variable validate_params : dict → bool.

Local Abbreviation _likelihood_function :=
  (Calibration._likelihood_function solow_residual output_elasticity
     validate_params).



End likelihood.

(** *** Maximum likelihood *)

Section estimation.
Variable output_elasticity : dict → R → R.
Variable validate_params : dict → bool.
Variable minimize :
  (list fval → M fval) → list fval → string → list (option R * option R) →
  M OptimizeResult.

Local Abbreviation _likelihood_function :=
  (Calibration._likelihood_function solow_residual output_elasticity
     validate_params).
Local Abbreviation maximize_likelihood :=
  (Calibration.maximize_likelihood solow_residual output_elasticity
     validate_params ols_singular minimize).
Local Abbreviation objective :=
  (Calibration.objective solow_residual output_elasticity validate_params).

(** [maximize_likelihood], once its data and its seed are there: one call
    of the optimizer, then [finish]. *)
Lemma maximize_likelihood_run data iso3_code bounds method sigma0
    sigma_eps0 w start stop tmp_data initial_guess :
  window four data iso3_code bounds = Ok (start, stop, tmp_data) →
  _cobb_douglas_initial_guess data iso3_code bounds sigma0 sigma_eps0 w
    = (Ok initial_guess, w) →
  maximize_likelihood data iso3_code bounds method sigma0 sigma_eps0 w
  = bind (minimize (objective start stop tmp_data) initial_guess method bnds)
      (finish (initial_technology (deref w (model_params w))
                 start stop tmp_data)
              (loc start stop (column emp tmp_data))
              (loc start stop (column rkna tmp_data))) w.
Proof.
  intros Hwin Hguess. unfold Calibration.maximize_likelihood.
  unfold four in Hwin. rewrite Hwin.
  cbv [bind lift ret Calibration.evaluate_solow_residual get_params].
  rewrite Hguess. reflexivity.
Qed.

(** C8. The optimizer is seeded with the moment-matching estimates of
    [g], [n], [s], [alpha] and [delta], in this order, followed by the
    two supplied guesses [sigma0] and [sigma_eps0]: this is the vector
    that [_cobb_douglas_initial_guess] returns whenever [match_moments]
    returns, and the [x0] of the one call of the optimizer. *)
Theorem maximum_likelihood_seed data iso3_code bounds method sigma0
    sigma_eps0 w start stop tmp_data p w' :
  window four data iso3_code bounds = Ok (start, stop, tmp_data) →
  match_moments data iso3_code bounds w = (Ok p, w') →
  ∃ g n s alpha delta,
    p !! "g" = Some g ∧ p !! "n" = Some n ∧ p !! "s" = Some s ∧
    p !! "alpha" = Some alpha ∧ p !! "delta" = Some delta ∧
    _cobb_douglas_initial_guess data iso3_code bounds sigma0 sigma_eps0 w
      = (Ok [g; n; s; alpha; delta; sigma0; sigma_eps0], w) ∧
    maximize_likelihood data iso3_code bounds method sigma0 sigma_eps0 w
    = bind (minimize (objective start stop tmp_data)
              [g; n; s; alpha; delta; sigma0; sigma_eps0] method bnds)
        (finish (initial_technology (deref w (model_params w))
                   start stop tmp_data)
                (loc start stop (column emp tmp_data))
                (loc start stop (column rkna tmp_data))) w.
Proof.
  intros Hwin Hrun.
  destruct (match_moments_Ok _ _ _ _ _ _ Hrun)
    as (a & b & tmp & bn & bg & n & b0 & g & c0 & _ & _ & _ & _ & _ & _
        & _ & Hp & ->).
  assert (Hguess :
    _cobb_douglas_initial_guess data iso3_code bounds sigma0 sigma_eps0 w
    = (Ok [Num g; Num n; mean (column csh_i tmp);
           mean (one_minus (column labsh tmp));
           mean (column delta_k tmp); sigma0; sigma_eps0], w)).
  { unfold Calibration._cobb_douglas_initial_guess, bind.
    rewrite Hrun, Hp. reflexivity. }
  exists (Num g), (Num n), (mean (column csh_i tmp)),
    (mean (one_minus (column labsh tmp))), (mean (column delta_k tmp)).
  rewrite Hp. do 5 (split; [reflexivity|]).
  split; [exact Hguess|]. by apply maximize_likelihood_run.
Qed.

Lemma first_column v o rest (start stop : option Z) r :
  loc start stop (column v (o :: rest)) = column v (o :: rest) →
  value o v = Num r →
  first (loc start stop (column v (o :: rest))) = Ok r.
Proof.
  intros -> Hv. unfold column. simpl. by rewrite Hv.
Qed.


End estimation.
End moments.

(** *** The routines on concrete data *)

Lemma window_abc :
  window six data_abc "ABC" None = Ok (Some 2000%Z, Some 2002%Z, rows_abc).
Proof. reflexivity. Qed.

Lemma window_four_abc :
  window four data_abc "ABC" None = Ok (Some 2000%Z, Some 2002%Z, rows_abc).
Proof. reflexivity. Qed.

Lemma initial_guess_abc :
  Calibration._cobb_douglas_initial_guess residual_one ols_raises data_abc
    "ABC" None (Num 1.01) (Num 0.01) w0 = (Ok seed_abc, w0).
Proof.
  unfold Calibration._cobb_douglas_initial_guess, bind.
  rewrite (match_moments_run residual_one ols_raises data_abc "ABC" None
             (Some 2000%Z) (Some 2002%Z) rows_abc w0 window_abc)
    by (simpl; lia).
  reflexivity.
Qed.

(** Three observations with a labor share of [0.6]. *)
Lemma match_moments_alpha_witness :
  data_abc !! "ABC" = Some rows_abc ∧
  StronglySorted Z.le (index rows_abc) ∧
  (∃ p, Calibration.match_moments residual_one ols_raises data_abc "ABC" None
          w0 = (Ok p, w0) ∧
        p !! "alpha" = Some (fone_minus (mean (column labsh rows_abc)))) ∧
  Binary64.alpha Binary64.labsh_literal = Binary64.above_point_four.
Proof.
  assert (Hsorted : StronglySorted Z.le (index rows_abc)).
  { simpl. repeat constructor; lia. }
  split; [reflexivity|]. split; [exact Hsorted|].
  destruct (match_moments_alpha residual_one ols_raises data_abc "ABC" None
              rows_abc w0 eq_refl Hsorted) as (_ & _ & Hrun & Hfloat & _).
  split; [|exact Hfloat].
  apply Hrun. simpl. lia.
Defined.

(** C1 as stated fails in the arithmetic of the code: for the series
    [0.6, 0.6, 0.6] the mean of the complements is
    [0.4000000000000001], which is neither [0.4] nor one minus the mean of
    the series. *)
Lemma alpha_not_exact_in_binary64 :
  Binary64.alpha Binary64.labsh_literal = Binary64.above_point_four ∧
  PrimFloat.eqb (Binary64.alpha Binary64.labsh_literal) Binary64.point_four
  = false ∧
  Binary64.one_minus_mean Binary64.labsh_literal = Binary64.point_four ∧
  PrimFloat.eqb (Binary64.alpha Binary64.labsh_literal)
    (Binary64.one_minus_mean Binary64.labsh_literal) = false.
Proof. repeat split; vm_compute; reflexivity. Qed.

Lemma match_moments_regressions_witness :
  window six data_abc "ABC" None = Ok (Some 2000%Z, Some 2002%Z, rows_abc) ∧
  (2 ≤ length rows_abc)%nat ∧
  ∃ p n b0 g c0,
    Calibration.match_moments residual_one ols_raises data_abc "ABC" None w0
      = (Ok p, w0) ∧
    p !! "n" = Some (Num n) ∧ p !! "L0" = Some (Num (exp b0)) ∧
    is_ols_fit (trend_points (map ln (values (column emp rows_abc)))) b0 n ∧
    p !! "g" = Some (Num g) ∧ p !! "A0" = Some (Num (exp c0)).
Proof.
  split; [reflexivity|]. split; [simpl; lia|].
  destruct (match_moments_regressions residual_one ols_raises data_abc "ABC"
              None (Some 2000%Z) (Some 2002%Z) rows_abc w0 eq_refl)
    as (p & n & b0 & g & c0 & Hrun & Hn & HL0 & Hfit & _ & Hg & HA0 & _).
  { simpl; lia. }
  exists p, n, b0, g, c0. repeat split; assumption.
Defined.

Lemma match_moments_abc :
  Calibration.match_moments residual_one ols_raises data_abc "ABC" None w0
  = (Ok (estimates residual_one (deref w0 (model_params w0)) (Some 2000%Z)
           (Some 2002%Z) rows_abc), w0).
Proof. apply match_moments_run; [exact window_abc|simpl; lia]. Qed.

Lemma maximum_likelihood_seed_witness :
  window four data_abc "ABC" None = Ok (Some 2000%Z, Some 2002%Z, rows_abc) ∧
  ∃ g n s alpha delta,
    Calibration._cobb_douglas_initial_guess residual_one ols_raises data_abc
      "ABC" None (Num 1.01) (Num 0.01) w0
    = (Ok [g; n; s; alpha; delta; Num 1.01; Num 0.01], w0) ∧
    Calibration.maximize_likelihood residual_one elasticity_third accept_all
      ols_raises minimize_fails data_abc "ABC" None "BFGS" (Num 1.01)
      (Num 0.01) w0
    = (Ok (Diagnostic
             (mk_result false [g; n; s; alpha; delta; Num 1.01; Num 0.01]
                "Maximum number of iterations has been exceeded.")), w0).
Proof.
  split; [reflexivity|].
  destruct (maximum_likelihood_seed residual_one ols_raises elasticity_third
              accept_all minimize_fails data_abc "ABC" None "BFGS" (Num 1.01)
              (Num 0.01) w0 (Some 2000%Z) (Some 2002%Z) rows_abc _ w0
              eq_refl match_moments_abc)
    as (g & n & s & alpha & delta & _ & _ & _ & _ & _ & Hguess & Hrun).
  exists g, n, s, alpha, delta. split; [exact Hguess|].
  rewrite Hrun. reflexivity.
Defined.





End CalibrationFacts.

(** ** The production functions, the drift and the closed-form solution *)

Module ProductionFacts.
Import Production Examples.
Local Open Scope R_scope.

(** *** Powers *)

Lemma power_pos x y : 0 < x → power x y = Rpower x y.
Proof. intros Hx. unfold power. by destruct (Rlt_dec 0 x). Qed.

Lemma power_0 y : y ≠ 0 → power 0 y = 0.
Proof.
  intros Hy. unfold power.
  destruct (Rlt_dec 0 0) as [H|_]; [lra|]. by destruct (Req_dec_T y 0).
Qed.

Lemma power_1 y : power 1 y = 1.
Proof.
  rewrite power_pos by lra. unfold Rpower. rewrite ln_1, Rmult_0_r. apply exp_0.
Qed.

Lemma power_gt_0 x y : 0 < x → 0 < power x y.
Proof. intros Hx. rewrite power_pos by done. apply exp_pos. Qed.

Lemma power_nonneg x y : 0 <= x → y ≠ 0 → 0 <= power x y.
Proof.
  intros [Hx|<-] Hy.
  - left. by apply power_gt_0.
  - rewrite power_0 by done. lra.
Qed.

(** [(x ** y) ** (1 / y) = x] for [x >= 0] and [y <> 0]. *)
Lemma power_power_inv x y : 0 <= x → y ≠ 0 → power (power x y) (1 / y) = x.
Proof.
  intros [Hx|<-] Hy.
  - rewrite (power_pos x) by done.
    rewrite power_pos by apply exp_pos.
    rewrite Rpower_mult.
    replace (y * (1 / y)) with 1 by (by field).
    by apply Rpower_1.
  - rewrite power_0 by done. apply power_0.
    unfold Rdiv. rewrite Rmult_1_l. by apply Rinv_neq_0_compat.
Qed.

(** *** Continuity, in the form the limits below need *)

Lemma derivable_continuous_eps (f : R → R) (x l : R) :
  derivable_pt_lim f x l →
  ∀ eps, 0 < eps →
    ∃ d, 0 < d ∧ ∀ y, Rabs (y - x) < d → Rabs (f y - f x) < eps.
Proof.
  intros Hd eps Heps.
  assert (Hc : continuity_pt f x).
  { apply derivable_continuous_pt. by exists l. }
  destruct (Hc eps Heps) as (d & Hdpos & Hlim).
  exists d. split; [exact Hdpos|]. intros y Hy.
  destruct (Req_dec x y) as [<-|Hne].
  - replace (f x - f x) with 0 by ring. rewrite Rabs_R0. exact Heps.
  - apply (Hlim y). split; [by split|exact Hy].
Qed.

Lemma exp_continuous_eps (x : R) :
  ∀ eps, 0 < eps →
    ∃ d, 0 < d ∧ ∀ y, Rabs (y - x) < d → Rabs (exp y - exp x) < eps.
Proof. apply (derivable_continuous_eps exp x (exp x)), derivable_pt_lim_exp. Qed.

Lemma Rpower_continuous_eps (a q : R) :
  0 < a →
  ∀ eps, 0 < eps →
    ∃ d, 0 < d ∧ ∀ y, Rabs (y - a) < d → Rabs (Rpower y q - Rpower a q) < eps.
Proof.
  intros Ha.
  apply (derivable_continuous_eps (λ x, Rpower x q) a (q * Rpower a (q - 1))).
  by apply derivable_pt_lim_power.
Qed.

(** *** The drift of the Cobb-Douglas model *)

Lemma cobb_douglas_intensive_power p k :
  cobb_douglas_intensive p k = power k (alpha p).
Proof.
  unfold cobb_douglas_intensive, intensive_output, cobb_douglas_output.
  rewrite Rmult_1_l, power_1. ring.
Qed.

Lemma k_dot_0 p : alpha p ≠ 0 → cobb_douglas_k_dot p 0 = 0.
Proof.
  intros Ha. unfold cobb_douglas_k_dot, k_dot.
  rewrite cobb_douglas_intensive_power, power_0 by done. ring.
Qed.

(** For positive [k] the drift is [k^alpha * (s - (g + n + delta) k^(1 - alpha))]. *)
Lemma k_dot_factor p k :
  0 < k →
  cobb_douglas_k_dot p k =
  Rpower k (alpha p) * (s p - (g p + n p + delta p) * Rpower k (1 - alpha p)).
Proof.
  intros Hk. unfold cobb_douglas_k_dot, k_dot.
  rewrite cobb_douglas_intensive_power, power_pos by done.
  assert (Hsplit : Rpower k (alpha p) * Rpower k (1 - alpha p) = k).
  { rewrite <- Rpower_plus.
    replace (alpha p + (1 - alpha p)) with 1 by ring. by apply Rpower_1. }
  rewrite <- Hsplit at 2. ring.
Qed.

(** *** The drift of the CES model *)

Lemma Rpower_base_lt (e x y : R) :
  0 < x < y →
  (0 < e → Rpower x e < Rpower y e) ∧ (e < 0 → Rpower y e < Rpower x e).
Proof.
  intros [Hx Hxy].
  assert (Hln : ln x < ln y) by (apply ln_increasing; lra).
  split; intros He; unfold Rpower; apply exp_increasing; nra.
Qed.

(** Where the CES expression has a value, the drift has one. *)
Lemma ces_k_dot_value p sigma k :
  sigma ≠ 0 → rho sigma ≠ 0 →
  ces_k_dot p sigma k
  = Num (s p * power (alpha p * power k (rho sigma) + (1 - alpha p))
                 (1 / rho sigma)
         - (g p + n p + delta p) * k).
Proof.
  intros Hsigma Hrho. unfold ces_k_dot, ces_intensive, ces_output.
  destruct (Req_dec_T sigma 0); [contradiction|].
  destruct (Req_dec_T (rho sigma) 0); [contradiction|].
  rewrite Rmult_1_l, power_1, Rmult_1_r. reflexivity.
Qed.

Section ces_drift.
Variables (p : parameters) (r : R).
Hypothesis Halpha : 0 < alpha p < 1.
Hypothesis Hr : r ≠ 0.

(** Output per unit of capital, [f(k) / k]. *)
Let ratio (k : R) : R :=
  Rpower (alpha p + (1 - alpha p) * Rpower k (- r)) (1 / r).

Lemma ces_base_pos k : 0 < alpha p + (1 - alpha p) * Rpower k (- r).
Proof.
  assert (0 < (1 - alpha p) * Rpower k (- r))
    by (apply Rmult_lt_0_compat; [lra|apply exp_pos]).
  lra.
Qed.

(** [f(k) = k * (f(k) / k)] for positive [k]. *)
Lemma ces_intensive_factor k :
  0 < k →
  power (alpha p * power k r + (1 - alpha p)) (1 / r) = k * ratio k.
Proof.
  intros Hk. rewrite (power_pos k) by exact Hk.
  assert (Hinv : Rpower k r * Rpower k (- r) = 1).
  { rewrite <- Rpower_plus. replace (r + - r) with 0 by ring.
    apply Rpower_O. exact Hk. }
  assert (Hsplit : alpha p * Rpower k r + (1 - alpha p)
                   = Rpower k r * (alpha p + (1 - alpha p) * Rpower k (- r))).
  { rewrite Rmult_plus_distr_l.
    replace (Rpower k r * ((1 - alpha p) * Rpower k (- r)))
      with ((1 - alpha p) * (Rpower k r * Rpower k (- r))) by ring.
    rewrite Hinv. ring. }
  rewrite Hsplit.
  rewrite power_pos
    by (apply Rmult_lt_0_compat; [apply exp_pos|apply ces_base_pos]).
  rewrite <- Rpower_mult_distr by (apply exp_pos || apply ces_base_pos).
  rewrite Rpower_mult.
  replace (r * (1 / r)) with 1 by (field; exact Hr).
  rewrite Rpower_1 by exact Hk. reflexivity.
Qed.

(** Output per unit of capital falls as capital grows. *)
Lemma ces_ratio_decreasing k1 k2 : 0 < k1 < k2 → ratio k2 < ratio k1.
Proof.
  intros Hk. unfold ratio.
  pose proof (ces_base_pos k1) as H1. pose proof (ces_base_pos k2) as H2.
  destruct (Rtotal_order r 0) as [Hneg|[Hz|Hpos]]; [|contradiction|].
  - (* r < 0: the base grows, the exponent is negative *)
    assert (Hb : Rpower k1 (- r) < Rpower k2 (- r))
      by (apply (proj1 (Rpower_base_lt (- r) k1 k2 Hk)); lra).
    assert (He : 1 / r < 0).
    { unfold Rdiv. rewrite Rmult_1_l. apply Rinv_lt_0_compat. exact Hneg. }
    refine (proj2 (Rpower_base_lt (1 / r) _ _ _) He).
    split; [exact H1|]. apply Rplus_lt_compat_l.
    apply Rmult_lt_compat_l; [lra|exact Hb].
  - (* r > 0: the base falls, the exponent is positive *)
    assert (Hb : Rpower k2 (- r) < Rpower k1 (- r))
      by (apply (proj2 (Rpower_base_lt (- r) k1 k2 Hk)); lra).
    assert (He : 0 < 1 / r).
    { unfold Rdiv. rewrite Rmult_1_l. apply Rinv_0_lt_compat. exact Hpos. }
    refine (proj1 (Rpower_base_lt (1 / r) _ _ _) He).
    split; [exact H2|]. apply Rplus_lt_compat_l.
    apply Rmult_lt_compat_l; [lra|exact Hb].
Qed.

(** The drift at [k > 0], as [k] times a strictly decreasing function. *)
Lemma ces_drift_factor k :
  0 < k →
  s p * power (alpha p * power k r + (1 - alpha p)) (1 / r)
  - (g p + n p + delta p) * k
  = k * (s p * ratio k - (g p + n p + delta p)).
Proof. intros Hk. rewrite ces_intensive_factor by exact Hk. ring. Qed.

(** Around a positive zero of the drift. *)
Lemma ces_drift_sign k_star :
  0 < s p → 0 < k_star →
  s p * power (alpha p * power k_star r + (1 - alpha p)) (1 / r)
  - (g p + n p + delta p) * k_star = 0 →
  (∀ k, k_star < k →
     s p * power (alpha p * power k r + (1 - alpha p)) (1 / r)
     - (g p + n p + delta p) * k < 0) ∧
  (∀ k, 0 < k < k_star →
     0 < s p * power (alpha p * power k r + (1 - alpha p)) (1 / r)
         - (g p + n p + delta p) * k).
Proof.
  intros Hs Hk Hzero. rewrite ces_drift_factor in Hzero by exact Hk.
  assert (Hstar : s p * ratio k_star - (g p + n p + delta p) = 0).
  { apply Rmult_integral in Hzero. destruct Hzero; [lra|assumption]. }
  split.
  - intros k Hlt. rewrite ces_drift_factor by lra.
    pose proof (ces_ratio_decreasing k_star k (conj Hk Hlt)) as Hdec.
    apply (Rmult_lt_compat_l (s p)) in Hdec; [|exact Hs].
    assert (Hneg : s p * ratio k - (g p + n p + delta p) < 0) by lra.
    assert (Hk0 : 0 < k) by lra.
    rewrite <- (Rmult_0_r k). apply Rmult_lt_compat_l; assumption.
  - intros k [Hk0 Hlt]. rewrite ces_drift_factor by exact Hk0.
    pose proof (ces_ratio_decreasing k k_star (conj Hk0 Hlt)) as Hdec.
    apply (Rmult_lt_compat_l (s p)) in Hdec; [|exact Hs].
    apply Rmult_lt_0_compat; [exact Hk0|lra].
Qed.

(** A positive zero of the drift, where [alpha * (s / (g + n + delta))^r]
    is below one. *)
Lemma ces_drift_zero :
  0 < s p → 0 < g p + n p + delta p →
  alpha p * power (s p / (g p + n p + delta p)) r < 1 →
  let a := s p / (g p + n p + delta p) in
  let k_star :=
    a * power ((1 - alpha p) / (1 - alpha p * power a r)) (1 / r) in
  0 < k_star ∧
  s p * power (alpha p * power k_star r + (1 - alpha p)) (1 / r)
  - (g p + n p + delta p) * k_star = 0.
Proof.
  intros Hs Hl Hdet a k_star.
  assert (Ha : 0 < a) by (unfold a; apply Rdiv_lt_0_compat; assumption).
  fold a in Hdet. rewrite (power_pos a) in Hdet by exact Ha.
  set (D := 1 - alpha p * Rpower a r).
  assert (HD : 0 < D) by (unfold D; lra).
  set (X := (1 - alpha p) / D).
  assert (HX : 0 < X) by (unfold X; apply Rdiv_lt_0_compat; lra).
  assert (Hk : k_star = a * Rpower X (1 / r)).
  { unfold k_star. rewrite (power_pos a) by exact Ha. fold D X.
    rewrite power_pos by exact HX. reflexivity. }
  assert (Hkpos : 0 < k_star)
    by (rewrite Hk; apply Rmult_lt_0_compat; [exact Ha|apply exp_pos]).
  split; [exact Hkpos|].
  assert (Hpow : power k_star r = Rpower a r * X).
  { rewrite power_pos by exact Hkpos. rewrite Hk.
    rewrite <- Rpower_mult_distr by (exact Ha || apply exp_pos).
    rewrite Rpower_mult.
    replace (1 / r * r) with 1 by (field; exact Hr).
    rewrite Rpower_1 by exact HX. reflexivity. }
  assert (Hmix : alpha p * power k_star r + (1 - alpha p) = X).
  { rewrite Hpow. unfold X, D. field. fold D. lra. }
  rewrite Hmix, power_pos by exact HX.
  rewrite Hk. unfold a. field. lra.
Qed.
End ces_drift.

(** *** The steady state *)

Section steady_state.
Variable p : parameters.
Hypothesis Hp : admissible p.

Let lmbda := g p + n p + delta p.

Lemma lmbda_pos : 0 < lmbda.
Proof. unfold lmbda. destruct Hp as (_ & _ & _ & H). exact H. Qed.

Lemma ratio_pos : 0 < s p / (n p + g p + delta p).
Proof.
  pose proof lmbda_pos as Hl. unfold lmbda in Hl.
  destruct Hp as (_ & Hs & _ & _).
  apply Rdiv_lt_0_compat; lra.
Qed.

Lemma steady_state_pos : 0 < steady_state p.
Proof. unfold steady_state. apply power_gt_0, ratio_pos. Qed.

(** [k*^(1 - alpha) = s / (n + g + delta)]. *)
Lemma steady_state_power :
  Rpower (steady_state p) (1 - alpha p) = s p / (n p + g p + delta p).
Proof.
  destruct Hp as ((Ha0 & Ha1) & _).
  unfold steady_state. rewrite power_pos by apply ratio_pos.
  rewrite Rpower_mult.
  replace (1 / (1 - alpha p) * (1 - alpha p)) with 1 by (field; lra).
  apply Rpower_1, ratio_pos.
Qed.

Lemma k_dot_steady_state : cobb_douglas_k_dot p (steady_state p) = 0.
Proof.
  pose proof lmbda_pos as Hl. unfold lmbda in Hl.
  rewrite k_dot_factor by apply steady_state_pos.
  rewrite steady_state_power.
  replace (s p - (g p + n p + delta p) * (s p / (n p + g p + delta p)))
    with 0 by (field; lra).
  ring.
Qed.

Lemma k_dot_above k : steady_state p < k → cobb_douglas_k_dot p k < 0.
Proof.
  intros Hk. pose proof steady_state_pos as Hpos.
  pose proof lmbda_pos as Hl. unfold lmbda in Hl.
  destruct Hp as ((Ha0 & Ha1) & _).
  rewrite k_dot_factor by lra.
  assert (Hlt : Rpower (steady_state p) (1 - alpha p)
                < Rpower k (1 - alpha p)) by (apply Rlt_Rpower_l; lra).
  rewrite steady_state_power in Hlt.
  assert (Hneg : s p - (g p + n p + delta p) * Rpower k (1 - alpha p) < 0).
  { apply (Rmult_lt_compat_l (g p + n p + delta p)) in Hlt; [|lra].
    replace ((g p + n p + delta p) * (s p / (n p + g p + delta p)))
      with (s p) in Hlt by (field; lra).
    lra. }
  assert (Hk_pos : 0 < Rpower k (alpha p)) by apply exp_pos.
  rewrite <- (Rmult_0_r (Rpower k (alpha p))).
  by apply Rmult_lt_compat_l.
Qed.

Lemma k_dot_below k : 0 < k < steady_state p → 0 < cobb_douglas_k_dot p k.
Proof.
  intros [Hk0 Hk].
  pose proof lmbda_pos as Hl. unfold lmbda in Hl.
  destruct Hp as ((Ha0 & Ha1) & _).
  rewrite k_dot_factor by lra.
  assert (Hlt : Rpower k (1 - alpha p)
                < Rpower (steady_state p) (1 - alpha p))
    by (apply Rlt_Rpower_l; lra).
  rewrite steady_state_power in Hlt.
  assert (Hpos : 0 < s p - (g p + n p + delta p) * Rpower k (1 - alpha p)).
  { apply (Rmult_lt_compat_l (g p + n p + delta p)) in Hlt; [|lra].
    replace ((g p + n p + delta p) * (s p / (n p + g p + delta p)))
      with (s p) in Hlt by (field; lra).
    lra. }
  apply Rmult_lt_0_compat; [apply exp_pos|exact Hpos].
Qed.

(** C5, as the drift has it.  With admissible parameters the drift of
    the Cobb-Douglas model vanishes at the steady state [k*], is negative
    above it and positive between [0] and [k*]; among the capital stocks
    [k >= 0] it vanishes at [k*] and at [0], and nowhere else.  The drift of
    the CES model (wherever the CES expression has a value) has the same
    signs around its steady state whenever it has one: around a capital
    stock [k* > 0] at which it vanishes it is negative above, positive
    between [0] and [k*], and vanishes at no other positive capital stock.
    It has one when [alpha * (s / (g + n + delta))^rho < 1]. *)
Theorem drift_sign :
  (0 < steady_state p ∧
   cobb_douglas_k_dot p (steady_state p) = 0 ∧
   (∀ k, steady_state p < k → cobb_douglas_k_dot p k < 0) ∧
   (∀ k, 0 < k < steady_state p → 0 < cobb_douglas_k_dot p k) ∧
   (∀ k, 0 <= k →
      cobb_douglas_k_dot p k = 0 ↔ k = 0 ∨ k = steady_state p)) ∧
  (∀ sigma, sigma ≠ 0 → rho sigma ≠ 0 →
     (∀ k_star, 0 < k_star → ces_k_dot p sigma k_star = Num 0 →
        (∀ k, k_star < k → ∃ y, ces_k_dot p sigma k = Num y ∧ y < 0) ∧
        (∀ k, 0 < k < k_star → ∃ y, ces_k_dot p sigma k = Num y ∧ 0 < y) ∧
        (∀ k, 0 < k → ces_k_dot p sigma k = Num 0 ↔ k = k_star)) ∧
     (alpha p * power (s p / (g p + n p + delta p)) (rho sigma) < 1 →
        ∃ k_star, 0 < k_star ∧ ces_k_dot p sigma k_star = Num 0)).
Proof.
  split.
  { split; [apply steady_state_pos|].
    split; [apply k_dot_steady_state|].
    split; [apply k_dot_above|].
    split; [apply k_dot_below|].
    intros k Hk. split.
    - intros Hz.
      destruct Hk as [Hk|<-]; [|by left]. right.
      destruct (Rtotal_order k (steady_state p)) as [Hlt|[Heq|Hgt]].
      + pose proof (k_dot_below k (conj Hk Hlt)). lra.
      + exact Heq.
      + pose proof (k_dot_above k Hgt). lra.
    - intros [->| ->].
      + apply k_dot_0. destruct Hp as ((Ha0 & _) & _). lra.
      + apply k_dot_steady_state. }
  intros sigma Hsigma Hrho.
  pose proof Hp as (Halpha & Hs & _ & Hl).
  split.
  - intros k_star Hk Hzero.
    rewrite ces_k_dot_value in Hzero by assumption.
    injection Hzero as Hzero.
    destruct (ces_drift_sign p (rho sigma) Halpha Hrho k_star Hs Hk Hzero)
      as [Habove Hbelow].
    split; [|split].
    + intros k Hlt. rewrite ces_k_dot_value by assumption.
      eexists. split; [reflexivity|]. apply Habove. exact Hlt.
    + intros k Hlt. rewrite ces_k_dot_value by assumption.
      eexists. split; [reflexivity|]. apply Hbelow. exact Hlt.
    + intros k Hk0. rewrite ces_k_dot_value by assumption. split.
      * intros [= Hz].
        destruct (Rtotal_order k k_star) as [Hlt|[Heq|Hgt]].
        -- pose proof (Hbelow k (conj Hk0 Hlt)). lra.
        -- exact Heq.
        -- pose proof (Habove k Hgt). lra.
      * intros ->. f_equal. exact Hzero.
  - intros Hdet.
    destruct (ces_drift_zero p (rho sigma) Halpha Hrho Hs Hl Hdet)
      as [Hk Hzero].
    eexists. split; [exact Hk|].
    rewrite ces_k_dot_value by assumption. f_equal. exact Hzero.
Qed.
End steady_state.

(** *** CES output near [sigma = 1] *)

Lemma derivable_pt_lim_ext (f h : R → R) (x l : R) :
  (∀ y, f y = h y) → derivable_pt_lim f x l → derivable_pt_lim h x l.
Proof.
  intros Hext Hf eps Heps. destruct (Hf eps Heps) as [d Hd].
  exists d. intros t Ht Htd. rewrite <- !Hext. by apply Hd.
Qed.

Section ces_limit.
Variables (alpha a b : R).
Hypothesis Halpha : 0 < alpha < 1.

(** The CES aggregate of [exp a] and [exp b] with exponent [r], and its
    logarithm. *)
Let mix (r : R) : R := alpha * exp (r * a) + (1 - alpha) * exp (r * b).
Let log_mix (r : R) : R := ln (mix r).

Lemma mix_pos r : 0 < mix r.
Proof.
  unfold mix. pose proof (exp_pos (r * a)). pose proof (exp_pos (r * b)).
  assert (0 < alpha * exp (r * a)) by (apply Rmult_lt_0_compat; lra).
  assert (0 < (1 - alpha) * exp (r * b)) by (apply Rmult_lt_0_compat; lra).
  lra.
Qed.

Lemma mix_0 : mix 0 = 1.
Proof. unfold mix. rewrite !Rmult_0_l, exp_0. ring. Qed.

Lemma derivable_exp_scaled (c : R) :
  derivable_pt_lim (λ r, exp (r * c)) 0 c.
Proof.
  apply (derivable_pt_lim_ext (comp exp (mult_real_fct c id))).
  { intros y. unfold comp, mult_real_fct, id. f_equal. ring. }
  replace c with (exp (mult_real_fct c id 0) * (c * 1)) at 2.
  - apply derivable_pt_lim_comp.
    + apply derivable_pt_lim_scal, derivable_pt_lim_id.
    + apply derivable_pt_lim_exp.
  - unfold mult_real_fct, id. rewrite Rmult_0_r, exp_0. ring.
Qed.

Lemma derivable_mix :
  derivable_pt_lim mix 0 (alpha * a + (1 - alpha) * b).
Proof.
  apply (derivable_pt_lim_ext
           (plus_fct (mult_real_fct alpha (λ r, exp (r * a)))
                     (mult_real_fct (1 - alpha) (λ r, exp (r * b))))).
  { intros y. reflexivity. }
  apply derivable_pt_lim_plus;
    apply derivable_pt_lim_scal, derivable_exp_scaled.
Qed.

Lemma derivable_log_mix :
  derivable_pt_lim log_mix 0 (alpha * a + (1 - alpha) * b).
Proof.
  apply (derivable_pt_lim_ext (comp ln mix)); [done|].
  replace (alpha * a + (1 - alpha) * b)
    with (/ mix 0 * (alpha * a + (1 - alpha) * b))
    by (rewrite mix_0; field).
  apply derivable_pt_lim_comp; [apply derivable_mix|].
  apply derivable_pt_lim_ln, mix_pos.
Qed.

(** [mix r ^ (1 / r)] tends to [exp (alpha a + (1 - alpha) b)] as [r]
    tends to [0]. *)
Lemma mix_power_limit :
  ∀ eps, 0 < eps →
    ∃ d, 0 < d ∧
      ∀ r, r ≠ 0 → Rabs r < d →
        Rabs (Rpower (mix r) (1 / r) - exp (alpha * a + (1 - alpha) * b)) < eps.
Proof.
  intros eps Heps.
  destruct (exp_continuous_eps (alpha * a + (1 - alpha) * b) eps Heps)
    as (d1 & Hd1 & Hexp).
  destruct (derivable_log_mix d1 Hd1) as [d2 Hder].
  exists d2. split; [apply cond_pos|]. intros r Hr Hrd.
  specialize (Hder r Hr Hrd).
  unfold Rpower. apply Hexp.
  replace (1 / r * ln (mix r)) with ((log_mix (0 + r) - log_mix 0) / r).
  - exact Hder.
  - unfold log_mix. rewrite mix_0, ln_1, Rplus_0_l. by field.
Qed.
End ces_limit.

Lemma rho_1 : rho 1 = 0.
Proof. unfold rho. field. Qed.

Lemma ces_output_at_1 A K L alpha : ces_output A K L alpha 1 = NaN.
Proof.
  unfold ces_output. destruct (Req_dec_T 1 0) as [|_]; [done|].
  destruct (Req_dec_T (rho 1) 0) as [_|Hne]; [done|].
  exfalso. apply Hne, rho_1.
Qed.

(** Close to [sigma = 1], [rho] is close to [0], and is not [0]. *)
Lemma rho_small sigma :
  sigma ≠ 1 → Rabs (sigma - 1) < 1 / 2 →
  sigma ≠ 0 ∧ rho sigma ≠ 0 ∧ Rabs (rho sigma) <= 2 * Rabs (sigma - 1).
Proof.
  intros Hne Hclose.
  assert (Hs : 1 / 2 < sigma).
  { apply Rabs_def2 in Hclose. lra. }
  assert (Hs0 : sigma ≠ 0) by lra.
  split; [exact Hs0|]. split.
  - unfold rho. intros Hz.
    apply (Rmult_eq_compat_r sigma) in Hz.
    replace ((sigma - 1) / sigma * sigma) with (sigma - 1) in Hz by (by field).
    lra.
  - unfold rho, Rdiv. rewrite Rabs_mult, Rmult_comm.
    apply Rmult_le_compat_r; [apply Rabs_pos|].
    rewrite Rabs_pos_eq by (left; apply Rinv_0_lt_compat; lra).
    replace 2 with (/ (1 / 2)) by field.
    apply Rinv_le_contravar; lra.
Qed.

(** The value of the CES expression where it has one. *)
Lemma ces_output_value A K L alpha sigma :
  0 < A → 0 < K → 0 < L → 0 < alpha < 1 →
  sigma ≠ 0 → rho sigma ≠ 0 →
  ces_output A K L alpha sigma =
  Num (Rpower (alpha * exp (rho sigma * ln K)
               + (1 - alpha) * exp (rho sigma * ln (A * L)))
              (1 / rho sigma)).
Proof.
  intros HA HK HL Halpha Hs Hr.
  assert (HAL : 0 < A * L) by (by apply Rmult_lt_0_compat).
  unfold ces_output.
  destruct (Req_dec_T sigma 0) as [|_]; [done|].
  destruct (Req_dec_T (rho sigma) 0) as [|_]; [done|].
  rewrite (power_pos K), (power_pos (A * L)) by done.
  unfold Rpower at 1 2. rewrite power_pos; [done|].
  apply (mix_pos alpha (ln K) (ln (A * L)) Halpha).
Qed.

Lemma cobb_douglas_output_exp A K L alpha :
  0 < A → 0 < K → 0 < L →
  cobb_douglas_output A K L alpha
  = exp (alpha * ln K + (1 - alpha) * ln (A * L)).
Proof.
  intros HA HK HL.
  assert (HAL : 0 < A * L) by (by apply Rmult_lt_0_compat).
  unfold cobb_douglas_output. rewrite !power_pos by done.
  unfold Rpower. by rewrite exp_plus.
Qed.

(** C6, as the expression has it.  For positive inputs and [0 < alpha < 1]
    the CES output tends to the Cobb-Douglas output as [sigma] tends to
    [1]; at [sigma = 1] itself the expression has no value (it divides by
    [rho = 0]), and no other case of the expression takes over there. *)
Theorem ces_limit_cobb_douglas A K L alpha :
  0 < A → 0 < K → 0 < L → 0 < alpha < 1 →
  ces_output A K L alpha 1 = NaN ∧
  ∀ eps, 0 < eps →
    ∃ d, 0 < d ∧
      ∀ sigma, sigma ≠ 1 → Rabs (sigma - 1) < d →
        ∃ y, ces_output A K L alpha sigma = Num y ∧
             Rabs (y - cobb_douglas_output A K L alpha) < eps.
Proof.
  intros HA HK HL Halpha. split; [apply ces_output_at_1|].
  intros eps Heps.
  destruct (mix_power_limit alpha (ln K) (ln (A * L)) Halpha eps Heps)
    as (d & Hd & Hlim).
  exists (Rmin (1 / 2) (d / 2)). split.
  { apply Rmin_pos; lra. }
  intros sigma Hne Hclose.
  assert (Hhalf : Rabs (sigma - 1) < 1 / 2).
  { pose proof (Rmin_l (1 / 2) (d / 2)). lra. }
  assert (Hd2 : Rabs (sigma - 1) < d / 2).
  { pose proof (Rmin_r (1 / 2) (d / 2)). lra. }
  destruct (rho_small sigma Hne Hhalf) as (Hs0 & Hr0 & Hrle).
  eexists. split; [by apply ces_output_value|].
  rewrite cobb_douglas_output_exp by done.
  apply Hlim; [exact Hr0|lra].
Qed.

(** *** The parameters of the notebooks *)

Lemma cobb_douglas_params_admissible : admissible cobb_douglas_params.
Proof. unfold admissible, cobb_douglas_params. simpl. lra. Qed.

Lemma rho_half : rho (1 / 2) = -1.
Proof. unfold rho. field. Qed.

(** With [sigma = 1 / 2] the CES intensive output is [k / (alpha + (1 - alpha) k)]. *)
Lemma ces_intensive_half p k :
  0 < alpha p < 1 → 0 < k →
  ces_intensive p (1 / 2) k = Num (/ (alpha p * / k + (1 - alpha p))).
Proof.
  intros Ha Hk. unfold ces_intensive, ces_output.
  destruct (Req_dec_T (1 / 2) 0) as [|_]; [lra|].
  rewrite rho_half.
  destruct (Req_dec_T (-1) 0) as [|_]; [lra|].
  replace (1 / -1) with (-1) by field.
  assert (Hinv : ∀ x, 0 < x → power x (-1) = / x).
  { intros x Hx. rewrite power_pos by done.
    replace (-1) with (- (1)) by lra.
    rewrite Rpower_Ropp, Rpower_1 by done. reflexivity. }
  rewrite (Hinv k Hk), Rmult_1_l, power_1, Rmult_1_r.
  f_equal. apply Hinv.
  assert (0 < / k) by (by apply Rinv_0_lt_compat).
  assert (0 < alpha p * / k) by (apply Rmult_lt_0_compat; lra).
  lra.
Qed.

Lemma high_saving_admissible : admissible high_saving_params.
Proof. unfold admissible, high_saving_params. simpl. lra. Qed.

(** With [sigma = 1 / 2], [alpha = 0.5], [s = 0.5] and
    [g + n + delta = 0.1] the CES drift vanishes at [k = 9]. *)
Lemma ces_drift_zero_at_9 : ces_k_dot high_saving_params (1 / 2) 9 = Num 0.
Proof.
  unfold ces_k_dot. rewrite ces_intensive_half by (simpl; lra).
  f_equal. simpl.
  replace (0.5 * / 9 + (1 - 0.5)) with (/ 1.8) by lra.
  rewrite Rinv_inv. lra.
Qed.

Lemma drift_sign_witness :
  admissible high_saving_params ∧
  (0 < steady_state high_saving_params ∧
   cobb_douglas_k_dot high_saving_params (steady_state high_saving_params)
   = 0 ∧
   (∀ k, 0 <= k →
      cobb_douglas_k_dot high_saving_params k = 0
      ↔ k = 0 ∨ k = steady_state high_saving_params)) ∧
  (ces_k_dot high_saving_params (1 / 2) 9 = Num 0 ∧
   (∀ k, 9 < k →
      ∃ y, ces_k_dot high_saving_params (1 / 2) k = Num y ∧ y < 0) ∧
   (∀ k, 0 < k < 9 →
      ∃ y, ces_k_dot high_saving_params (1 / 2) k = Num y ∧ 0 < y) ∧
   (∀ k, 0 < k → ces_k_dot high_saving_params (1 / 2) k = Num 0 ↔ k = 9)).
Proof.
  pose proof high_saving_admissible as Hp.
  split; [exact Hp|].
  destruct (drift_sign high_saving_params Hp)
    as ((H1 & H2 & _ & _ & H5) & Hces).
  split; [split; [exact H1|split; [exact H2|exact H5]]|].
  split; [exact ces_drift_zero_at_9|].
  assert (Hsigma : 1 / 2 ≠ 0) by lra.
  assert (Hrho : rho (1 / 2) ≠ 0) by (rewrite rho_half; lra).
  assert (H9 : 0 < 9) by lra.
  exact (proj1 (Hces (1 / 2) Hsigma Hrho) 9 H9 ces_drift_zero_at_9).
Defined.

(** C5 as stated fails at the origin: the Cobb-Douglas drift vanishes at
    [k = 0] too, and [0] is not the steady state. *)
Lemma drift_zero_at_origin :
  admissible cobb_douglas_params ∧ 0 <= 0 ∧
  cobb_douglas_k_dot cobb_douglas_params 0 = 0 ∧
  0 ≠ steady_state cobb_douglas_params.
Proof.
  pose proof cobb_douglas_params_admissible as Hp.
  split; [exact Hp|]. split; [lra|]. split.
  - apply k_dot_0. simpl. lra.
  - pose proof (steady_state_pos cobb_douglas_params Hp). lra.
Qed.

Lemma ces_limit_cobb_douglas_witness :
  0 < 1 ∧ 0 < 2 ∧ 0 < 0.33 < 1 ∧
  ces_output 1 2 1 0.33 1 = NaN ∧
  ∀ eps, 0 < eps →
    ∃ d, 0 < d ∧
      ∀ sigma, sigma ≠ 1 → Rabs (sigma - 1) < d →
        ∃ y, ces_output 1 2 1 0.33 sigma = Num y ∧
             Rabs (y - cobb_douglas_output 1 2 1 0.33) < eps.
Proof.
  split; [lra|]. split; [lra|]. split; [lra|].
  apply (ces_limit_cobb_douglas 1 2 1 0.33); lra.
Defined.

(** C6 as stated fails at [sigma = 1]: the CES expression does not yield
    the Cobb-Douglas output there. *)
Lemma ces_no_limiting_case :
  ces_output 1 2 1 0.33 1 = NaN ∧
  ces_output 1 2 1 0.33 1 ≠ Num (cobb_douglas_output 1 2 1 0.33).
Proof. rewrite ces_output_at_1. split; [reflexivity|discriminate]. Qed.
End ProductionFacts.

Module SolvingFacts.
Import Production Solving Examples ProductionFacts.
Local Open Scope R_scope.

Section analytic.
Variables (p : parameters) (k0 : R).
Hypothesis Hp : admissible p.
Hypothesis Hk0 : 0 <= k0.

Let lmbda := n p + g p + delta p.
Let a := s p / lmbda.
Let b := power k0 (1 - alpha p).
Let mu := lmbda * (1 - alpha p).
Let u (t : R) := exp (- lmbda * (1 - alpha p) * t).

Lemma analytic_k_unfold t :
  analytic_k p t k0 = power (a * (1 - u t) + b * u t) (1 / (1 - alpha p)).
Proof. reflexivity. Qed.

Lemma rate_pos : 0 < mu.
Proof.
  destruct Hp as ((Ha0 & Ha1) & _ & _ & Hl). unfold mu, lmbda.
  apply Rmult_lt_0_compat; lra.
Qed.

Lemma a_pos : 0 < a.
Proof. apply ratio_pos, Hp. Qed.

Lemma b_nonneg : 0 <= b.
Proof.
  destruct Hp as ((Ha0 & Ha1) & _). apply power_nonneg; [exact Hk0|lra].
Qed.

Lemma u_0 : u 0 = 1.
Proof. unfold u. rewrite Rmult_0_r. apply exp_0. Qed.

Lemma u_pos t : 0 < u t.
Proof. apply exp_pos. Qed.

Lemma u_lt_1 t : 0 < t → u t < 1.
Proof.
  intros Ht. pose proof rate_pos as Hmu. unfold mu in Hmu.
  rewrite <- exp_0. apply exp_increasing.
  replace (- lmbda * (1 - alpha p) * t)
    with (- (lmbda * (1 - alpha p) * t)) by ring.
  assert (0 < lmbda * (1 - alpha p) * t) by (apply Rmult_lt_0_compat; lra).
  lra.
Qed.

(** The trajectory starts at [k0]. *)
Lemma analytic_k_0 : analytic_k p 0 k0 = k0.
Proof.
  destruct Hp as ((Ha0 & Ha1) & _).
  rewrite analytic_k_unfold, u_0.
  replace (a * (1 - 1) + b * 1) with b by ring.
  unfold b. apply power_power_inv; [exact Hk0|lra].
Qed.

(** [exp (- mu t)] falls below any positive bound. *)
Lemma u_small d : 0 < d → ∀ t, - ln d / mu < t → u t < d.
Proof.
  intros Hd t Ht. pose proof rate_pos as Hmu.
  rewrite <- (exp_ln d Hd). apply exp_increasing.
  apply (Rmult_lt_compat_r mu) in Ht; [|exact Hmu].
  replace (- ln d / mu * mu) with (- ln d) in Ht by (field; lra).
  unfold mu in Ht. lra.
Qed.

(** The trajectory converges to the steady state. *)
Lemma analytic_k_limit :
  ∀ eps, 0 < eps →
    ∃ T, ∀ t, T < t → Rabs (analytic_k p t k0 - steady_state p) < eps.
Proof.
  intros eps Heps.
  pose proof a_pos as Ha. pose proof b_nonneg as Hb.
  destruct (Rpower_continuous_eps a (1 / (1 - alpha p)) Ha eps Heps)
    as (d & Hd & Hcont).
  set (c := Rabs (b - a) + 1).
  assert (Hc : 0 < c) by (unfold c; pose proof (Rabs_pos (b - a)); lra).
  assert (Hdc : 0 < d / c) by (by apply Rdiv_lt_0_compat).
  exists (Rmax 0 (- ln (d / c) / mu)). intros t Ht.
  assert (Ht0 : 0 < t) by (pose proof (Rmax_l 0 (- ln (d / c) / mu)); lra).
  assert (Htd : - ln (d / c) / mu < t)
    by (pose proof (Rmax_r 0 (- ln (d / c) / mu)); lra).
  pose proof (u_pos t) as Hu0. pose proof (u_lt_1 t Ht0) as Hu1.
  pose proof (u_small (d / c) Hdc t Htd) as Hud.
  assert (Hinner : 0 < a * (1 - u t) + b * u t).
  { assert (0 < a * (1 - u t)) by (apply Rmult_lt_0_compat; lra).
    assert (0 <= b * u t) by (apply Rmult_le_pos; lra).
    lra. }
  rewrite analytic_k_unfold, power_pos by exact Hinner.
  unfold steady_state. fold lmbda. fold a. rewrite power_pos by exact Ha.
  apply Hcont.
  replace (a * (1 - u t) + b * u t - a) with ((b - a) * u t) by ring.
  rewrite Rabs_mult, (Rabs_pos_eq (u t)) by lra.
  apply Rle_lt_trans with (c * u t).
  - apply Rmult_le_compat_r; [lra|]. unfold c. lra.
  - apply (Rmult_lt_compat_l c) in Hud; [|exact Hc].
    replace (c * (d / c)) with d in Hud by (field; lra). exact Hud.
Qed.

(** C4. With admissible parameters and an initial condition [k0 >= 0] the
    closed-form solution starts at [k0] (so the trajectory on a grid that
    begins at [0] begins with the row [(0, k0)]) and converges, as [t]
    grows, to the steady state [(s / (n + g + delta))^(1 / (1 - alpha))]. *)
Theorem analytic_solution_limits :
  analytic_k p 0 k0 = k0 ∧
  (∀ ti, analytic_solution p (0 :: ti) k0
         = (0, k0) :: analytic_solution p ti k0) ∧
  (∀ eps, 0 < eps →
     ∃ T, ∀ t, T < t →
       Rabs (analytic_k p t k0
             - power (s p / (n p + g p + delta p)) (1 / (1 - alpha p))) < eps).
Proof.
  split; [apply analytic_k_0|]. split.
  - intros ti. unfold analytic_solution. simpl. by rewrite analytic_k_0.
  - apply analytic_k_limit.
Qed.
End analytic.

Lemma analytic_solution_limits_witness :
  admissible cobb_douglas_params ∧ 0 <= 1 ∧
  analytic_k cobb_douglas_params 0 1 = 1 ∧
  ∀ eps, 0 < eps →
    ∃ T, ∀ t, T < t →
      Rabs (analytic_k cobb_douglas_params t 1
            - power (0.15 / (0.03 + 0.02 + 0.05)) (1 / (1 - 0.33))) < eps.
Proof.
  assert (Hp : admissible cobb_douglas_params).
  { unfold admissible, cobb_douglas_params. simpl. lra. }
  assert (H1 : 0 <= 1) by lra.
  split; [exact Hp|]. split; [exact H1|].
  destruct (analytic_solution_limits cobb_douglas_params 1 Hp H1)
    as (Hk0 & _ & Hlim).
  split; [exact Hk0|exact Hlim].
Defined.
End SolvingFacts.

(** * Further properties *)

(** ** The conversions on other inputs *)

Module ConversionEdgeFacts.
Import Conversions ConversionFacts.
Section dict.
Context {V : Type}.

Lemma getitem_None (d : gmap string V) k :
  d !! k = None → getitem d k = Raise (KeyError k).
Proof. intros H. unfold getitem. rewrite H. reflexivity. Qed.

Lemma params_to_array_inv (p : gmap string V) :
  (∃ a, _params_to_array p = Ok a ∧ ∀ k, k ∈ keys → is_Some (p !! k)) ∨
  (∃ pre k post, keys = pre ++ k :: post ∧
     Forall (λ k', is_Some (p !! k')) pre ∧ p !! k = None ∧
     _params_to_array p = Raise (KeyError k)).
Proof.
  unfold _params_to_array, getitem.
  destruct (p !! "g") as [g|] eqn:Hg;
    [|right; exists [], "g", ["n"; "s"; "alpha"; "delta"; "sigma"; "sigma_eps"];
      rewrite ?Hg; repeat split; try done; repeat constructor; eauto].
  destruct (p !! "n") as [n|] eqn:Hn;
    [|right; exists ["g"], "n", ["s"; "alpha"; "delta"; "sigma"; "sigma_eps"];
      repeat split; try done; repeat constructor; eauto].
  destruct (p !! "s") as [s|] eqn:Hs;
    [|right; exists ["g"; "n"], "s", ["alpha"; "delta"; "sigma"; "sigma_eps"];
      repeat split; try done; repeat constructor; eauto].
  destruct (p !! "alpha") as [alpha|] eqn:Halpha;
    [|right; exists ["g"; "n"; "s"], "alpha", ["delta"; "sigma"; "sigma_eps"];
      repeat split; try done; repeat constructor; eauto].
  destruct (p !! "delta") as [delta|] eqn:Hdelta;
    [|right; exists ["g"; "n"; "s"; "alpha"], "delta", ["sigma"; "sigma_eps"];
      repeat split; try done; repeat constructor; eauto].
  destruct (p !! "sigma") as [sigma|] eqn:Hsigma;
    [|right; exists ["g"; "n"; "s"; "alpha"; "delta"], "sigma", ["sigma_eps"];
      repeat split; try done; repeat constructor; eauto].
  destruct (p !! "sigma_eps") as [sigma_eps|] eqn:Hsigma_eps;
    [|right; exists ["g"; "n"; "s"; "alpha"; "delta"; "sigma"], "sigma_eps", [];
      repeat split; try done; repeat constructor; eauto].
  left. eexists. split; [reflexivity|].
  intros k. unfold keys. rewrite !elem_of_cons, elem_of_nil.
  intros [->|[->|[->|[->|[->|[->|[->|[]]]]]]]]; eauto.
Qed.

(** X1.  [_params_to_array] subscripts the dictionary in the order [g], [n],
    [s], [alpha], [delta], [sigma], [sigma_eps]: it returns exactly when
    all seven keys are present, and otherwise raises the [KeyError] of the
    first of them that is missing, whatever else the dictionary holds or
    lacks. *)
Theorem params_to_array_first_missing_key (p : gmap string V) :
  ((∃ a, _params_to_array p = Ok a) ↔ ∀ k, k ∈ keys → is_Some (p !! k)) ∧
  (∀ pre k post, keys = pre ++ k :: post →
     Forall (λ k', is_Some (p !! k')) pre → p !! k = None →
     _params_to_array p = Raise (KeyError k)) ∧
  (∀ e, _params_to_array p = Raise e →
     ∃ k, e = KeyError k ∧ k ∈ keys ∧ p !! k = None).
Proof.
  destruct (params_to_array_inv p) as
    [(a & Ha & Hall)|(pre & k & post & Hk & Hpre & Hnone & Hraise)].
  - split; [|split].
    + split; [intros _; exact Hall|intros _; eauto].
    + intros pre k post Hk _ Hnone.
      assert (Hin : k ∈ keys) by (rewrite Hk; set_solver).
      destruct (Hall k Hin) as [v Hv]. congruence.
    + intros e He. congruence.
  - split; [|split].
    + split.
      * intros (a & Ha). congruence.
      * intros Hall. assert (Hin : k ∈ keys) by (rewrite Hk; set_solver).
        destruct (Hall k Hin) as [v Hv]. congruence.
    + intros pre' k' post' Hk' Hpre' Hnone'.
      destruct (decide (k' = k)) as [->|Hne]; [exact Hraise|].
      exfalso.
      (* the two splits of [keys] put one of the keys before the other *)
      assert (Hcmp : k ∈ pre' ∨ k' ∈ pre).
      { clear -Hk Hk' Hne. unfold keys in *.
        destruct pre as [|? [|? [|? [|? [|? [|? [|? [|? pre]]]]]]]];
          simplify_eq/=;
          try (destruct pre; discriminate);
        destruct pre' as [|? [|? [|? [|? [|? [|? [|? [|? pre']]]]]]]];
          simplify_eq/=;
          try (destruct pre'; discriminate);
          try congruence; set_solver. }
      destruct Hcmp as [Hin|Hin].
      * rewrite Forall_forall in Hpre'. destruct (Hpre' k Hin). congruence.
      * rewrite Forall_forall in Hpre. destruct (Hpre k' Hin). congruence.
    + intros e He. exists k. split; [congruence|]. split; [|exact Hnone].
      rewrite Hk. set_solver.
Qed.
(** X2.  [_array_to_params] pairs the seven keys with the array by position
    and stops at the shorter of the two: the [i]-th key is bound to the
    [i]-th element when the array has one and is absent otherwise, and no
    other key is bound.  So an array with more than seven elements converts
    back to its first seven, and a shorter array converts to a dictionary
    on which [_params_to_array] raises the [KeyError] of the first key
    without an element. *)
Theorem array_to_params_by_position (a : list V) :
  (∀ i k, keys !! i = Some k → _array_to_params a !! k = a !! i) ∧
  (∀ k, k ∉ keys → _array_to_params a !! k = None) ∧
  (7 ≤ length a → _params_to_array (_array_to_params a) = Ok (take 7 a)) ∧
  (∀ k, keys !! length a = Some k →
     _params_to_array (_array_to_params a) = Raise (KeyError k)).
Proof.
  destruct (array_to_params_lookup a) as [Hpos Hnot].
  split; [exact Hpos|]. split; [exact Hnot|]. split.
  - intros Hlen.
    destruct a as [|v1 [|v2 [|v3 [|v4 [|v5 [|v6 [|v7 a]]]]]]];
      simpl in Hlen; try lia.
    simpl. apply params_to_array_Ok.
    + apply (Hpos 0 "g" eq_refl).
    + apply (Hpos 1 "n" eq_refl).
    + apply (Hpos 2 "s" eq_refl).
    + apply (Hpos 3 "alpha" eq_refl).
    + apply (Hpos 4 "delta" eq_refl).
    + apply (Hpos 5 "sigma" eq_refl).
    + apply (Hpos 6 "sigma_eps" eq_refl).
  - intros k Hk.
    pose proof (Hpos 0 "g" eq_refl) as H0.
    pose proof (Hpos 1 "n" eq_refl) as H1.
    pose proof (Hpos 2 "s" eq_refl) as H2.
    pose proof (Hpos 3 "alpha" eq_refl) as H3.
    pose proof (Hpos 4 "delta" eq_refl) as H4.
    pose proof (Hpos 5 "sigma" eq_refl) as H5.
    pose proof (Hpos 6 "sigma_eps" eq_refl) as H6.
    unfold _params_to_array, getitem.
    destruct a as [|v1 [|v2 [|v3 [|v4 [|v5 [|v6 [|v7 a]]]]]]];
      simpl in Hk; unfold keys in Hk; simplify_eq/=;
      rewrite ?H0, ?H1, ?H2, ?H3, ?H4, ?H5, ?H6; reflexivity.
Qed.
End dict.
End ConversionEdgeFacts.

(** ** The observation window *)

Module WindowFacts.
Import Conversions Calibration Examples Scenarios CalibrationFacts.
Local Open Scope R_scope.


Lemma sublist_List_filter {A} (f : A → bool) (l : list A) :
  sublist (List.filter f l) l.
Proof.
  induction l as [|a l IH]; simpl; [constructor|].
  destruct (f a); [apply sublist_skip|apply sublist_cons]; exact IH.
Qed.

(** X4.  On years in ascending order the window holds exactly the
    observations of the country that are complete in the required series
    and, when bounds are given, whose year lies between them (both ends
    included, an end that is [None] left open), in the order of the data
    set. *)
Theorem window_contents required_vars data iso3_code bounds rows
    start stop tmp_data :
  data !! iso3_code = Some rows →
  StronglySorted Z.le (index rows) →
  window required_vars data iso3_code bounds = Ok (start, stop, tmp_data) →
  (∀ o, o ∈ tmp_data ↔
        o ∈ rows ∧ (∀ v, v ∈ required_vars → value o v ≠ NaN) ∧
        match bounds with
        | None => True
        | Some (lo, hi) =>
            (∀ a, lo = Some a → (a ≤ year o)%Z) ∧
            (∀ b, hi = Some b → (year o ≤ b)%Z)
        end) ∧
  sublist tmp_data rows.
Proof.
  intros Hdata Hsorted Hwin.
  pose proof (window_selection required_vars data iso3_code bounds rows
                Hdata Hsorted) as Hsel.
  cbv zeta in Hsel. destruct Hsel as [Hsel _].
  rewrite (Hsel _ _ _ Hwin). split; [|apply sublist_List_filter].
  intros o. rewrite elem_of_List_filter, andb_true_iff, complete_spec.
  assert (Hin : match bounds with
                | None => true
                | Some (lo, hi) =>
                    from_option (λ a, (a <=? year o)%Z) true lo
                    && from_option (λ b, (year o <=? b)%Z) true hi
                end = true
                ↔ match bounds with
                  | None => True
                  | Some (lo, hi) =>
                      (∀ a, lo = Some a → (a ≤ year o)%Z) ∧
                      (∀ b, hi = Some b → (year o ≤ b)%Z)
                  end).
  { destruct bounds as [[lo hi]|]; [|tauto].
    rewrite andb_true_iff.
    destruct lo as [a|], hi as [b|]; simpl; rewrite ?Z.leb_le;
      split; intros H; repeat split; intros; simplify_eq;
      try tauto; try (destruct H as [H1 H2]; eauto). }
  rewrite Hin. tauto.
Qed.

(** X5.  Open bounds drop no complete observation: with
    [bounds=(None, None)] the window is the country's complete
    observations, and the same holds for [bounds=None] when the years of
    the data set are in ascending order. *)
Theorem window_open_bounds required_vars data iso3_code bounds rows
    start stop tmp_data :
  data !! iso3_code = Some rows →
  window required_vars data iso3_code bounds = Ok (start, stop, tmp_data) →
  bounds = Some (None, None) ∨
  (bounds = None ∧ StronglySorted Z.le (index rows)) →
  tmp_data = dropna required_vars rows.
Proof.
  intros Hdata Hwin Hb.
  rewrite (window_unfold _ _ _ _ _ Hdata) in Hwin.
  assert (Hs : bounds = None →
               StronglySorted Z.le (index rows) →
               StronglySorted Z.le (index (dropna required_vars rows))).
  { intros _. unfold index, dropna. apply sorted_filter. }
  destruct (dropna required_vars rows) as [|o1 tl] eqn:Hdrop; [discriminate|].
  destruct Hb as [->|[-> Hsorted]];
    cbv beta iota zeta delta [fst snd] in Hwin; injection Hwin as <- <- <-.
  - change (loc_frame None None (o1 :: tl) = o1 :: tl).
    apply (filter_all (λ o, in_slice None None (year o)) (o1 :: tl)).
    intros o _. reflexivity.
  - change (loc_frame (head (index (o1 :: tl))) (last (index (o1 :: tl)))
              (o1 :: tl) = o1 :: tl).
    apply (filter_all
             (λ o, in_slice (head (index (o1 :: tl))) (last (index (o1 :: tl)))
                     (year o)) (o1 :: tl)).
    intros o Ho.
    apply (sorted_head_last (index (o1 :: tl))); [apply Hs; auto|].
    unfold index. apply list_elem_of_fmap. exists o.
    split; [reflexivity|assumption].
Qed.

Lemma window_gap :
  window four data_gap "GAP" None = Ok (Some 2000%Z, Some 2002%Z, [row 2000; row 2002]).
Proof. reflexivity. Qed.

Lemma window_contents_witness :
  data_gap !! "GAP" = Some [row 2000; row_gap; row 2002] ∧
  StronglySorted Z.le (index [row 2000; row_gap; row 2002]) ∧
  window four data_gap "GAP" (Some (Some 2001%Z, Some 2002%Z))
    = Ok (Some 2001%Z, Some 2002%Z, [row 2002]) ∧
  (∀ o, o ∈ [row 2002] ↔
        o ∈ [row 2000; row_gap; row 2002] ∧
        (∀ v, v ∈ four → value o v ≠ NaN) ∧
        (∀ a, Some 2001%Z = Some a → (a ≤ year o)%Z) ∧
        (∀ b, Some 2002%Z = Some b → (year o ≤ b)%Z)) ∧
  sublist [row 2002] [row 2000; row_gap; row 2002].
Proof.
  assert (Hs : StronglySorted Z.le (index [row 2000; row_gap; row 2002])).
  { simpl. repeat constructor; lia. }
  split; [reflexivity|]. split; [exact Hs|]. split; [reflexivity|].
  exact (window_contents four data_gap "GAP"
           (Some (Some 2001%Z, Some 2002%Z)) _ _ _ _ eq_refl Hs eq_refl).
Defined.

Lemma window_open_bounds_witness :
  data_gap !! "GAP" = Some [row 2000; row_gap; row 2002] ∧
  window four data_gap "GAP" None
    = Ok (Some 2000%Z, Some 2002%Z, [row 2000; row 2002]) ∧
  StronglySorted Z.le (index [row 2000; row_gap; row 2002]) ∧
  [row 2000; row 2002] = dropna four [row 2000; row_gap; row 2002].
Proof.
  assert (Hs : StronglySorted Z.le (index [row 2000; row_gap; row 2002])).
  { simpl. repeat constructor; lia. }
  split; [reflexivity|]. split; [exact window_gap|]. split; [exact Hs|].
  apply (window_open_bounds four data_gap "GAP" None _ _ _ _ eq_refl window_gap).
  right. split; [reflexivity|exact Hs].
Defined.

End WindowFacts.

(** ** The moment estimates *)

Module MomentFacts.
Import Conversions Calibration Examples Scenarios CalibrationFacts WindowFacts.
Local Open Scope R_scope.




Lemma ssr_nonneg pts b0 b1 : 0 <= ssr pts b0 b1.
Proof.
  unfold ssr. induction pts as [|p pts IH]; simpl; [lra|].
  pose proof (sqr_nonneg (p.2 - (b0 + b1 * p.1))). lra.
Qed.

(** Observations that lie on a line are fitted by that line. *)
Lemma exact_fit pts b0 b1 :
  determinant pts ≠ 0 → (∀ p, p ∈ pts → p.2 = b0 + b1 * p.1) →
  intercept pts = b0 ∧ slope pts = b1.
Proof.
  intros Hdet Hline.
  assert (Hzero : ssr pts b0 b1 = 0).
  { clear Hdet. unfold ssr. induction pts as [|p pts IH]; simpl; [reflexivity|].
    rewrite IH by (intros q Hq; apply Hline; right; exact Hq).
    rewrite (Hline p) by left. ring. }
  assert (Hfit : is_ols_fit pts b0 b1).
  { intros c0 c1. rewrite Hzero. apply ssr_nonneg. }
  destruct (ols_fit_unique pts b0 b1 Hdet Hfit) as [-> ->]. split; reflexivity.
Qed.

Lemma trend_points_elem (f : nat → R) (N : nat) (p : R * R) :
  p ∈ trend_points (map f (seq 0 N)) → ∃ i : nat, p = (INR i, f i).
Proof.
  unfold trend_points. rewrite length_map, length_seq.
  generalize 0%nat. induction N as [|N IH]; intros a; simpl.
  - intros H. inversion H.
  - intros H. apply elem_of_cons in H. destruct H as [->|H].
    + exists a. reflexivity.
    + apply (IH (S a)). exact H.
Qed.

(** The logarithms of an exponential path lie on a line over the trend. *)
Lemma exponential_fit (L n : R) (N : nat) :
  (2 ≤ N)%nat → 0 < L →
  let pts := trend_points (map ln (map (λ i, L * exp (n * INR i)) (seq 0 N))) in
  exp (intercept pts) = L ∧ slope pts = n.
Proof.
  intros HN HL pts.
  assert (Hpts : pts = trend_points (map (λ i, ln L + n * INR i) (seq 0 N))).
  { unfold pts. f_equal. rewrite map_map. apply map_ext. intros i.
    rewrite ln_mult by (lra || apply exp_pos). rewrite ln_exp. reflexivity. }
  assert (Hdet : determinant pts ≠ 0).
  { rewrite Hpts. unfold trend_points. apply determinant_trend.
    rewrite length_map, length_seq. exact HN. }
  destruct (exact_fit pts (ln L) n Hdet) as [Hi Hs].
  - intros p Hp. rewrite Hpts in Hp.
    apply trend_points_elem in Hp. destruct Hp as (i & ->). simpl. ring.
  - rewrite Hi, Hs. split; [apply exp_ln; exact HL|reflexivity].
Qed.

Section moments.
Variable solow_residual : dict → R → R → R → R.
Variable ols_singular : list (R * R) → result (list R).

Local Abbreviation match_moments :=
  (Calibration.match_moments solow_residual ols_singular).
Local Abbreviation technology := (Calibration.technology solow_residual).
Local Abbreviation estimates := (Calibration.estimates solow_residual).

(** X6.  Whenever [match_moments] returns, its dictionary has the seven
    keys [s], [alpha], [delta], [n], [L0], [g], [A0] and no other; [n] and
    [g] are numbers, [L0] and [A0] positive numbers (exponentials of the
    intercepts).  It has no [sigma] (nor [sigma_eps]), so
    [_params_to_array] raises [KeyError('sigma')] on it; and the store is
    as before the call. *)
Theorem match_moments_dictionary data iso3_code bounds w p w' :
  match_moments data iso3_code bounds w = (Ok p, w') →
  (∀ k, is_Some (p !! k) ↔
        k ∈ ["s"; "alpha"; "delta"; "n"; "L0"; "g"; "A0"]) ∧
  (∃ n L0 g A0,
     p !! "n" = Some (Num n) ∧ p !! "L0" = Some (Num L0) ∧ 0 < L0 ∧
     p !! "g" = Some (Num g) ∧ p !! "A0" = Some (Num A0) ∧ 0 < A0) ∧
  _params_to_array p = Raise (KeyError "sigma") ∧
  w' = w.
Proof.
  intros H.
  apply (match_moments_Ok solow_residual ols_singular) in H.
  destruct H as (start & stop & tmp_data & beta_n & beta_g & n & b0 & g & c0
                 & _ & _ & _ & _ & _ & _ & _ & -> & ->).
  split; [|split; [|split]].
  - intros k. rewrite !elem_of_cons, elem_of_nil. split.
    + intros Hk.
      destruct (decide (k = "s")) as [->|]; [tauto|].
      destruct (decide (k = "alpha")) as [->|]; [tauto|].
      destruct (decide (k = "delta")) as [->|]; [tauto|].
      destruct (decide (k = "n")) as [->|]; [tauto|].
      destruct (decide (k = "L0")) as [->|]; [tauto|].
      destruct (decide (k = "g")) as [->|]; [tauto|].
      destruct (decide (k = "A0")) as [->|]; [tauto|].
      exfalso. unfold dict_of in Hk. simpl in Hk.
      rewrite !lookup_insert_ne, lookup_empty in Hk by congruence.
      destruct Hk as [? Hk]. discriminate.
    + intros [->|[->|[->|[->|[->|[->|[->|[]]]]]]]];
        unfold dict_of; simpl; by simplify_map_eq.
  - exists n, (exp b0), g, (exp c0).
    unfold dict_of; simpl.
    repeat split; try apply exp_pos; by simplify_map_eq.
  - unfold _params_to_array, getitem, dict_of. simpl.
    by simplify_map_eq.
  - reflexivity.
Qed.


(** X8.  Exponential paths are recovered exactly: on a window of at least
    two observations, if employment is [L * exp(n * i)] at the [i]-th
    observation, [match_moments] returns this [n] and [L0 = L]; and if the
    Solow residual under the model's parameters is [A * exp(g * i)], it
    returns this [g] and [A0 = A]. *)
Theorem exponential_paths_recovered data iso3_code bounds start stop
    tmp_data w :
  window six data iso3_code bounds = Ok (start, stop, tmp_data) →
  (2 ≤ length tmp_data)%nat →
  ∃ p,
    match_moments data iso3_code bounds w = (Ok p, w) ∧
    (∀ L n, 0 < L →
       values (column emp tmp_data)
         = map (λ i, L * exp (n * INR i)) (seq 0 (length tmp_data)) →
       p !! "n" = Some (Num n) ∧ p !! "L0" = Some (Num L)) ∧
    (∀ A g, 0 < A →
       values (technology (deref w (model_params w)) start stop tmp_data)
         = map (λ i, A * exp (g * INR i)) (seq 0 (length tmp_data)) →
       p !! "g" = Some (Num g) ∧ p !! "A0" = Some (Num A)).
Proof.
  intros Hwin HN.
  exists (estimates (deref w (model_params w)) start stop tmp_data).
  split; [apply match_moments_run; assumption|].
  destruct (estimates_lookup solow_residual (deref w (model_params w))
              start stop tmp_data)
    as (_ & _ & _ & Hn & HL0 & Hg & HA0).
  split.
  - intros L n HL Hemp. rewrite Hn, HL0, Hemp.
    destruct (exponential_fit L n (length tmp_data) HN HL) as [-> ->].
    split; reflexivity.
  - intros A g HA Htech. rewrite Hg, HA0, Htech.
    destruct (exponential_fit A g (length tmp_data) HN HA) as [-> ->].
    split; reflexivity.
Qed.
End moments.

Lemma window_growing :
  window six data_growing "GRW" None
  = Ok (Some 2000%Z, Some 2002%Z, rows_growing).
Proof. reflexivity. Qed.

Lemma match_moments_growing :
  Calibration.match_moments residual_output ols_raises data_growing "GRW" None
    w0
  = (Ok (Calibration.estimates residual_output (deref w0 (model_params w0))
           (Some 2000%Z) (Some 2002%Z) rows_growing), w0).
Proof.
  apply match_moments_run; [exact window_growing|]. simpl. lia.
Qed.

Lemma match_moments_dictionary_witness :
  Calibration.match_moments residual_output ols_raises data_growing "GRW" None
    w0
  = (Ok (Calibration.estimates residual_output (deref w0 (model_params w0))
           (Some 2000%Z) (Some 2002%Z) rows_growing), w0) ∧
  _params_to_array
    (Calibration.estimates residual_output (deref w0 (model_params w0))
       (Some 2000%Z) (Some 2002%Z) rows_growing)
  = Raise (KeyError "sigma").
Proof.
  split; [exact match_moments_growing|].
  exact (proj1 (proj2 (proj2
    (match_moments_dictionary residual_output ols_raises data_growing "GRW"
       None w0 _ w0 match_moments_growing)))).
Defined.


Lemma exponential_paths_recovered_witness :
  window six data_growing "GRW" None
  = Ok (Some 2000%Z, Some 2002%Z, rows_growing) ∧
  (2 ≤ length rows_growing)%nat ∧
  ∃ p,
    Calibration.match_moments residual_output ols_raises data_growing "GRW"
      None w0 = (Ok p, w0) ∧
    p !! "n" = Some (Num 0.01) ∧ p !! "L0" = Some (Num 2) ∧
    p !! "g" = Some (Num 0.02) ∧ p !! "A0" = Some (Num 3).
Proof.
  assert (HN : (2 ≤ length rows_growing)%nat) by (simpl; lia).
  split; [exact window_growing|]. split; [exact HN|].
  destruct (exponential_paths_recovered residual_output ols_raises
              data_growing "GRW" None _ _ _ w0 window_growing HN)
    as (p & Hp & Hemp & Htech).
  exists p. split; [exact Hp|].
  destruct (Hemp 2 0.01) as [Hn HL]; [lra|reflexivity|].
  destruct (Htech 3 0.02) as [Hg HA]; [lra|reflexivity|].
  auto.
Defined.
End MomentFacts.

(** ** The objective and the estimation *)

Module EstimationFacts.
Import Conversions Calibration Examples Scenarios.
Import ConversionFacts CalibrationFacts ConversionEdgeFacts WindowFacts.
Local Open Scope R_scope.

(** The dictionary that the objective installs depends on the model's
    dictionary only outside the keys of the array. *)
Lemma installed_seven (w1 w2 : world) (params_array : list fval) :
  length params_array = 7%nat →
  (∀ k, k ∉ @keys →
     deref w1 (model_params w1) !! k = deref w2 (model_params w2) !! k) →
  installed w1 params_array = installed w2 params_array.
Proof.
  intros Hlen Hout. apply map_eq. intros k.
  unfold installed, update. rewrite !lookup_union.
  destruct (array_to_params_lookup params_array) as [Hpos Hnot].
  destruct (decide (k ∈ @keys)) as [Hin|Hnin].
  - apply list_elem_of_lookup in Hin. destruct Hin as [i Hi].
    rewrite (Hpos i k Hi).
    assert (Hlt : (i < 7)%nat)
      by (apply lookup_lt_Some in Hi; exact Hi).
    destruct (lookup_lt_is_Some_2 params_array i) as [v Hv]; [lia|].
    rewrite Hv. destruct (_ !! k), (_ !! k); reflexivity.
  - rewrite (Hnot k Hnin), (Hout k Hnin). reflexivity.
Qed.

Lemma fsum_Num (h : R → R) (rs : list R) :
  fsum (map (λ r, Num (h r)) rs) = Num (sum (map h rs)).
Proof.
  induction rs as [|r rs IH]; [reflexivity|].
  change (fadd (Num (h r)) (fsum (map (λ r, Num (h r)) rs))
          = Num (h r + sum (map h rs))).
  rewrite IH. reflexivity.
Qed.

Lemma sqrt_2PI_pos : 0 < sqrt (2 * PI).
Proof. apply sqrt_lt_R0. pose proof PI_RGT_0. lra. Qed.

(** The logarithm of the normal density. *)
Lemma log_norm_pdf (r sigma : R) :
  0 < sigma →
  flog (norm_pdf r 0 (Num sigma))
  = Num (- (r * r / (2 * sigma * sigma) + ln (sqrt (2 * PI) * sigma))).
Proof.
  intros Hs. unfold norm_pdf. destruct (Rlt_dec 0 sigma) as [_|]; [|lra].
  simpl. f_equal.
  assert (Hd : 0 < sqrt (2 * PI) * sigma)
    by (apply Rmult_lt_0_compat; [apply sqrt_2PI_pos|exact Hs]).
  unfold Rdiv at 1. rewrite ln_mult; [|apply exp_pos|apply Rinv_0_lt_compat; exact Hd].
  rewrite ln_exp, ln_Rinv by exact Hd.
  field. lra.
Qed.

Lemma negative_log_likelihood_positive (sigma : R) (rs : list R) :
  0 < sigma →
  Likelihood.negative_log_likelihood (Num sigma) rs
  = Num (INR (length rs) * ln (sqrt (2 * PI) * sigma)
         + sum (map (λ r, r * r) rs) / (2 * sigma * sigma)).
Proof.
  intros Hs. unfold Likelihood.negative_log_likelihood.
  rewrite (map_ext _ (λ r, Num (- (r * r / (2 * sigma * sigma)
                                   + ln (sqrt (2 * PI) * sigma)))))
    by (intros r; apply log_norm_pdf; exact Hs).
  rewrite (fsum_Num (λ r, - (r * r / (2 * sigma * sigma)
                            + ln (sqrt (2 * PI) * sigma)))).
  simpl. f_equal.
  induction rs as [|r rs IH].
  - simpl. unfold Rdiv. ring.
  - change (length (r :: rs)) with (S (length rs)). rewrite S_INR.
    change (sum (map (λ r, r * r) (r :: rs)))
      with (r * r + sum (map (λ r, r * r) rs)).
    change (sum (map (λ r0, - (r0 * r0 / (2 * sigma * sigma)
                               + ln (sqrt (2 * PI) * sigma))) (r :: rs)))
      with (- (r * r / (2 * sigma * sigma) + ln (sqrt (2 * PI) * sigma))
            + sum (map (λ r0, - (r0 * r0 / (2 * sigma * sigma)
                                 + ln (sqrt (2 * PI) * sigma))) rs)).
    unfold Rdiv in *. lra.
Qed.

Lemma negative_log_likelihood_nan (sigma_eps : fval) (rs : list R) :
  sigma_eps = NaN ∨ (∃ sigma, sigma_eps = Num sigma ∧ sigma <= 0) →
  rs ≠ [] →
  Likelihood.negative_log_likelihood sigma_eps rs = NaN.
Proof.
  intros Hs Hne. destruct rs as [|r rs]; [congruence|].
  unfold Likelihood.negative_log_likelihood. simpl.
  assert (Hpdf : norm_pdf r 0 sigma_eps = NaN).
  { destruct Hs as [->|(sigma & -> & Hle)]; [reflexivity|].
    unfold norm_pdf. destruct (Rlt_dec 0 sigma); [lra|reflexivity]. }
  rewrite Hpdf. reflexivity.
Qed.

Section objective.
Variable solow_residual : dict → R → R → R → R.
Variable output_elasticity : dict → R → R.
Variable validate_params : dict → bool.

Local Abbreviation _likelihood_function :=
  (Calibration._likelihood_function solow_residual output_elasticity
     validate_params).
Local Abbreviation value_at :=
  (Likelihood.value_at solow_residual output_elasticity).
Local Abbreviation residual :=
  (Likelihood.residual solow_residual output_elasticity).

(** One call of the objective, start to end. *)
Lemma likelihood_run params_array output capital labor labor_share w :
  _likelihood_function params_array output capital labor labor_share w
  = if validate_params (installed w params_array)
    then (value_at (installed w params_array) output capital labor
            labor_share,
          mk_world (heap w ++ [installed w params_array]) (length (heap w)))
    else (Raise AttributeError,
          mk_world (heap w ++ [installed w params_array]) (model_params w)).
Proof.
  assert (Hcopy : deref (mk_world (heap w ++ [deref w (model_params w)])
                           (model_params w)) (length (heap w))
                  = deref w (model_params w)).
  { unfold deref at 1. simpl. by rewrite lookup_app_r, Nat.sub_diag by lia. }
  assert (Hheap : <[length (heap w) := installed w params_array]>
                    (heap w ++ [deref w (model_params w)])
                  = heap w ++ [installed w params_array]).
  { rewrite insert_app_r_alt, Nat.sub_diag by lia. reflexivity. }
  assert (Hnew : ∀ l, deref (mk_world (heap w ++ [installed w params_array]) l)
                        (length (heap w))
                      = installed w params_array).
  { intros l. unfold deref. simpl.
    by rewrite lookup_app_r, Nat.sub_diag by lia. }
  unfold Calibration._likelihood_function.
  cbv [bind copy dict_update Calibration.set_params].
  cbn [model_params heap]. rewrite Hcopy.
  fold (installed w params_array). rewrite Hheap, Hnew.
  destruct (validate_params (installed w params_array)); [|reflexivity].
  cbv [Calibration.evaluate_solow_residual
       Calibration.evaluate_output_elasticity get_params bind ret lift].
  cbn [model_params heap]. rewrite Hnew.
  unfold Likelihood.value_at, rbind.
  destruct (getitem (installed w params_array) "sigma_eps"); reflexivity.
Qed.

(** X9.  The objective fails in two ways only: with [AttributeError]
    exactly when the validation rejects the parameters it installs, and
    with [KeyError('sigma_eps')] exactly when they pass but neither the
    array (fewer than seven elements) nor the model provides [sigma_eps].
    An array of seven or more elements that passes the validation always
    gets a value. *)
Theorem likelihood_failures params_array output capital labor labor_share w :
  let outcome :=
    (_likelihood_function params_array output capital labor labor_share w).1
  in
  (outcome = Raise AttributeError
   ↔ validate_params (installed w params_array) = false) ∧
  (outcome = Raise (KeyError "sigma_eps")
   ↔ validate_params (installed w params_array) = true ∧
     installed w params_array !! "sigma_eps" = None) ∧
  (∀ e, outcome = Raise e → e = AttributeError ∨ e = KeyError "sigma_eps") ∧
  (validate_params (installed w params_array) = true →
   (7 ≤ length params_array)%nat → ∃ v, outcome = Ok v).
Proof.
  intros outcome. subst outcome. rewrite likelihood_run.
  destruct (array_to_params_lookup params_array) as [Hpos _].
  pose proof (Hpos 6%nat "sigma_eps" eq_refl) as Hse.
  destruct (validate_params (installed w params_array)); simpl.
  - unfold Likelihood.value_at, getitem.
    destruct (installed w params_array !! "sigma_eps") as [v|] eqn:Hv; simpl.
    + split; [split; discriminate|].
      split; [split; [discriminate|intros [_ ?]; discriminate]|].
      split; [discriminate|]. eauto.
    + split; [split; discriminate|].
      split; [split; [auto|reflexivity]|].
      split; [intros e [= <-]; right; reflexivity|].
      intros _ Hlen. exfalso.
      destruct (lookup_lt_is_Some_2 params_array 6) as [v Hv']; [lia|].
      unfold installed, update in Hv. rewrite lookup_union, Hse, Hv' in Hv.
      destruct (deref w (model_params w) !! "sigma_eps"); discriminate.
  - split; [split; reflexivity|].
    split; [split; [discriminate|intros [? _]; discriminate]|].
    split; [intros e [= <-]; left; reflexivity|]. discriminate.
Qed.

(** X10.  The value of the objective is a function of the parameter
    array and of the model's entries under other keys than the seven
    estimated ones: two calls with the same array of seven elements, on
    models that agree on every key outside [g], [n], [s], [alpha],
    [delta], [sigma], [sigma_eps], return the same outcome, although each
    call reads its parameters from the model's state. *)
Theorem likelihood_depends_on_array params_array output capital labor
    labor_share w1 w2 :
  length params_array = 7%nat →
  (∀ k, k ∉ @keys →
     deref w1 (model_params w1) !! k = deref w2 (model_params w2) !! k) →
  (_likelihood_function params_array output capital labor labor_share w1).1
  = (_likelihood_function params_array output capital labor labor_share w2).1.
Proof.
  intros Hlen Hout. rewrite !likelihood_run.
  rewrite (installed_seven w1 w2 params_array Hlen Hout).
  destruct (validate_params (installed w2 params_array)); reflexivity.
Qed.

(** X11.  For series with one common index without repeated years (so
    that pandas pairs them as they stand), parameters that pass the
    validation, a [sigma_eps] between [1e-6] and [1] and residuals within
    [37 sigma_eps] (where the density of the code neither underflows nor
    overflows), the objective is, as a real number, the Gaussian negative
    log-likelihood of the residuals,
    [N ln(sqrt(2 pi) sigma_eps) + sum r_i^2 / (2 sigma_eps^2)].  With a
    [sigma_eps] that is not positive (or [nan]) and at least one residual
    it is [nan]. *)
Theorem gaussian_likelihood params_array output capital labor labor_share w
    sigma_eps :
  NoDup (labor_share.*1) →
  output.*1 = labor_share.*1 → capital.*1 = labor_share.*1 →
  labor.*1 = labor_share.*1 →
  validate_params (installed w params_array) = true →
  installed w params_array !! "sigma_eps" = Some sigma_eps →
  let rs := values (residual (installed w params_array) output capital labor
                      labor_share) in
  let outcome :=
    (_likelihood_function params_array output capital labor labor_share w).1
  in
  (∀ sigma, sigma_eps = Num sigma → 1e-6 <= sigma <= 1 →
     (∀ r, r ∈ rs → Rabs r <= 37 * sigma) →
     outcome = Ok (Num (INR (length rs) * ln (sqrt (2 * PI) * sigma)
                        + sum (map (λ r, r * r) rs) / (2 * sigma * sigma)))) ∧
  (sigma_eps = NaN ∨ (∃ sigma, sigma_eps = Num sigma ∧ sigma <= 0) →
     rs ≠ [] → outcome = Ok NaN).
Proof.
  intros _ _ _ _ Hv Hse rs outcome. subst outcome.
  rewrite likelihood_run, Hv. simpl.
  unfold Likelihood.value_at, getitem. rewrite Hse. simpl. fold rs.
  split.
  - intros sigma -> Hrange _. f_equal.
    apply negative_log_likelihood_positive. lra.
  - intros Hbad Hne. f_equal.
    apply negative_log_likelihood_nan; assumption.
Qed.
End objective.

Section estimation.
Variable solow_residual : dict → R → R → R → R.
Variable output_elasticity : dict → R → R.
Variable validate_params : dict → bool.
Variable ols_singular : list (R * R) → result (list R).
Variable minimize :
  (list fval → M fval) → list fval → string → list (option R * option R) →
  M OptimizeResult.

Local Abbreviation match_moments :=
  (Calibration.match_moments solow_residual ols_singular).
Local Abbreviation maximize_likelihood :=
  (Calibration.maximize_likelihood solow_residual output_elasticity
     validate_params ols_singular minimize).

(** Where the window of [maximize_likelihood] cannot be selected, the
    one of [match_moments] cannot either, for the same reason. *)
Lemma window_four_six data iso3_code bounds e :
  window four data iso3_code bounds = Raise e →
  window six data iso3_code bounds = Raise e.
Proof.
  intros H.
  destruct (data !! iso3_code) as [rows|] eqn:Hdata.
  - rewrite (window_unfold _ _ _ _ _ Hdata) in H.
    rewrite (window_unfold _ _ _ _ _ Hdata).
    destruct (dropna four rows) as [|o tl] eqn:Hfour.
    + assert (Hsix : dropna six rows = []).
      { apply dropna_nil. intros o Ho.
        destruct (proj1 (dropna_nil four rows) Hfour o Ho) as (v & Hv & Hnan).
        exists v. split; [apply four_six; exact Hv|exact Hnan]. }
      rewrite Hsix. exact H.
    + destruct bounds as [[b1 b2]|]; discriminate.
  - unfold window, major_xs in *. rewrite Hdata in *. exact H.
Qed.

(** X12.  Whatever [match_moments] raises on the arguments of
    [maximize_likelihood] (no such country, no complete observation in
    the six series although there are some in the four that the
    likelihood needs, a failing regression), [maximize_likelihood] raises
    as well: before the optimizer is called, and with the store as it
    was. *)
Theorem maximize_likelihood_propagates data iso3_code bounds method sigma0
    sigma_eps0 w e w' :
  match_moments data iso3_code bounds w = (Raise e, w') →
  maximize_likelihood data iso3_code bounds method sigma0 sigma_eps0 w
  = (Raise e, w).
Proof.
  intros Hmm.
  assert (Hw : w' = w).
  { pose proof (preserves_match_moments solow_residual ols_singular data
                  iso3_code bounds w) as Hp.
    rewrite Hmm in Hp. exact Hp. }
  subst w'.
  destruct (window four data iso3_code bounds)
    as [[[start stop] tmp_data]|e4] eqn:Hfour.
  - unfold Calibration.maximize_likelihood. unfold four in Hfour.
    unfold bind at 1. unfold lift at 1. rewrite Hfour.
    cbv [bind lift Calibration.evaluate_solow_residual get_params ret
         Calibration._cobb_douglas_initial_guess].
    rewrite Hmm. reflexivity.
  - pose proof (window_four_six _ _ _ _ Hfour) as Hsix.
    unfold Calibration.match_moments in Hmm. unfold six in Hsix.
    unfold bind at 1 in Hmm. unfold lift at 1 in Hmm. rewrite Hsix in Hmm.
    injection Hmm as <-.
    unfold Calibration.maximize_likelihood. unfold four in Hfour.
    unfold bind at 1. unfold lift at 1. rewrite Hfour. reflexivity.
Qed.

(** What [maximize_likelihood] returns beside a successful result. *)
Lemma maximize_likelihood_Estimates data iso3_code bounds method sigma0
    sigma_eps0 w res p w1 :
  maximize_likelihood data iso3_code bounds method sigma0 sigma_eps0 w
    = (Ok (Estimates res p), w1) →
  ∃ A0 L0 K0,
    p = <["K0" := Num K0]> (<["L0" := Num L0]> (<["A0" := Num A0]>
          (_array_to_params (x res)))).
Proof.
  unfold Calibration.maximize_likelihood. intros H.
  apply bind_Ok in H as ([[start stop] tmp_data] & w2 & _ & H).
  apply bind_Ok in H as (technology & w3 & _ & H).
  apply bind_Ok in H as (initial_guess & w4 & _ & H).
  apply bind_Ok in H as (result & w5 & _ & H).
  destruct (success result).
  - apply bind_Ok in H as (A0 & w6 & _ & H).
    apply bind_Ok in H as (L0 & w7 & _ & H).
    apply bind_Ok in H as (K0 & w8 & _ & H).
    apply ret_Ok in H as [[= -> ->] _].
    exists A0, L0, K0. reflexivity.
  - apply ret_Ok in H as [[=] _].
Qed.

(** X13.  The dictionary of a successful estimation always provides the
    initial condition: once it is assigned to [model.params] (and passes
    the validation), [_initial_condition] raises no [KeyError] and returns
    [K0 / (A0 * L0)] of that dictionary, a number whenever [A0 * L0] is
    not zero.  The dictionary of [match_moments] does not: it has no
    [K0]. *)
Theorem initial_condition_of_estimates data iso3_code bounds method sigma0
    sigma_eps0 w res p w1 :
  maximize_likelihood data iso3_code bounds method sigma0 sigma_eps0 w
    = (Ok (Estimates res p), w1) →
  validate_params p = true →
  ∃ K0 A0 L0,
    p !! "K0" = Some (Num K0) ∧ p !! "A0" = Some (Num A0) ∧
    p !! "L0" = Some (Num L0) ∧
    bind (Simulation.assign_params validate_params p)
      (λ _, Simulation._initial_condition) w1
    = (Ok (Simulation.fdiv (Num K0) (Num (A0 * L0))),
       mk_world (heap w1 ++ [p]) (length (heap w1))) ∧
    (A0 * L0 ≠ 0 →
     Simulation.fdiv (Num K0) (Num (A0 * L0)) = Num (K0 / (A0 * L0))) ∧
    (∀ q w2 w3, match_moments data iso3_code bounds w2 = (Ok q, w3) →
       validate_params q = true →
       bind (Simulation.assign_params validate_params q)
         (λ _, Simulation._initial_condition) w3
       = (Raise (KeyError "K0"),
          mk_world (heap w3 ++ [q]) (length (heap w3)))).
Proof.
  intros Hml Hv.
  destruct (maximize_likelihood_Estimates _ _ _ _ _ _ _ _ _ _ Hml)
    as (A0 & L0 & K0 & ->).
  assert (Hderef : ∀ d (w : world),
            deref (mk_world (heap w ++ [d]) (length (heap w)))
              (length (heap w)) = d).
  { intros d w2. unfold deref. simpl.
    by rewrite lookup_app_r, Nat.sub_diag by lia. }
  exists K0, A0, L0.
  split; [by simplify_map_eq|]. split; [by simplify_map_eq|].
  split; [by simplify_map_eq|]. split; [|split].
  - unfold Simulation.assign_params, bind at 1. rewrite Hv.
    cbv [Simulation._initial_condition bind get_params lift ret].
    cbn [model_params heap]. rewrite Hderef.
    unfold getitem. by simplify_map_eq.
  - intros Hne. unfold Simulation.fdiv.
    destruct (Req_dec_T (A0 * L0) 0); [contradiction|reflexivity].
  - intros q w2 w3 Hq Hvq.
    assert (HK0 : q !! "K0" = None).
    { apply (match_moments_Ok solow_residual ols_singular) in Hq.
      destruct Hq as (start & stop & tmp_data & beta_n & beta_g & n & b0 & g
                      & c0 & _ & _ & _ & _ & _ & _ & _ & -> & _).
      unfold dict_of. simpl. by simplify_map_eq. }
    unfold Simulation.assign_params, bind at 1. rewrite Hvq.
    cbv [Simulation._initial_condition bind get_params lift ret].
    cbn [model_params heap]. rewrite Hderef.
    unfold getitem. rewrite HK0. reflexivity.
Qed.
Lemma preserves_finish technology labor capital result :
  preserves (finish technology labor capital result).
Proof.
  unfold finish. destruct (success result); [|apply preserves_ret].
  apply preserves_bind; [apply preserves_lift|]. intros A0.
  apply preserves_bind; [apply preserves_lift|]. intros L0.
  apply preserves_bind; [apply preserves_lift|]. intros K0.
  apply preserves_ret.
Qed.

(** X26.  [maximize_likelihood] itself never writes to the store: after
    the call the store is as before, or, if the optimizer was reached, as
    the optimizer left it (that is, as the last evaluation of the
    objective left [model.params]).  The estimates that are returned are
    not installed in the model. *)
Theorem maximize_likelihood_store data iso3_code bounds method sigma0
    sigma_eps0 w :
  (maximize_likelihood data iso3_code bounds method sigma0 sigma_eps0 w).2 = w
  ∨ ∃ start stop tmp_data initial_guess,
      window four data iso3_code bounds = Ok (start, stop, tmp_data) ∧
      Calibration._cobb_douglas_initial_guess solow_residual ols_singular
        data iso3_code bounds sigma0 sigma_eps0 w = (Ok initial_guess, w) ∧
      (maximize_likelihood data iso3_code bounds method sigma0 sigma_eps0 w).2
      = (minimize
           (Calibration.objective solow_residual output_elasticity
              validate_params start stop tmp_data)
           initial_guess method bnds w).2.
Proof.
  destruct (window four data iso3_code bounds)
    as [[[start stop] tmp_data]|e4] eqn:Hfour.
  - destruct (Calibration._cobb_douglas_initial_guess solow_residual
                ols_singular data iso3_code bounds sigma0 sigma_eps0 w)
      as [[x0|e] w1] eqn:Hguess.
    + assert (Hw : w1 = w).
      { pose proof (preserves_initial_guess solow_residual ols_singular data
                      iso3_code bounds sigma0 sigma_eps0 w) as Hp.
        rewrite Hguess in Hp. exact Hp. }
      subst w1. right. exists start, stop, tmp_data, x0.
      split; [reflexivity|]. split; [reflexivity|].
      rewrite (maximize_likelihood_run solow_residual ols_singular
                 output_elasticity validate_params minimize _ _ _ _ _ _ _ _ _
                 _ _ Hfour Hguess).
      unfold bind.
      destruct (minimize _ x0 method bnds w) as [[res|e] w1]; [|reflexivity].
      apply preserves_finish.
    + left.
      assert (Hw : w1 = w).
      { pose proof (preserves_initial_guess solow_residual ols_singular data
                      iso3_code bounds sigma0 sigma_eps0 w) as Hp.
        rewrite Hguess in Hp. exact Hp. }
      subst w1.
      unfold Calibration.maximize_likelihood. unfold four in Hfour.
      unfold bind at 1. unfold lift at 1. rewrite Hfour.
      unfold bind at 1.
      unfold Calibration.evaluate_solow_residual at 1.
      unfold bind at 1, get_params at 1, ret at 1.
      unfold bind at 1. rewrite Hguess. reflexivity.
  - left. unfold Calibration.maximize_likelihood. unfold four in Hfour.
    unfold bind at 1. unfold lift at 1. rewrite Hfour. reflexivity.
Qed.
End estimation.

Lemma other_keys_agree k :
  k ∉ @keys →
  deref w0 (model_params w0) !! k = deref w_other (model_params w_other) !! k.
Proof.
  intros Hk. apply not_in_keys in Hk.
  destruct Hk as (? & ? & ? & ? & ? & ? & ?).
  change (ces_params !! k = other_params !! k).
  unfold ces_params, other_params, dict_of. simpl.
  destruct (decide (k = "K0")) as [->|]; [reflexivity|].
  destruct (decide (k = "A0")) as [->|]; [reflexivity|].
  destruct (decide (k = "L0")) as [->|]; [reflexivity|].
  rewrite !lookup_insert_ne by congruence. reflexivity.
Qed.

Lemma likelihood_depends_on_array_witness :
  length array_g3 = 7%nat ∧
  deref w0 (model_params w0) !! "g" = Some (Num 0.02) ∧
  deref w_other (model_params w_other) !! "g" = Some (Num 0.07) ∧
  (Calibration._likelihood_function residual_one elasticity_third accept_all
     array_g3 (column rgdpna rows_abc) (column rkna rows_abc)
     (column emp rows_abc) (column labsh rows_abc) w0).1
  = (Calibration._likelihood_function residual_one elasticity_third accept_all
       array_g3 (column rgdpna rows_abc) (column rkna rows_abc)
       (column emp rows_abc) (column labsh rows_abc) w_other).1.
Proof.
  split; [reflexivity|]. split; [reflexivity|]. split; [reflexivity|].
  exact (likelihood_depends_on_array residual_one elasticity_third accept_all
           array_g3 _ _ _ _ w0 w_other eq_refl other_keys_agree).
Defined.

Lemma gaussian_likelihood_witness :
  NoDup ((column labsh rows_abc).*1) ∧
  (column rgdpna rows_abc).*1 = (column labsh rows_abc).*1 ∧
  (column rkna rows_abc).*1 = (column labsh rows_abc).*1 ∧
  (column emp rows_abc).*1 = (column labsh rows_abc).*1 ∧
  accept_all (installed w0 array_g3) = true ∧
  installed w0 array_g3 !! "sigma_eps" = Some (Num 0.01) ∧
  1e-6 <= 0.01 <= 1 ∧
  let rs := values (Likelihood.residual residual_one elasticity_third
                      (installed w0 array_g3) (column rgdpna rows_abc)
                      (column rkna rows_abc) (column emp rows_abc)
                      (column labsh rows_abc)) in
  rs = [0.6 - (1 - 1 / 3); 0.6 - (1 - 1 / 3); 0.6 - (1 - 1 / 3)] ∧
  (∀ r, r ∈ rs → Rabs r <= 37 * 0.01) ∧
  (Calibration._likelihood_function residual_one elasticity_third accept_all
     array_g3 (column rgdpna rows_abc) (column rkna rows_abc)
     (column emp rows_abc) (column labsh rows_abc) w0).1
  = Ok (Num (INR (length rs) * ln (sqrt (2 * PI) * 0.01)
             + sum (map (λ r, r * r) rs) / (2 * 0.01 * 0.01))).
Proof.
  assert (Hdup : NoDup ((column labsh rows_abc).*1)).
  { simpl. repeat constructor; rewrite ?elem_of_cons, ?elem_of_nil;
      intros H; decompose [or] H; discriminate || assumption. }
  assert (Hse : installed w0 array_g3 !! "sigma_eps" = Some (Num 0.01))
    by reflexivity.
  assert (Hrange : 1e-6 <= 0.01 <= 1) by lra.
  assert (Hrs : values (Likelihood.residual residual_one elasticity_third
                          (installed w0 array_g3) (column rgdpna rows_abc)
                          (column rkna rows_abc) (column emp rows_abc)
                          (column labsh rows_abc))
                = [0.6 - (1 - 1 / 3); 0.6 - (1 - 1 / 3); 0.6 - (1 - 1 / 3)])
    by reflexivity.
  assert (Hsmall : ∀ r,
            r ∈ values (Likelihood.residual residual_one elasticity_third
                          (installed w0 array_g3) (column rgdpna rows_abc)
                          (column rkna rows_abc) (column emp rows_abc)
                          (column labsh rows_abc)) →
            Rabs r <= 37 * 0.01).
  { intros r Hr. rewrite Hrs in Hr.
    rewrite !elem_of_cons, elem_of_nil in Hr.
    assert (Hval : r = 0.6 - (1 - 1 / 3)) by tauto.
    rewrite Hval. apply Rabs_le. lra. }
  split; [exact Hdup|]. do 3 (split; [reflexivity|]).
  split; [reflexivity|]. split; [exact Hse|]. split; [exact Hrange|].
  intros rs. split; [exact Hrs|]. split; [exact Hsmall|].
  exact (proj1 (gaussian_likelihood residual_one elasticity_third accept_all
                  array_g3 _ _ _ _ w0 (Num 0.01) Hdup eq_refl eq_refl eq_refl
                  eq_refl Hse)
           0.01 eq_refl Hrange Hsmall).
Defined.

Lemma match_moments_no_savings :
  Calibration.match_moments residual_one ols_raises data_no_savings "NSV" None
    w0
  = (Raise (AssertionError "Insufficient data to estimate model parameters"),
     w0).
Proof. reflexivity. Qed.

Lemma maximize_likelihood_propagates_witness :
  window four data_no_savings "NSV" None
  = Ok (Some 2000%Z, Some 2001%Z,
        [row_no_savings 2000; row_no_savings 2001]) ∧
  Calibration.match_moments residual_one ols_raises data_no_savings "NSV" None
    w0
  = (Raise (AssertionError "Insufficient data to estimate model parameters"),
     w0) ∧
  Calibration.maximize_likelihood residual_one elasticity_third accept_all
    ols_raises minimize_succeeds data_no_savings "NSV" None "Nelder-Mead"
    (Num 0.5) (Num 0.01) w0
  = (Raise (AssertionError "Insufficient data to estimate model parameters"),
     w0).
Proof.
  split; [reflexivity|]. split; [exact match_moments_no_savings|].
  exact (maximize_likelihood_propagates residual_one elasticity_third
           accept_all ols_raises minimize_succeeds data_no_savings "NSV" None
           "Nelder-Mead" (Num 0.5) (Num 0.01) w0 _ w0
           match_moments_no_savings).
Defined.

Lemma maximize_likelihood_abc :
  Calibration.maximize_likelihood residual_one elasticity_third accept_all
    ols_raises minimize_succeeds data_abc "ABC" None "Nelder-Mead" (Num 1.01)
    (Num 0.01) w0
  = (Ok (Estimates
           (mk_result true seed_abc "Optimization terminated successfully.")
           (<["K0" := Num 1]> (<["L0" := Num 1]> (<["A0" := Num 1]>
              (_array_to_params seed_abc))))), w0).
Proof.
  rewrite (maximize_likelihood_run residual_one ols_raises elasticity_third
             accept_all minimize_succeeds data_abc "ABC" None "Nelder-Mead"
             (Num 1.01) (Num 0.01) w0 _ _ _ seed_abc window_four_abc
             initial_guess_abc).
  reflexivity.
Qed.

Lemma initial_condition_of_estimates_witness :
  let p := <["K0" := Num 1]> (<["L0" := Num 1]> (<["A0" := Num 1]>
             (_array_to_params seed_abc))) in
  Calibration.maximize_likelihood residual_one elasticity_third accept_all
    ols_raises minimize_succeeds data_abc "ABC" None "Nelder-Mead" (Num 1.01)
    (Num 0.01) w0
  = (Ok (Estimates
           (mk_result true seed_abc "Optimization terminated successfully.")
           p), w0) ∧
  accept_all p = true ∧
  ∃ K0 A0 L0,
    p !! "K0" = Some (Num K0) ∧ p !! "A0" = Some (Num A0) ∧
    p !! "L0" = Some (Num L0) ∧
    bind (Simulation.assign_params accept_all p)
      (λ _, Simulation._initial_condition) w0
    = (Ok (Simulation.fdiv (Num K0) (Num (A0 * L0))),
       mk_world (heap w0 ++ [p]) (length (heap w0))).
Proof.
  intros p. split; [exact maximize_likelihood_abc|]. split; [reflexivity|].
  destruct (initial_condition_of_estimates residual_one elasticity_third
              accept_all ols_raises minimize_succeeds data_abc "ABC" None
              "Nelder-Mead" (Num 1.01) (Num 0.01) w0 _ p w0
              maximize_likelihood_abc eq_refl)
    as (K0 & A0 & L0 & HK & HA & HL & Hrun & _).
  exists K0, A0, L0. auto.
Defined.

End EstimationFacts.

(** ** Returns to scale and the intensive form *)

Module ScaleFacts.
Import Production Examples ProductionFacts.
Local Open Scope R_scope.

Lemma power_mult c x y :
  0 < c → 0 <= x → power (c * x) y = power c y * power x y.
Proof.
  intros Hc [Hx|<-].
  - rewrite !power_pos by (try apply Rmult_lt_0_compat; assumption).
    symmetry. apply Rpower_mult_distr; assumption.
  - rewrite Rmult_0_r, (power_pos c) by exact Hc. unfold power.
    destruct (Rlt_dec 0 0) as [H|_]; [lra|].
    destruct (Req_dec_T y 0) as [->|_]; [rewrite Rpower_O by exact Hc|]; ring.
Qed.

Lemma power_split c y : 0 < c → power c y * power c (1 - y) = c.
Proof.
  intros Hc. rewrite !power_pos by exact Hc. rewrite <- Rpower_plus.
  replace (y + (1 - y)) with 1 by ring. apply Rpower_1. exact Hc.
Qed.

Lemma power_0_l y : 0 < y → power 0 y = 0.
Proof. intros Hy. apply power_0. lra. Qed.

(** Scaling both factors of a Cobb-Douglas product. *)
Lemma cobb_douglas_scale (x y alpha c : R) :
  0 <= c → 0 <= x → 0 <= y → 0 < alpha < 1 →
  power (c * x) alpha * power (c * y) (1 - alpha)
  = c * (power x alpha * power y (1 - alpha)).
Proof.
  intros [Hc|<-] Hx Hy Halpha.
  - rewrite !power_mult by assumption.
    rewrite <- (power_split c alpha Hc) at 3. ring.
  - rewrite !Rmult_0_l. rewrite power_0_l by lra. ring.
Qed.

(** X14.  The Cobb-Douglas function has constant returns to scale in
    capital and labor (equation 1.1.2): for every [c >= 0], non-negative
    inputs and [0 < alpha < 1],
    [F(A, c K, c L) = c F(A, K, L)]. *)
Theorem cobb_douglas_constant_returns A K L alpha c :
  0 <= c → 0 <= K → 0 <= A * L → 0 < alpha < 1 →
  cobb_douglas_output A (c * K) (c * L) alpha
  = c * cobb_douglas_output A K L alpha.
Proof.
  intros Hc HK HAL Halpha. unfold cobb_douglas_output.
  replace (A * (c * L)) with (c * (A * L)) by ring.
  apply cobb_douglas_scale; assumption.
Qed.

Lemma mix_nonneg alpha r x y :
  0 <= alpha <= 1 → 0 < x → 0 < y →
  0 < alpha * power x r + (1 - alpha) * power y r.
Proof.
  intros Halpha Hx Hy.
  pose proof (power_gt_0 x r Hx). pose proof (power_gt_0 y r Hy).
  destruct (Rle_lt_dec alpha (1 / 2)).
  - assert (0 <= alpha * power x r) by (apply Rmult_le_pos; lra).
    assert (0 < (1 - alpha) * power y r) by (apply Rmult_lt_0_compat; lra).
    lra.
  - assert (0 < alpha * power x r) by (apply Rmult_lt_0_compat; lra).
    assert (0 <= (1 - alpha) * power y r) by (apply Rmult_le_pos; lra).
    lra.
Qed.

(** Scaling both factors of a CES aggregate. *)
Lemma ces_scale (x y alpha r c : R) :
  0 < c → 0 < x → 0 < y → 0 <= alpha <= 1 → r ≠ 0 →
  power (alpha * power (c * x) r + (1 - alpha) * power (c * y) r) (1 / r)
  = c * power (alpha * power x r + (1 - alpha) * power y r) (1 / r).
Proof.
  intros Hc Hx Hy Halpha Hr.
  rewrite !(power_mult c) by lra.
  replace (alpha * (power c r * power x r)
           + (1 - alpha) * (power c r * power y r))
    with (power c r * (alpha * power x r + (1 - alpha) * power y r)) by ring.
  rewrite power_mult.
  - rewrite power_power_inv by lra. reflexivity.
  - apply power_gt_0. exact Hc.
  - left. apply mix_nonneg; assumption.
Qed.

(** X15.  The CES function has constant returns to scale as well: for
    [c > 0], positive inputs and [0 <= alpha <= 1], wherever the
    expression has a value ([sigma] not [0] or [1]) scaling capital and
    labor by [c] scales output by [c]; where it has none, neither has the
    scaled expression. *)
Theorem ces_constant_returns A K L alpha sigma c :
  0 < c → 0 < K → 0 < A * L → 0 <= alpha <= 1 →
  ces_output A (c * K) (c * L) alpha sigma
  = match ces_output A K L alpha sigma with
    | Num y => Num (c * y)
    | NaN => NaN
    end.
Proof.
  intros Hc HK HAL Halpha. unfold ces_output.
  destruct (Req_dec_T sigma 0) as [|Hsigma]; [reflexivity|].
  destruct (Req_dec_T (rho sigma) 0) as [|Hrho]; [reflexivity|].
  f_equal.
  replace (A * (c * L)) with (c * (A * L)) by ring.
  apply ces_scale; assumption.
Qed.

(** X16.  Equation 1.3.1, the intensive form: with [k = K / (A L)],
    output is effective labor times the intensive output,
    [F(A, K, L) = A L f(k)], for the Cobb-Douglas function and, where it
    has a value, for the CES function. *)
Theorem intensive_form (p : parameters) A K L :
  0 < A * L → 0 < alpha p < 1 →
  (0 <= K →
   cobb_douglas_output A K L (alpha p)
   = A * L * cobb_douglas_intensive p (K / (A * L))) ∧
  (0 < K → ∀ sigma,
   ces_output A K L (alpha p) sigma
   = match ces_intensive p sigma (K / (A * L)) with
     | Num y => Num (A * L * y)
     | NaN => NaN
     end).
Proof.
  intros HAL Halpha.
  assert (HK : K = A * L * (K / (A * L))).
  { replace (A * L * (K / (A * L))) with (K * (A * L * / (A * L)))
      by (unfold Rdiv; ring).
    rewrite Rinv_r by lra. ring. }
  split.
  - intros HK0.
    assert (Hk : 0 <= K / (A * L)).
    { apply Rmult_le_pos; [exact HK0|]. left. apply Rinv_0_lt_compat. exact HAL. }
    unfold cobb_douglas_intensive, intensive_output, cobb_douglas_output.
    rewrite HK at 1.
    replace (A * L) with (A * L * 1) at 3 by ring.
    rewrite cobb_douglas_scale by lra.
    replace (1 * 1) with 1 by ring. reflexivity.
  - intros HK0 sigma.
    assert (Hk : 0 < K / (A * L)).
    { apply Rmult_lt_0_compat; [exact HK0|]. apply Rinv_0_lt_compat. exact HAL. }
    unfold ces_intensive, ces_output.
    destruct (Req_dec_T sigma 0) as [|Hsigma]; [reflexivity|].
    destruct (Req_dec_T (rho sigma) 0) as [|Hrho]; [reflexivity|].
    f_equal. rewrite HK at 1.
    replace (A * L) with (A * L * 1) at 3 by ring.
    rewrite ces_scale by lra.
    replace (1 * 1) with 1 by ring. reflexivity.
Qed.

Lemma cobb_douglas_constant_returns_witness :
  0 <= 2 ∧ 0 <= 3 ∧ 0 <= 1 * 5 ∧ 0 < 0.33 < 1 ∧
  cobb_douglas_output 1 (2 * 3) (2 * 5) 0.33
  = 2 * cobb_douglas_output 1 3 5 0.33.
Proof.
  assert (H1 : 0 <= 2) by lra. assert (H2 : 0 <= 3) by lra.
  assert (H3 : 0 <= 1 * 5) by lra. assert (H4 : 0 < 0.33 < 1) by lra.
  split; [exact H1|]. split; [exact H2|]. split; [exact H3|].
  split; [exact H4|].
  exact (cobb_douglas_constant_returns 1 3 5 0.33 2 H1 H2 H3 H4).
Defined.

Lemma ces_constant_returns_witness :
  0 < 2 ∧ 0 < 3 ∧ 0 < 1 * 5 ∧ 0 <= 0.33 <= 1 ∧
  ces_output 1 (2 * 3) (2 * 5) 0.33 0.95
  = match ces_output 1 3 5 0.33 0.95 with
    | Num y => Num (2 * y)
    | NaN => NaN
    end.
Proof.
  assert (H1 : 0 < 2) by lra. assert (H2 : 0 < 3) by lra.
  assert (H3 : 0 < 1 * 5) by lra. assert (H4 : 0 <= 0.33 <= 1) by lra.
  split; [exact H1|]. split; [exact H2|]. split; [exact H3|].
  split; [exact H4|].
  exact (ces_constant_returns 1 3 5 0.33 0.95 2 H1 H2 H3 H4).
Defined.

Lemma intensive_form_witness :
  0 < 2 * 5 ∧ 0 < alpha cobb_douglas_params < 1 ∧
  cobb_douglas_output 2 3 5 (alpha cobb_douglas_params)
  = 2 * 5 * cobb_douglas_intensive cobb_douglas_params (3 / (2 * 5)).
Proof.
  assert (H1 : 0 < 2 * 5) by lra.
  assert (H2 : 0 < alpha cobb_douglas_params < 1) by (simpl; lra).
  split; [exact H1|]. split; [exact H2|].
  apply (intensive_form cobb_douglas_params 2 3 5 H1 H2). lra.
Defined.
End ScaleFacts.

(** ** The marginal product of capital and the speed of convergence *)

Module LinearizationFacts.
Import Production Solving Linearization Examples ProductionFacts.
Local Open Scope R_scope.

(** A derivative depends on the function near the point only. *)
Lemma derivable_pt_lim_locally_ext (f h : R → R) (x l d : R) :
  0 < d → (∀ y, Rabs (y - x) < d → f y = h y) →
  derivable_pt_lim f x l → derivable_pt_lim h x l.
Proof.
  intros Hd Heq Hf eps Heps. destruct (Hf eps Heps) as [delta Hdelta].
  assert (Hmin : 0 < Rmin delta d)
    by (apply Rmin_pos; [apply cond_pos|exact Hd]).
  exists (mkposreal _ Hmin). intros h0 Hh0 Hlt. simpl in Hlt.
  rewrite <- (Heq (x + h0)), <- (Heq x).
  - apply Hdelta; [exact Hh0|].
    eapply Rlt_le_trans; [exact Hlt|apply Rmin_l].
  - replace (x - x) with 0 by ring. rewrite Rabs_R0. exact Hd.
  - replace (x + h0 - x) with h0 by ring.
    eapply Rlt_le_trans; [exact Hlt|apply Rmin_r].
Qed.

Lemma power_derivable (k a : R) :
  0 < k → derivable_pt_lim (λ x, power x a) k (a * power k (a - 1)).
Proof.
  intros Hk. rewrite power_pos by exact Hk.
  apply (derivable_pt_lim_locally_ext (λ x, Rpower x a) _ k _ k Hk).
  - intros y Hy. symmetry. apply power_pos.
    apply Rabs_def2 in Hy. lra.
  - apply derivable_pt_lim_power. exact Hk.
Qed.

Lemma Rpower_decreasing (e x y : R) :
  e < 0 → 0 < x < y → Rpower y e < Rpower x e.
Proof.
  intros He [Hx Hxy]. unfold Rpower. apply exp_increasing.
  assert (Hln : ln x < ln y) by (apply ln_increasing; lra).
  nra.
Qed.

(** X17.  The intensive Cobb-Douglas function meets the assumptions made
    on [f] (section 1.3): [f(0) = 0]; at every [k > 0] it has the
    derivative [alpha k^(alpha - 1)], the marginal product of capital,
    which is positive and falls as [k] grows; and the Inada conditions
    hold, the marginal product being unbounded as [k] tends to [0] and
    tending to [0] as [k] grows. *)
Theorem cobb_douglas_intensive_assumptions (p : parameters) :
  0 < alpha p < 1 →
  let mpk := λ k, alpha p * power k (alpha p - 1) in
  cobb_douglas_intensive p 0 = 0 ∧
  (∀ k, 0 < k →
     derivable_pt_lim (cobb_douglas_intensive p) k (mpk k) ∧ 0 < mpk k) ∧
  (∀ k1 k2, 0 < k1 < k2 → mpk k2 < mpk k1) ∧
  (∀ M, ∃ d, 0 < d ∧ ∀ k, 0 < k < d → M < mpk k) ∧
  (∀ eps, 0 < eps → ∃ K, 0 < K ∧ ∀ k, K < k → mpk k < eps).
Proof.
  intros Halpha mpk. subst mpk. cbv beta.
  split; [|split; [|split; [|split]]].
  - rewrite cobb_douglas_intensive_power. apply power_0. lra.
  - intros k Hk. split.
    + apply (derivable_pt_lim_ext (λ x, power x (alpha p)));
        [intros y; symmetry; apply cobb_douglas_intensive_power|].
      apply power_derivable. exact Hk.
    + apply Rmult_lt_0_compat; [lra|apply power_gt_0; exact Hk].
  - intros k1 k2 [H1 H12].
    rewrite !power_pos by lra.
    apply Rmult_lt_compat_l; [lra|].
    apply Rpower_decreasing; lra.
  - intros M. set (M' := Rmax M 1).
    assert (HM' : 0 < M') by (pose proof (Rmax_r M 1); unfold M'; lra).
    assert (HMM : M <= M') by apply Rmax_l.
    exists (exp (ln (M' / alpha p) / (alpha p - 1))).
    split; [apply exp_pos|]. intros k [Hk Hkd].
    rewrite power_pos by exact Hk.
    assert (Hln : ln k < ln (M' / alpha p) / (alpha p - 1)).
    { rewrite <- (ln_exp (ln (M' / alpha p) / (alpha p - 1))).
      apply ln_increasing; assumption. }
    assert (Hexp : ln (M' / alpha p) < (alpha p - 1) * ln k).
    { apply (Rmult_lt_gt_compat_neg_l (alpha p - 1)) in Hln; [|lra].
      replace ((alpha p - 1) * (ln (M' / alpha p) / (alpha p - 1)))
        with (ln (M' / alpha p)) in Hln by (field; lra).
      exact Hln. }
    apply exp_increasing in Hexp.
    rewrite exp_ln in Hexp by (apply Rdiv_lt_0_compat; lra).
    unfold Rpower.
    apply (Rmult_lt_compat_l (alpha p)) in Hexp; [|lra].
    replace (alpha p * (M' / alpha p)) with M' in Hexp by (field; lra).
    lra.
  - intros eps Heps.
    exists (exp (ln (eps / alpha p) / (alpha p - 1))).
    split; [apply exp_pos|]. intros k Hk.
    assert (Hk0 : 0 < k)
      by (pose proof (exp_pos (ln (eps / alpha p) / (alpha p - 1))); lra).
    rewrite power_pos by exact Hk0.
    assert (Hln : ln (eps / alpha p) / (alpha p - 1) < ln k).
    { rewrite <- (ln_exp (ln (eps / alpha p) / (alpha p - 1))).
      apply ln_increasing; [apply exp_pos|exact Hk]. }
    assert (Hexp : (alpha p - 1) * ln k < ln (eps / alpha p)).
    { apply (Rmult_lt_gt_compat_neg_l (alpha p - 1)) in Hln; [|lra].
      replace ((alpha p - 1) * (ln (eps / alpha p) / (alpha p - 1)))
        with (ln (eps / alpha p)) in Hln by (field; lra).
      exact Hln. }
    apply exp_increasing in Hexp.
    rewrite exp_ln in Hexp by (apply Rdiv_lt_0_compat; lra).
    unfold Rpower.
    apply (Rmult_lt_compat_l (alpha p)) in Hexp; [|lra].
    replace (alpha p * (eps / alpha p)) with eps in Hexp by (field; lra).
    exact Hexp.
Qed.

(** The derivative of the drift, where [f] has one. *)
Lemma derivable_k_dot (f : R → R) (p : parameters) (k df : R) :
  derivable_pt_lim f k df →
  derivable_pt_lim (k_dot f p) k (s p * df - (g p + n p + delta p)).
Proof.
  intros Hf.
  replace (s p * df - (g p + n p + delta p))
    with (s p * df - (g p + n p + delta p) * 1) by ring.
  apply (derivable_pt_lim_ext
           (mult_real_fct (s p) f
            - mult_real_fct (g p + n p + delta p) id)%F);
    [intros y; reflexivity|].
  apply derivable_pt_lim_minus.
  - apply derivable_pt_lim_scal. exact Hf.
  - apply derivable_pt_lim_scal. apply derivable_pt_lim_id.
Qed.

(** X18.  Equation 4.2.4: at a steady state [k_star] of the equation of
    motion [k_dot = s f(k) - (g + n + delta) k], for any intensive
    production function [f] that is differentiable there, the derivative
    of the drift is minus the speed of convergence
    [(1 - alpha_K) (g + n + delta)], with [alpha_K = k_star f'(k_star) /
    f(k_star)] the elasticity of output with respect to capital. *)
Theorem speed_of_convergence_formula (f : R → R) (p : parameters)
    (k_star df : R) :
  derivable_pt_lim f k_star df →
  k_dot f p k_star = 0 → f k_star ≠ 0 →
  derivable_pt_lim (k_dot f p) k_star
    (- speed_of_convergence p (output_elasticity f df k_star)).
Proof.
  intros Hf Hss Hne. unfold k_dot in Hss.
  assert (Hs : s p = (g p + n p + delta p) * k_star / f k_star).
  { apply (Rmult_eq_reg_r (f k_star)); [|exact Hne].
    unfold Rdiv. rewrite Rmult_assoc, Rinv_l by exact Hne. lra. }
  replace (- speed_of_convergence p (output_elasticity f df k_star))
    with (s p * df - (g p + n p + delta p)).
  - apply derivable_k_dot. exact Hf.
  - unfold speed_of_convergence, output_elasticity. rewrite Hs.
    field. exact Hne.
Qed.

(** X19.  For the Cobb-Douglas model the elasticity of output with
    respect to capital is [alpha] at every [k > 0], so the speed of
    convergence is [(1 - alpha) (g + n + delta)]: the drift has the
    derivative [- (1 - alpha) (g + n + delta)] at the steady state.  This
    is the rate in the exponent of the closed-form solution 4.2.0. *)
Theorem cobb_douglas_speed_of_convergence (p : parameters) :
  admissible p →
  (∀ k, 0 < k →
     output_elasticity (cobb_douglas_intensive p)
       (alpha p * power k (alpha p - 1)) k = alpha p) ∧
  derivable_pt_lim (cobb_douglas_k_dot p) (steady_state p)
    (- ((1 - alpha p) * (g p + n p + delta p))) ∧
  (∀ t k0,
     analytic_k p t k0
     = power (s p / (n p + g p + delta p)
              * (1 - exp (- (speed_of_convergence p (alpha p) * t)))
              + power k0 (1 - alpha p)
                * exp (- (speed_of_convergence p (alpha p) * t)))
         (1 / (1 - alpha p))).
Proof.
  intros Hp. pose proof Hp as ((Ha0 & Ha1) & Hs & Hd & Hl).
  assert (Helast : ∀ k, 0 < k →
            output_elasticity (cobb_douglas_intensive p)
              (alpha p * power k (alpha p - 1)) k = alpha p).
  { intros k Hk. unfold output_elasticity.
    rewrite cobb_douglas_intensive_power, !power_pos by exact Hk.
    unfold Rminus. rewrite Rpower_plus, Rpower_Ropp, Rpower_1 by exact Hk.
    pose proof (exp_pos (alpha p * ln k)) as Hpos. unfold Rpower in *.
    field. lra. }
  split; [exact Helast|]. split.
  - pose proof (steady_state_pos p Hp) as Hk.
    pose proof (steady_state_power p Hp) as Hpow.
    replace (- ((1 - alpha p) * (g p + n p + delta p)))
      with (s p * (alpha p * power (steady_state p) (alpha p - 1))
            - (g p + n p + delta p)).
    + apply (derivable_k_dot (cobb_douglas_intensive p) p).
      apply (derivable_pt_lim_ext (λ x, power x (alpha p)));
        [intros y; symmetry; apply cobb_douglas_intensive_power|].
      apply power_derivable. exact Hk.
    + rewrite power_pos by exact Hk.
      replace (alpha p - 1) with (- (1 - alpha p)) by ring.
      rewrite Rpower_Ropp, Hpow. field. lra.
  - intros t k0. unfold analytic_k, speed_of_convergence.
    replace (- (n p + g p + delta p) * (1 - alpha p) * t)
      with (- ((1 - alpha p) * (g p + n p + delta p) * t)) by ring.
    reflexivity.
Qed.

Lemma exp_small (lmbda d : R) :
  0 < lmbda → 0 < d → ∀ t, - ln d / lmbda < t → exp (- lmbda * t) < d.
Proof.
  intros Hl Hd t Ht.
  rewrite <- (exp_ln d Hd). apply exp_increasing.
  apply (Rmult_lt_compat_r lmbda) in Ht; [|exact Hl].
  replace (- ln d / lmbda * lmbda) with (- ln d) in Ht by (field; lra).
  lra.
Qed.

Lemma derivable_exp_linear (c t : R) :
  derivable_pt_lim (λ t, exp (c * t)) t (c * exp (c * t)).
Proof.
  apply (derivable_pt_lim_ext (comp exp (mult_real_fct c id)));
    [intros y; reflexivity|].
  replace (c * exp (c * t)) with (exp (c * t) * (c * 1)) by ring.
  apply (derivable_pt_lim_comp (mult_real_fct c id) exp t (c * 1)
           (exp (c * t))).
  - apply derivable_pt_lim_scal, derivable_pt_lim_id.
  - apply derivable_pt_lim_exp.
Qed.

(** X20.  The linearized solution 4.2.3 with a positive speed of
    convergence starts at [k0], solves the linear equation 4.2.1
    ([k'(t) = - lambda (k(t) - k_star)]), never is further from the steady
    state than [k0] at [t >= 0], and converges to the steady state; the
    trajectory on a grid that begins at [0] begins with the row
    [(0, k0)]. *)
Theorem linearized_solution_properties (k_star lmbda k0 : R) :
  0 < lmbda →
  linearized_k k_star lmbda 0 k0 = k0 ∧
  (∀ ti, linearized_solution k_star lmbda (0 :: ti) k0
         = (0, k0) :: linearized_solution k_star lmbda ti k0) ∧
  (∀ t, derivable_pt_lim (λ t, linearized_k k_star lmbda t k0) t
          (- lmbda * (linearized_k k_star lmbda t k0 - k_star))) ∧
  (∀ t, 0 <= t →
     Rabs (linearized_k k_star lmbda t k0 - k_star) <= Rabs (k0 - k_star)) ∧
  (∀ eps, 0 < eps →
     ∃ T, ∀ t, T < t → Rabs (linearized_k k_star lmbda t k0 - k_star) < eps).
Proof.
  intros Hl.
  assert (H0 : linearized_k k_star lmbda 0 k0 = k0).
  { unfold linearized_k. rewrite Rmult_0_r, exp_0. ring. }
  assert (Hdist : ∀ t, Rabs (linearized_k k_star lmbda t k0 - k_star)
                       = exp (- lmbda * t) * Rabs (k0 - k_star)).
  { intros t. unfold linearized_k.
    replace (k_star + exp (- lmbda * t) * (k0 - k_star) - k_star)
      with (exp (- lmbda * t) * (k0 - k_star)) by ring.
    rewrite Rabs_mult, (Rabs_pos_eq (exp _)); [reflexivity|].
    left. apply exp_pos. }
  split; [exact H0|]. split; [|split; [|split]].
  - intros ti. unfold linearized_solution. simpl. rewrite H0. reflexivity.
  - intros t. unfold linearized_k.
    replace (- lmbda * (k_star + exp (- lmbda * t) * (k0 - k_star) - k_star))
      with (0 + (k0 - k_star) * (- lmbda * exp (- lmbda * t))) by ring.
    apply (derivable_pt_lim_ext
             (fct_cte k_star
              + mult_real_fct (k0 - k_star) (λ t, exp (- lmbda * t)))%F).
    + intros y. unfold plus_fct, fct_cte, mult_real_fct. ring.
    + apply derivable_pt_lim_plus; [apply derivable_pt_lim_const|].
      apply derivable_pt_lim_scal. apply derivable_exp_linear.
  - intros t Ht. rewrite Hdist.
    assert (Hexp : exp (- lmbda * t) <= 1).
    { rewrite <- exp_0. destruct Ht as [Ht|<-].
      - left. apply exp_increasing. nra.
      - right. f_equal. ring. }
    pose proof (Rabs_pos (k0 - k_star)). nra.
  - intros eps Heps.
    set (c := Rabs (k0 - k_star) + 1).
    assert (Hc : 0 < c) by (unfold c; pose proof (Rabs_pos (k0 - k_star)); lra).
    assert (Hec : 0 < eps / c) by (apply Rdiv_lt_0_compat; assumption).
    exists (- ln (eps / c) / lmbda). intros t Ht. rewrite Hdist.
    pose proof (exp_small lmbda (eps / c) Hl Hec t Ht) as Hsmall.
    pose proof (exp_pos (- lmbda * t)) as Hpos.
    apply Rle_lt_trans with (exp (- lmbda * t) * c).
    + apply Rmult_le_compat_l; [lra|]. unfold c. lra.
    + apply (Rmult_lt_compat_r c) in Hsmall; [|exact Hc].
      replace (eps / c * c) with eps in Hsmall by (field; lra).
      exact Hsmall.
Qed.

Lemma cobb_douglas_intensive_assumptions_witness :
  0 < alpha cobb_douglas_params < 1 ∧
  cobb_douglas_intensive cobb_douglas_params 0 = 0 ∧
  (∀ M, ∃ d, 0 < d ∧
     ∀ k, 0 < k < d →
       M < alpha cobb_douglas_params
           * power k (alpha cobb_douglas_params - 1)).
Proof.
  assert (H : 0 < alpha cobb_douglas_params < 1) by (simpl; lra).
  split; [exact H|].
  destruct (cobb_douglas_intensive_assumptions cobb_douglas_params H)
    as (H0 & _ & _ & Hinada & _).
  split; [exact H0|exact Hinada].
Defined.

Lemma speed_of_convergence_formula_witness :
  let p := cobb_douglas_params in
  let df := alpha p * power (steady_state p) (alpha p - 1) in
  derivable_pt_lim (cobb_douglas_intensive p) (steady_state p) df ∧
  k_dot (cobb_douglas_intensive p) p (steady_state p) = 0 ∧
  cobb_douglas_intensive p (steady_state p) ≠ 0 ∧
  derivable_pt_lim (k_dot (cobb_douglas_intensive p) p) (steady_state p)
    (- speed_of_convergence p
         (output_elasticity (cobb_douglas_intensive p) df (steady_state p))).
Proof.
  intros p df.
  pose proof (steady_state_pos p cobb_douglas_params_admissible) as Hk.
  assert (H1 : derivable_pt_lim (cobb_douglas_intensive p) (steady_state p) df).
  { apply (derivable_pt_lim_ext (λ x, power x (alpha p)));
      [intros y; symmetry; apply cobb_douglas_intensive_power|].
    apply power_derivable. exact Hk. }
  assert (H2 : k_dot (cobb_douglas_intensive p) p (steady_state p) = 0)
    by exact (k_dot_steady_state p cobb_douglas_params_admissible).
  assert (H3 : cobb_douglas_intensive p (steady_state p) ≠ 0).
  { rewrite cobb_douglas_intensive_power.
    pose proof (power_gt_0 (steady_state p) (alpha p) Hk). lra. }
  split; [exact H1|]. split; [exact H2|]. split; [exact H3|].
  exact (speed_of_convergence_formula (cobb_douglas_intensive p) p
           (steady_state p) df H1 H2 H3).
Defined.

Lemma cobb_douglas_speed_of_convergence_witness :
  admissible cobb_douglas_params ∧
  derivable_pt_lim (cobb_douglas_k_dot cobb_douglas_params)
    (steady_state cobb_douglas_params)
    (- ((1 - alpha cobb_douglas_params)
        * (g cobb_douglas_params + n cobb_douglas_params
           + delta cobb_douglas_params))).
Proof.
  split; [exact cobb_douglas_params_admissible|].
  exact (proj1 (proj2 (cobb_douglas_speed_of_convergence cobb_douglas_params
                         cobb_douglas_params_admissible))).
Defined.

Lemma linearized_solution_properties_witness :
  0 < 0.067 ∧
  linearized_k 2 0.067 0 1 = 1 ∧
  ∀ eps, 0 < eps →
    ∃ T, ∀ t, T < t → Rabs (linearized_k 2 0.067 t 1 - 2) < eps.
Proof.
  assert (H : 0 < 0.067) by lra.
  split; [exact H|].
  destruct (linearized_solution_properties 2 0.067 1 H)
    as (H0 & _ & _ & _ & Hlim).
  split; [exact H0|exact Hlim].
Defined.
End LinearizationFacts.

(** ** The closed-form trajectory *)

Module TrajectoryFacts.
Import Production Solving Examples ProductionFacts LinearizationFacts.
Local Open Scope R_scope.

Lemma power_inv_power x y : 0 <= x → y ≠ 0 → power (power x (1 / y)) y = x.
Proof.
  intros Hx Hy.
  assert (Hy' : 1 / y ≠ 0).
  { unfold Rdiv. rewrite Rmult_1_l. apply Rinv_neq_0_compat. exact Hy. }
  pose proof (power_power_inv x (1 / y) Hx Hy') as H.
  replace (1 / (1 / y)) with y in H by (field; exact Hy). exact H.
Qed.

Lemma power_monotone x y q : 0 < q → 0 <= x <= y → power x q <= power y q.
Proof.
  intros Hq [[Hx|<-] Hxy].
  - rewrite !power_pos by lra. apply Rle_Rpower_l; lra.
  - rewrite power_0 by lra. apply power_nonneg; lra.
Qed.

Section trajectory.
Variables (p : parameters) (k0 : R).
Hypothesis Hp : admissible p.
Hypothesis Hk0 : 0 <= k0.

Let lmbda := n p + g p + delta p.
Let a := s p / lmbda.
Let b := power k0 (1 - alpha p).
Let q := 1 / (1 - alpha p).
Let c := - lmbda * (1 - alpha p).
Let u (t : R) := exp (c * t).
Let inner (t : R) := a * (1 - u t) + b * u t.

Lemma trajectory_unfold t : analytic_k p t k0 = power (inner t) q.
Proof. reflexivity. Qed.

Lemma alpha_bounds : 0 < 1 - alpha p ∧ 0 < q.
Proof.
  destruct Hp as ((Ha0 & Ha1) & _). split; [lra|].
  unfold q. apply Rdiv_lt_0_compat; lra.
Qed.

Lemma c_neg : c < 0.
Proof.
  pose proof (lmbda_pos p Hp) as Hl. destruct alpha_bounds as [Ha _].
  unfold c, lmbda.
  assert (0 < (g p + n p + delta p) * (1 - alpha p))
    by (apply Rmult_lt_0_compat; assumption).
  lra.
Qed.

Lemma a_gt_0 : 0 < a.
Proof. apply ratio_pos, Hp. Qed.

Lemma b_ge_0 : 0 <= b.
Proof. destruct alpha_bounds. apply power_nonneg; [exact Hk0|lra]. Qed.

Lemma u_gt_0 t : 0 < u t.
Proof. apply exp_pos. Qed.

Lemma u_le_1 t : 0 <= t → u t <= 1.
Proof.
  intros [Ht|<-]; unfold u.
  - rewrite <- exp_0. left. apply exp_increasing.
    pose proof c_neg. nra.
  - rewrite Rmult_0_r, exp_0. lra.
Qed.

Lemma u_decreasing t1 t2 : t1 <= t2 → u t2 <= u t1.
Proof.
  intros [Ht|<-]; [|lra]. left. apply exp_increasing.
  pose proof c_neg. nra.
Qed.

Lemma u_plus t1 t2 : u (t1 + t2) = u t1 * u t2.
Proof. unfold u. rewrite <- exp_plus. f_equal. ring. Qed.

Lemma inner_nonneg t : 0 <= t → 0 <= inner t.
Proof.
  intros Ht. pose proof a_gt_0. pose proof b_ge_0.
  pose proof (u_gt_0 t). pose proof (u_le_1 t Ht). unfold inner.
  assert (0 <= a * (1 - u t)) by (apply Rmult_le_pos; lra).
  assert (0 <= b * u t) by (apply Rmult_le_pos; lra).
  lra.
Qed.

Lemma inner_pos t : 0 <= t → 0 < t ∨ 0 < k0 → 0 < inner t.
Proof.
  intros Ht Hor. pose proof a_gt_0. pose proof b_ge_0.
  pose proof (u_gt_0 t). pose proof (u_le_1 t Ht). unfold inner.
  assert (0 <= a * (1 - u t)) by (apply Rmult_le_pos; lra).
  assert (0 <= b * u t) by (apply Rmult_le_pos; lra).
  destruct Hor as [Hpos|Hpos].
  - assert (u t < 1).
    { unfold u. rewrite <- exp_0. apply exp_increasing.
      pose proof c_neg. nra. }
    assert (0 < a * (1 - u t)) by (apply Rmult_lt_0_compat; lra).
    lra.
  - assert (0 < b) by (apply power_gt_0; exact Hpos).
    assert (0 < b * u t) by (apply Rmult_lt_0_compat; lra).
    lra.
Qed.

Lemma steady_state_a : steady_state p = power a q.
Proof. reflexivity. Qed.

Lemma k0_b : k0 = power b q.
Proof.
  destruct alpha_bounds. symmetry. apply power_power_inv; [exact Hk0|lra].
Qed.

Lemma a_steady_state : power (steady_state p) (1 - alpha p) = a.
Proof.
  destruct alpha_bounds. rewrite steady_state_a.
  apply power_inv_power; [left; exact a_gt_0|lra].
Qed.

(** X21.  The closed-form solution is a flow: following it for [t1 >= 0]
    and then, from the capital stock reached, for [t2] more gives the
    capital stock at [t1 + t2]. *)
Theorem analytic_solution_flow t1 t2 :
  0 <= t1 →
  analytic_k p (t1 + t2) k0 = analytic_k p t2 (analytic_k p t1 k0).
Proof.
  intros Ht1. destruct alpha_bounds as [Ha Hq].
  unfold analytic_k at 2.
  rewrite (trajectory_unfold t1). unfold q.
  rewrite power_inv_power by (try apply inner_nonneg; lra).
  rewrite trajectory_unfold. unfold q. f_equal.
  unfold inner. rewrite u_plus. unfold u, c, a, lmbda. ring.
Qed.

(** X22.  The closed-form trajectory never crosses the steady state and
    approaches it monotonically: from [k0] at or below the steady state
    it is non-decreasing in [t >= 0] and stays between [k0] and the steady
    state; from [k0] at or above it is non-increasing and stays between
    the steady state and [k0]; from the steady state itself it is
    constant. *)
Theorem analytic_solution_monotone :
  (k0 <= steady_state p →
   ∀ t1 t2, 0 <= t1 <= t2 →
     k0 <= analytic_k p t1 k0 ∧ analytic_k p t1 k0 <= analytic_k p t2 k0 ∧
     analytic_k p t2 k0 <= steady_state p) ∧
  (steady_state p <= k0 →
   ∀ t1 t2, 0 <= t1 <= t2 →
     steady_state p <= analytic_k p t2 k0 ∧
     analytic_k p t2 k0 <= analytic_k p t1 k0 ∧ analytic_k p t1 k0 <= k0) ∧
  (k0 = steady_state p → ∀ t, analytic_k p t k0 = steady_state p).
Proof.
  destruct alpha_bounds as [Ha Hq].
  pose proof a_gt_0 as Ha0. pose proof b_ge_0 as Hb0.
  assert (Hinner : ∀ t, inner t = a - (a - b) * u t)
    by (intros t; unfold inner; ring).
  split; [|split].
  - intros Hle t1 t2 [Ht1 Ht12].
    assert (Hba : b <= a).
    { rewrite <- a_steady_state. apply power_monotone; lra. }
    pose proof (u_gt_0 t1). pose proof (u_le_1 t1 Ht1).
    pose proof (u_gt_0 t2). pose proof (u_decreasing t1 t2 Ht12).
    rewrite !trajectory_unfold, steady_state_a.
    rewrite k0_b at 1.
    split; [|split]; apply power_monotone; try exact Hq;
      rewrite ?Hinner; split; nra.
  - intros Hle t1 t2 [Ht1 Ht12].
    assert (Hba : a <= b).
    { rewrite <- a_steady_state. apply power_monotone; [lra|].
      split; [left; apply steady_state_pos; exact Hp|exact Hle]. }
    pose proof (u_gt_0 t1). pose proof (u_le_1 t1 Ht1).
    pose proof (u_gt_0 t2). pose proof (u_decreasing t1 t2 Ht12).
    rewrite !trajectory_unfold, steady_state_a.
    rewrite k0_b at 1.
    split; [|split]; apply power_monotone; try exact Hq;
      rewrite ?Hinner; split; nra.
  - intros Heq t.
    assert (Hba : b = a) by (unfold b; rewrite Heq; apply a_steady_state).
    rewrite trajectory_unfold, steady_state_a, Hinner, Hba. f_equal. ring.
Qed.

Lemma derivable_inner t :
  derivable_pt_lim inner t ((b - a) * (c * u t)).
Proof.
  replace ((b - a) * (c * u t)) with (0 + (b - a) * (c * u t)) by ring.
  apply (derivable_pt_lim_ext
           (fct_cte a + mult_real_fct (b - a) (λ t, exp (c * t)))%F).
  - intros y. unfold plus_fct, fct_cte, mult_real_fct, inner, u. ring.
  - apply derivable_pt_lim_plus; [apply derivable_pt_lim_const|].
    apply derivable_pt_lim_scal. apply derivable_exp_linear.
Qed.

(** X23.  The closed-form solution solves the model: at every [t > 0]
    (and at [t = 0] when [k0 > 0]) the trajectory is differentiable in
    [t], and its derivative is the drift of the Cobb-Douglas model,
    [s k(t)^alpha - (g + n + delta) k(t)] (equation 1.3.6), at the capital
    stock [k(t)]. *)
Theorem analytic_solution_solves t :
  0 <= t → 0 < t ∨ 0 < k0 →
  derivable_pt_lim (λ t, analytic_k p t k0) t
    (cobb_douglas_k_dot p (analytic_k p t k0)).
Proof.
  intros Ht Hor. destruct alpha_bounds as [Ha Hq].
  pose proof (inner_pos t Ht Hor) as HI.
  pose proof (lmbda_pos p Hp) as Hl.
  (* near [t] the base of the power is positive *)
  assert (Hhalf : 0 < inner t / 2) by lra.
  destruct (derivable_continuous_eps inner t _ (derivable_inner t)
              (inner t / 2) Hhalf) as (d & Hd & Hnear).
  apply (derivable_pt_lim_locally_ext
           (comp exp (mult_real_fct q (comp ln inner))) _ t _ d Hd).
  { intros y Hy. rewrite trajectory_unfold.
    assert (Hy0 : 0 < inner y).
    { specialize (Hnear y Hy). apply Rabs_def2 in Hnear. lra. }
    rewrite power_pos by exact Hy0. reflexivity. }
  (* the value of the derivative *)
  assert (Hval : cobb_douglas_k_dot p (analytic_k p t k0)
                 = exp (q * ln (inner t))
                   * (q * (/ inner t * ((b - a) * (c * u t))))).
  { unfold cobb_douglas_k_dot, k_dot.
    rewrite cobb_douglas_intensive_power, trajectory_unfold.
    rewrite (power_pos (inner t)) by exact HI.
    rewrite power_pos by (apply exp_pos).
    unfold Rpower. rewrite ln_exp.
    replace (alpha p * (q * ln (inner t)))
      with (q * ln (inner t) + - ln (inner t))
      by (unfold q; field; lra).
    rewrite exp_plus, exp_Ropp, exp_ln by exact HI.
    assert (Hs : s p = a * lmbda) by (unfold a, lmbda; field; lra).
    rewrite Hs.
    replace (g p + n p + delta p) with lmbda by (unfold lmbda; ring).
    assert (Hqc : q * c = - lmbda) by (unfold q, c; field; lra).
    replace (q * (/ inner t * ((b - a) * (c * u t))))
      with (q * c * (/ inner t * ((b - a) * u t))) by ring.
    rewrite Hqc.
    generalize (exp (q * ln (inner t))). intros E.
    unfold inner in *. field. lra. }
  rewrite Hval.
  apply (derivable_pt_lim_comp (mult_real_fct q (comp ln inner)) exp t
           (q * (/ inner t * ((b - a) * (c * u t))))
           (exp (q * ln (inner t)))).
  - apply derivable_pt_lim_scal.
    apply (derivable_pt_lim_comp inner ln t ((b - a) * (c * u t)) (/ inner t)).
    + apply derivable_inner.
    + apply derivable_pt_lim_ln. exact HI.
  - apply derivable_pt_lim_exp.
Qed.
End trajectory.

Lemma analytic_solution_flow_witness :
  admissible cobb_douglas_params ∧ 0 <= 1 ∧ 0 <= 10 ∧
  analytic_k cobb_douglas_params (10 + 5) 1
  = analytic_k cobb_douglas_params 5 (analytic_k cobb_douglas_params 10 1).
Proof.
  assert (H1 : 0 <= 1) by lra. assert (H2 : 0 <= 10) by lra.
  split; [exact cobb_douglas_params_admissible|].
  split; [exact H1|]. split; [exact H2|].
  exact (analytic_solution_flow cobb_douglas_params 1
           cobb_douglas_params_admissible H1 10 5 H2).
Defined.

Lemma analytic_solution_monotone_witness :
  admissible cobb_douglas_params ∧
  0 <= steady_state cobb_douglas_params ∧
  ∀ t, analytic_k cobb_douglas_params t (steady_state cobb_douglas_params)
       = steady_state cobb_douglas_params.
Proof.
  assert (H : 0 <= steady_state cobb_douglas_params)
    by (left; apply steady_state_pos; exact cobb_douglas_params_admissible).
  split; [exact cobb_douglas_params_admissible|]. split; [exact H|].
  exact (proj2 (proj2 (analytic_solution_monotone cobb_douglas_params
                         (steady_state cobb_douglas_params)
                         cobb_douglas_params_admissible H)) eq_refl).
Defined.

Lemma analytic_solution_solves_witness :
  admissible cobb_douglas_params ∧ 0 <= 1 ∧ 0 <= 0 ∧ 0 < 1 ∧
  derivable_pt_lim (λ t, analytic_k cobb_douglas_params t 1) 0
    (cobb_douglas_k_dot cobb_douglas_params
       (analytic_k cobb_douglas_params 0 1)).
Proof.
  assert (H1 : 0 <= 1) by lra. assert (H2 : 0 <= 0) by lra.
  assert (H3 : 0 < 1) by lra.
  split; [exact cobb_douglas_params_admissible|].
  split; [exact H1|]. split; [exact H2|]. split; [exact H3|].
  exact (analytic_solution_solves cobb_douglas_params 1
           cobb_douglas_params_admissible H1 0 H2 (or_intror H3)).
Defined.
End TrajectoryFacts.

(** ** The growth rate of output per capita *)

Module GrowthFacts.
Import Production Examples.
Local Open Scope R_scope.

Lemma diff_lookup (x : list R) (i : nat) (a b : R) :
  x !! i = Some a → x !! S i = Some b → Simulation.diff x !! i = Some (b - a).
Proof.
  intros Ha Hb. unfold Simulation.diff.
  rewrite lookup_zip_with, Ha. simpl.
  rewrite lookup_tail, Hb. reflexivity.
Qed.

Lemma log_output_lookup (f : R → R) (A0 g : R) (soln : list (R * R))
    (i : nat) (t k : R) :
  soln !! i = Some (t, k) →
  map ln (Simulation.output_per_capita (map f (soln.*2))
            (Simulation.technology A0 g soln)) !! i
  = Some (ln (f k * (A0 * exp (g * t)))).
Proof.
  intros H. unfold Simulation.output_per_capita, Simulation.technology.
  rewrite list_lookup_fmap, lookup_zip_with.
  rewrite !list_lookup_fmap, H. reflexivity.
Qed.

(** X24.  The plotted growth rate of output per capita between two
    consecutive grid points is the growth of intensive output plus [g]
    times the step: [ln f(k2) - ln f(k1) + g (t2 - t1)], for positive
    [A0] and intensive outputs.  On a balanced growth path (equal
    intensive output at both points, as at a steady state) it is
    [g (t2 - t1)], whatever the level [A0] is. *)
Theorem growth_rate_decomposition (f : R → R) (A0 g : R)
    (numeric_soln : list (R * R)) (i : nat) (t1 k1 t2 k2 : R) :
  numeric_soln !! i = Some (t1, k1) →
  numeric_soln !! S i = Some (t2, k2) →
  0 < A0 → 0 < f k1 → 0 < f k2 →
  Simulation.growth_rates f A0 g numeric_soln !! i
    = Some (ln (f k2) - ln (f k1) + g * (t2 - t1)) ∧
  (f k1 = f k2 →
   Simulation.growth_rates f A0 g numeric_soln !! i = Some (g * (t2 - t1))).
Proof.
  intros H1 H2 HA Hf1 Hf2.
  assert (Hrate : Simulation.growth_rates f A0 g numeric_soln !! i
                  = Some (ln (f k2) - ln (f k1) + g * (t2 - t1))).
  { unfold Simulation.growth_rates.
    rewrite (diff_lookup _ i _ _ (log_output_lookup f A0 g _ i t1 k1 H1)
               (log_output_lookup f A0 g _ (S i) t2 k2 H2)).
    f_equal.
    rewrite !ln_mult by (try apply Rmult_lt_0_compat; try apply exp_pos; lra).
    rewrite !ln_exp. ring. }
  split; [exact Hrate|].
  intros Heq. rewrite Hrate, Heq. f_equal. ring.
Qed.

Lemma growth_rate_decomposition_witness :
  [(0, 4); (1, 4)] !! 0%nat = Some (0, 4) ∧
  [(0, 4); (1, 4)] !! 1%nat = Some (1, 4) ∧
  0 < 3 ∧ 0 < sqrt 4 ∧
  Simulation.growth_rates sqrt 3 0.02 [(0, 4); (1, 4)] !! 0%nat
  = Some (0.02 * (1 - 0)).
Proof.
  assert (HA : 0 < 3) by lra.
  assert (Hf : 0 < sqrt 4) by (apply sqrt_lt_R0; lra).
  split; [reflexivity|]. split; [reflexivity|]. split; [exact HA|].
  split; [exact Hf|].
  exact (proj2 (growth_rate_decomposition sqrt 3 0.02 [(0, 4); (1, 4)] 0
                  0 4 1 4 eq_refl eq_refl HA Hf Hf) eq_refl).
Defined.
End GrowthFacts.
